(** * Weighted, scaled forecast metrics of the M5 starter kit

    A shallow embedding of [evaluate.py] (metric functions, the naive-forecast
    scale, the weighted scaled score and the backtest driver [m5_backtest])
    and of the top-down disaggregation step of [model1.py].

    Numbers.  A tensor element is a value of [fl]: a real number, one of the
    two infinities, or NaN.  Arithmetic on finite values is exact (rounding and
    overflow are not modelled, and there is a single zero, treated as +0 by
    division); the special values follow the IEEE rules that torch applies.

    Tensors.  A tensor is a shape together with an element function on
    multi-indices, in the order the source writes them (batch axes first, then
    duration, then channels).  Every operation that torch rejects returns an
    [error]. *)

From Stdlib Require Import String Reals Lra Lia Arith PeanoNat ZArith Bool List.
From Stdlib Require Import FunctionalExtensionality Permutation.
Import ListNotations.

(* ================================================================= *)
(** ** Floating-point values *)

Inductive fl : Type :=
| Fin (r : R)
| PInf
| NInf
| NaN.

Section FloatOps.
Local Open Scope R_scope.

Definition fl_opp (x : fl) : fl :=
  match x with
  | Fin r => Fin (- r)
  | PInf => NInf
  | NInf => PInf
  | NaN => NaN
  end.

Definition fl_add (x y : fl) : fl :=
  match x, y with
  | NaN, _ | _, NaN => NaN
  | Fin a, Fin b => Fin (a + b)
  | PInf, NInf | NInf, PInf => NaN
  | PInf, _ | _, PInf => PInf
  | NInf, _ | _, NInf => NInf
  end.

Definition fl_sub (x y : fl) : fl := fl_add x (fl_opp y).

(** The product of an infinity ([PInf] when [pos], [NInf] otherwise) and the
    finite number [r]; also the quotient [r / 0] when [pos]. *)
Definition fl_mul_inf (pos : bool) (r : R) : fl :=
  if Rlt_dec 0 r then (if pos then PInf else NInf)
  else if Rlt_dec r 0 then (if pos then NInf else PInf)
  else NaN.

Definition fl_mul (x y : fl) : fl :=
  match x, y with
  | NaN, _ | _, NaN => NaN
  | Fin a, Fin b => Fin (a * b)
  | Fin a, PInf | PInf, Fin a => fl_mul_inf true a
  | Fin a, NInf | NInf, Fin a => fl_mul_inf false a
  | PInf, PInf | NInf, NInf => PInf
  | PInf, NInf | NInf, PInf => NInf
  end.

Definition fl_div (x y : fl) : fl :=
  match x, y with
  | NaN, _ | _, NaN => NaN
  | Fin a, Fin b => if Req_dec_T b 0 then fl_mul_inf true a else Fin (a / b)
  | Fin _, _ => Fin 0
  | PInf, Fin b => if Rlt_dec b 0 then NInf else PInf
  | NInf, Fin b => if Rlt_dec b 0 then PInf else NInf
  | _, _ => NaN
  end.

Definition fl_abs (x : fl) : fl :=
  match x with
  | Fin r => Fin (Rabs r)
  | PInf | NInf => PInf
  | NaN => NaN
  end.

(** [Tensor.sqrt]. *)
Definition fl_sqrt (x : fl) : fl :=
  match x with
  | Fin r => if Rlt_dec r 0 then NaN else Fin (sqrt r)
  | PInf => PInf
  | NInf | NaN => NaN
  end.

(** [Tensor.pow(n)] for an integer exponent [n >= 0]. *)
Fixpoint fl_pow (x : fl) (n : nat) : fl :=
  match n with
  | O => Fin 1
  | S k => fl_mul x (fl_pow x k)
  end.

(** [Tensor.pow(0.5)]: torch evaluates the exponent 0.5 as [sqrt], so a
    negative argument, minus infinity included, gives NaN. *)
Definition fl_pow_half (x : fl) : fl := fl_sqrt x.

(** [Tensor.pow(1 / norm)] for the two values [norm] takes in the source:
    [1 / 1] is [1.0] and [1 / 2] is [0.5]. *)
Definition fl_pow_recip (norm : nat) (x : fl) : fl :=
  if Nat.eqb norm 1 then x else fl_pow_half x.

Definition fl_eqb (x y : fl) : bool :=
  match x, y with
  | Fin a, Fin b => if Req_dec_T a b then true else false
  | PInf, PInf | NInf, NInf => true
  | _, _ => false
  end.

Definition fl_leb (x y : fl) : bool :=
  match x, y with
  | NaN, _ | _, NaN => false
  | Fin a, Fin b => if Rle_dec a b then true else false
  | NInf, _ | _, PInf => true
  | _, _ => false
  end.

Definition fl_of_nat (n : nat) : fl := Fin (INR n).
Definition fl_of_Z (z : Z) : fl := Fin (IZR z).

Definition fl_is_nan (x : fl) : bool :=
  match x with NaN => true | _ => false end.

End FloatOps.

(** Predicates on values used in the statements. *)
Definition fl_finite (x : fl) : Prop := exists r, x = Fin r.
Definition fl_nonfinite (x : fl) : Prop :=
  x = NaN \/ x = PInf \/ x = NInf.
Definition fl_nonneg (x : fl) : Prop := exists r, x = Fin r /\ (0 <= r)%R.

(** [bigsum add zero n f] is [f 0 + f 1 + ... + f (n-1)]. *)
Fixpoint bigsum {A : Type} (add : A -> A -> A) (zero : A) (n : nat)
  (f : nat -> A) : A :=
  match n with
  | O => zero
  | S k => add (bigsum add zero k f) (f k)
  end.

Definition fsum (n : nat) (f : nat -> fl) : fl := bigsum fl_add (Fin 0) n f.
Definition zsum (n : nat) (f : nat -> Z) : Z := bigsum Z.add 0%Z n f.
Definition rsum (n : nat) (f : nat -> R) : R := bigsum Rplus 0%R n f.

(** The mean of [n] values: their sum divided by the count (NaN when
    [n = 0]). *)
Definition fmean (n : nat) (f : nat -> fl) : fl :=
  fl_div (fsum n f) (fl_of_nat n).

(* ================================================================= *)
(** ** Errors *)

Inductive error : Type :=
| BroadcastError      (* operand shapes cannot be broadcast together *)
| ReshapeError        (* reshape to an incompatible shape *)
| GatherIndexError    (* gather: index out of bounds *)
| IndexError          (* indexing a 0-dim tensor, or out of range *)
| DimError            (* axis out of range for the tensor's rank *)
| EmptyReduceError    (* median or max over no elements *)
| KeyError            (* missing dictionary key *)
| TypeError           (* a dictionary value of the wrong kind *)
| AssertionError.

Definition result (A : Type) : Type := (error + A)%type.

Definition ret {A : Type} (a : A) : result A := inr a.
Definition raise {A : Type} (e : error) : result A := inl e.
Definition bind {A B : Type} (m : result A) (k : A -> result B) : result B :=
  match m with
  | inl e => inl e
  | inr a => k a
  end.

Notation "x <- m ;; k" := (bind m (fun x => k))
  (at level 61, m at next level, right associativity).

(* ================================================================= *)
(** ** Tensors *)

Record tensor (A : Type) : Type := mkT {
  shape : list nat;
  item : list nat -> A
}.
Arguments mkT {A} _ _.
Arguments shape {A} _.
Arguments item {A} _ _.

Definition numel (sh : list nat) : nat := fold_right Nat.mul 1 sh.

(** [valid sh idx]: [idx] addresses an element of a tensor of shape [sh]. *)
Definition valid (sh idx : list nat) : Prop := Forall2 lt idx sh.

(** Row-major linear index of a multi-index, and back. *)
Fixpoint ravel (sh idx : list nat) : nat :=
  match sh, idx with
  | _ :: sh', i :: idx' => i * numel sh' + ravel sh' idx'
  | _, _ => 0
  end.

Fixpoint unravel (sh : list nat) (n : nat) : list nat :=
  match sh with
  | [] => []
  | _ :: sh' => (n / numel sh') :: unravel sh' (n mod numel sh')
  end.

(** [shape[:-2]], [shape[-1]] and [shape[-2]]. *)
Definition init2 (sh : list nat) : list nat := removelast (removelast sh).
Definition dimm1 (sh : list nat) : nat := last sh 0.
Definition dimm2 (sh : list nat) : nat := last (removelast sh) 0.

Definition rank {A : Type} (t : tensor A) : nat := length (shape t).

Definition tmap {A B : Type} (f : A -> B) (t : tensor A) : tensor B :=
  mkT (shape t) (fun idx => f (item t idx)).

(** *** Broadcasting *)

(** Shapes are aligned at their last axis, so the rule is written on the
    reversed shapes. *)
Fixpoint bcast_rev (a b : list nat) : option (list nat) :=
  match a, b with
  | [], _ => Some b
  | _, [] => Some a
  | x :: a', y :: b' =>
      if Nat.eqb x y then option_map (cons x) (bcast_rev a' b')
      else if Nat.eqb x 1 then option_map (cons y) (bcast_rev a' b')
      else if Nat.eqb y 1 then option_map (cons x) (bcast_rev a' b')
      else None
  end.

Definition broadcast_shapes (a b : list nat) : option (list nat) :=
  option_map (@rev nat) (bcast_rev (rev a) (rev b)).

(** The index into an operand of shape [s] that a result index [idx]
    reads: the trailing [length s] components, with 0 on axes of size 1. *)
Definition bidx (s idx : list nat) : list nat :=
  map (fun p => if Nat.eqb (fst p) 1 then 0 else snd p)
      (combine s (skipn (length idx - length s) idx)).

Definition tmap2 {A B C : Type} (f : A -> B -> C) (a : tensor A)
  (b : tensor B) : result (tensor C) :=
  match broadcast_shapes (shape a) (shape b) with
  | None => raise BroadcastError
  | Some sh =>
      ret (mkT sh (fun idx =>
             f (item a (bidx (shape a) idx)) (item b (bidx (shape b) idx))))
  end.

(** [torch.where(cond, a, b)]. *)
Definition twhere {A : Type} (c : tensor bool) (a b : tensor A)
  : result (tensor A) :=
  match broadcast_shapes (shape c) (shape a) with
  | None => raise BroadcastError
  | Some s1 =>
      match broadcast_shapes s1 (shape b) with
      | None => raise BroadcastError
      | Some sh =>
          ret (mkT sh (fun idx =>
                 if item c (bidx (shape c) idx)
                 then item a (bidx (shape a) idx)
                 else item b (bidx (shape b) idx)))
      end
  end.

(** [t.expand(target)]: every axis of [t] has the target's size or size 1. *)
Fixpoint expandable_rev (s target : list nat) : bool :=
  match s, target with
  | [], _ => true
  | _ :: _, [] => false
  | x :: s', y :: t' =>
      (Nat.eqb x y || Nat.eqb x 1) && expandable_rev s' t'
  end.

Definition expand {A : Type} (target : list nat) (t : tensor A)
  : result (tensor A) :=
  if expandable_rev (rev (shape t)) (rev target)
  then ret (mkT target (fun idx => item t (bidx (shape t) idx)))
  else raise BroadcastError.

(** *** Reductions *)

(** The values along axis 0 at the position [idx] of the remaining axes. *)
Definition samples {A : Type} (t : tensor A) (idx : list nat) : list A :=
  map (fun s => item t (s :: idx)) (seq 0 (hd 0 (shape t))).

(** [t.mean(0)]; torch accepts axis 0 on a 0-dim tensor, which is its own
    mean. *)
Definition mean0 (t : tensor fl) : result (tensor fl) :=
  match shape t with
  | [] => ret t
  | n :: sh => ret (mkT sh (fun idx => fmean n (fun s => item t (s :: idx))))
  end.

(** [t.sum(0)]. *)
Definition sum0 (t : tensor fl) : result (tensor fl) :=
  match shape t with
  | [] => ret t
  | n :: sh => ret (mkT sh (fun idx => fsum n (fun s => item t (s :: idx))))
  end.

(** Insertion sort of non-NaN values, used by the median. *)
Fixpoint fl_insert (x : fl) (l : list fl) : list fl :=
  match l with
  | [] => [x]
  | y :: l' => if fl_leb x y then x :: l else y :: fl_insert x l'
  end.

Fixpoint fl_sort (l : list fl) : list fl :=
  match l with
  | [] => []
  | x :: l' => fl_insert x (fl_sort l')
  end.

(** The median torch returns for a list of values: NaN if one of them is
    NaN, otherwise the lower of the two middle values of the sorted list. *)
Definition lower_median (l : list fl) : fl :=
  if existsb fl_is_nan l then NaN
  else nth ((length l - 1) / 2) (fl_sort l) NaN.

(** [t.median(0).values]; torch rejects an empty axis, and a 0-dim tensor
    is its own median. *)
Definition median0 (t : tensor fl) : result (tensor fl) :=
  match shape t with
  | [] => ret t
  | O :: _ => raise EmptyReduceError
  | _ :: sh => ret (mkT sh (fun idx => lower_median (samples t idx)))
  end.

(** [t.sum(-1)] and [t.sum(-1, keepdims=True)], for any addition.  A 0-dim
    tensor is its own sum. *)
Definition reduce_last {A : Type} (add : A -> A -> A) (zero : A)
  (keepdims : bool) (t : tensor A) : tensor A :=
  match shape t with
  | [] => t
  | _ =>
      let n := dimm1 (shape t) in
      if keepdims
      then mkT (removelast (shape t) ++ [1])
             (fun idx => bigsum add zero n
                           (fun k => item t (removelast idx ++ [k])))
      else mkT (removelast (shape t))
             (fun idx => bigsum add zero n (fun k => item t (idx ++ [k])))
  end.

Definition sum_last := reduce_last fl_add (Fin 0).

(** [t.mean(-1)]. *)
Definition mean_last (t : tensor fl) : tensor fl :=
  match shape t with
  | [] => t
  | _ =>
      mkT (removelast (shape t))
        (fun idx => fmean (dimm1 (shape t)) (fun k => item t (idx ++ [k])))
  end.

(** [t.sum(-2)] and [t.sum(-2, keepdims=True)]. *)
Definition reduce_m2 {A : Type} (add : A -> A -> A) (zero : A)
  (keepdims : bool) (t : tensor A) : result (tensor A) :=
  if length (shape t) <? 2 then raise DimError
  else
    let n := dimm2 (shape t) in
    let d := dimm1 (shape t) in
    if keepdims
    then ret (mkT (init2 (shape t) ++ [1; d])
                (fun idx => bigsum add zero n
                   (fun k => item t (init2 idx ++ [k; last idx 0]))))
    else ret (mkT (init2 (shape t) ++ [d])
                (fun idx => bigsum add zero n
                   (fun k => item t (removelast idx ++ [k; last idx 0])))).

(** [t.cumsum(-1)]; a 0-dim tensor is returned as it is. *)
Definition cumsum_last (t : tensor fl) : tensor fl :=
  mkT (shape t)
    (match shape t with
     | [] => item t
     | _ => fun idx =>
         fsum (S (last idx 0)) (fun k => item t (removelast idx ++ [k]))
     end).

(** [t.cumsum(-2)]. *)
Definition cumsum_m2 (t : tensor fl) : result (tensor fl) :=
  if length (shape t) <? 2 then raise DimError
  else ret (mkT (shape t)
              (fun idx =>
                 fsum (S (last (removelast idx) 0))
                   (fun k => item t (init2 idx ++ [k; last idx 0])))).

(** [t.sum()]: the sum of all elements, a 0-dim tensor. *)
Definition sum_all (t : tensor fl) : tensor fl :=
  mkT [] (fun _ =>
            fsum (numel (shape t)) (fun n => item t (unravel (shape t) n))).

(** [t.max()] of an integer tensor; torch rejects a tensor of no elements. *)
Definition max_all (t : tensor Z) : result Z :=
  match numel (shape t) with
  | O => raise EmptyReduceError
  | S n =>
      ret (fold_right Z.max (item t (unravel (shape t) 0))
             (map (fun k => item t (unravel (shape t) k)) (seq 1 n)))
  end.

(** *** Slicing, padding, indexing *)

(** The stop of the Python slice [:k] on an axis of length [n]. *)
Definition slice_stop (k : Z) (n : nat) : nat :=
  if (k <? 0)%Z then Z.to_nat (Z.of_nat n + k) else Nat.min (Z.to_nat k) n.

(** [t[..., :k, :]]. *)
Definition slice_m2_to {A : Type} (k : Z) (t : tensor A)
  : result (tensor A) :=
  if length (shape t) <? 2 then raise IndexError
  else ret (mkT (init2 (shape t)
                   ++ [slice_stop k (dimm2 (shape t)); dimm1 (shape t)])
              (item t)).

(** [t[:, -k:]]: the last [k] positions of axis 1, all of them when there
    are fewer. *)
Definition slice_last_cols {A : Type} (k : nat) (t : tensor A)
  : result (tensor A) :=
  match shape t with
  | n :: m :: rest =>
      ret (mkT (n :: Nat.min k m :: rest)
             (fun idx =>
                match idx with
                | i :: j :: r => item t (i :: j + (m - Nat.min k m) :: r)
                | _ => item t idx
                end))
  | _ => raise IndexError
  end.

(** [torch.nn.functional.pad(t, (0, 0, 1, 0))]: one zero step in front of
    axis -2. *)
Definition pad_front_m2 (t : tensor fl) : result (tensor fl) :=
  if length (shape t) <? 2 then raise DimError
  else ret (mkT (init2 (shape t)
                   ++ [S (dimm2 (shape t)); dimm1 (shape t)])
              (fun idx =>
                 match last (removelast idx) 0 with
                 | O => Fin 0
                 | S k => item t (init2 idx ++ [k; last idx 0])
                 end)).

(** [t.gather(-2, index)]. *)
Definition gather_m2 {A : Type} (t : tensor A) (index : tensor Z)
  : result (tensor A) :=
  if length (shape t) <? 2 then raise DimError
  else if negb (Nat.eqb (length (shape index)) (length (shape t)))
  then raise GatherIndexError
  else if negb (forallb (fun p => Nat.leb (fst p) (snd p))
                  (combine (init2 (shape index) ++ [dimm1 (shape index)])
                           (init2 (shape t) ++ [dimm1 (shape t)])))
  then raise GatherIndexError
  else if forallb
            (fun n =>
               let i := item index (unravel (shape index) n) in
               (0 <=? i)%Z && (i <? Z.of_nat (dimm2 (shape t)))%Z)
            (seq 0 (numel (shape index)))
  then ret (mkT (shape index)
              (fun idx =>
                 item t (init2 idx ++ [Z.to_nat (item index idx);
                                      last idx 0])))
  else raise GatherIndexError.

(** [t.squeeze(-1)] and [t.squeeze(-2)]: the axis is dropped when its size
    is 1 and the tensor is returned as it is otherwise. *)
Definition squeeze_last {A : Type} (t : tensor A) : tensor A :=
  match shape t with
  | [] => t
  | _ =>
      if Nat.eqb (dimm1 (shape t)) 1
      then mkT (removelast (shape t)) (fun idx => item t (idx ++ [0]))
      else t
  end.

Definition squeeze_m2 {A : Type} (t : tensor A) : result (tensor A) :=
  if length (shape t) <? 2 then raise DimError
  else if Nat.eqb (dimm2 (shape t)) 1
  then ret (mkT (init2 (shape t) ++ [dimm1 (shape t)])
              (fun idx => item t (removelast idx ++ [0; last idx 0])))
  else ret t.

(** [t.unsqueeze(0)]. *)
Definition unsqueeze0 {A : Type} (t : tensor A) : tensor A :=
  mkT (1 :: shape t) (fun idx => item t (tl idx)).

(** [t[k]] for a Python integer [k]. *)
Definition index0 {A : Type} (k : Z) (t : tensor A) : result (tensor A) :=
  match shape t with
  | [] => raise IndexError
  | n :: sh =>
      let k' := if (k <? 0)%Z then (k + Z.of_nat n)%Z else k in
      if (0 <=? k')%Z && (k' <? Z.of_nat n)%Z
      then ret (mkT sh (fun idx => item t (Z.to_nat k' :: idx)))
      else raise IndexError
  end.

(** [data.new_ones(sh)]. *)
Definition new_ones (sh : list nat) : tensor fl := mkT sh (fun _ => Fin 1).

(** *** Reshape *)

(** The shape [t.reshape(target)] has for a tensor of [n] elements, where
    one entry of [target] may be [-1]. *)
Definition infer_shape (target : list Z) (n : nat) : option (list nat) :=
  if existsb (fun z => (z <? -1)%Z) target then None
  else
    let known :=
      numel (map Z.to_nat (filter (fun z => negb (z =? -1)%Z) target)) in
    match count_occ Z.eq_dec target (-1)%Z with
    | O => if Nat.eqb known n then Some (map Z.to_nat target) else None
    | S O =>
        if Nat.eqb known 0 then None
        else if Nat.eqb (n mod known) 0
        then Some (map (fun z => if (z =? -1)%Z then n / known
                                 else Z.to_nat z) target)
        else None
    | _ => None
    end.

Definition reshape {A : Type} (target : list Z) (t : tensor A)
  : result (tensor A) :=
  match infer_shape target (numel (shape t)) with
  | None => raise ReshapeError
  | Some sh =>
      ret (mkT sh (fun idx => item t (unravel (shape t) (ravel sh idx))))
  end.

(** [a.ger(b)]: the outer product of two vectors. *)
Definition ger (a b : tensor fl) : result (tensor fl) :=
  match shape a, shape b with
  | [n], [m] =>
      ret (mkT [n; m]
             (fun idx => fl_mul (item a [hd 0 idx]) (item b [last idx 0])))
  | _, _ => raise DimError
  end.

(** A vector (1-dim tensor) holding the values of a list. *)
Definition tensor_of_list (l : list fl) : tensor fl :=
  mkT [length l] (fun idx => nth (hd 0 idx) l NaN).

(* ================================================================= *)
(** ** evaluate.py *)

Definition metric_fn : Type := tensor fl -> tensor fl -> result (tensor fl).

(** The target [truth.shape[:-2] + (-1,)] of the metrics' reshape. *)
Definition flatten_target (truth : tensor fl) : list Z :=
  map Z.of_nat (init2 (shape truth)) ++ [(-1)%Z].

Definition eval_mae (pred truth : tensor fl) : result (tensor fl) :=
  pred <- median0 pred ;;
  err <- tmap2 fl_sub pred truth ;;
  flat <- reshape (flatten_target truth) (tmap fl_abs err) ;;
  ret (mean_last flat).

Definition eval_rmse (pred truth : tensor fl) : result (tensor fl) :=
  pred <- mean0 pred ;;
  err <- tmap2 fl_sub pred truth ;;
  sq <- tmap2 fl_mul err err ;;
  flat <- reshape (flatten_target truth) sq ;;
  ret (tmap fl_sqrt (mean_last flat)).

Section Metrics.

(** The routines of the forecasting library that the metrics call.
    [crps_empirical] is used as it is.  [quantile(pred, probs, dim=0)] is
    taken to act position by position: [sample_quantile l q] is the empirical
    quantile [q] of the sample values [l]. *)
Variable crps_empirical : tensor fl -> tensor fl -> result (tensor fl).
Variable sample_quantile : list fl -> fl -> fl.

(** [M5Data.quantiles], a constant of [util.py]. *)
Variable quantiles : list R.

Definition eval_crps (pred truth : tensor fl) : result (tensor fl) :=
  c <- crps_empirical pred truth ;;
  flat <- reshape (flatten_target truth) c ;;
  ret (mean_last flat).

(** [quantile(pred, probs=us, dim=0)]: one slice per level in front of the
    remaining axes of [pred]. *)
Definition quantile0 (us pred : tensor fl) : result (tensor fl) :=
  match shape pred with
  | [] => raise DimError
  | O :: _ => raise IndexError
  | _ :: sh =>
      ret (mkT (numel (shape us) :: sh)
             (fun idx =>
                sample_quantile (samples pred (tl idx)) (item us [hd 0 idx])))
  end.

Definition eval_pl (pred truth : tensor fl) : result (tensor fl) :=
  let us := tensor_of_list (map Fin quantiles) in
  pred <- quantile0 us pred ;;
  err <- tmap2 fl_sub pred (unsqueeze0 truth) ;;
  us1 <- reshape ((-1)%Z :: repeat 1%Z (rank pred - 1)) us ;;
  us <- expand (shape pred) us1 ;;
  w <- twhere (tmap (fun e => fl_leb e (Fin 0)) err)
         (tmap fl_opp us) (tmap (fl_sub (Fin 1)) us) ;;
  we <- tmap2 fl_mul w err ;;
  err <- mean0 we ;;
  flat <- reshape (flatten_target truth) err ;;
  ret (mean_last flat).

Definition DEFAULT_METRICS : list (string * metric_fn) :=
  [("mae"%string, eval_mae); ("rmse"%string, eval_rmse);
   ("crps"%string, eval_crps); ("pl"%string, eval_pl)].

End Metrics.

(** [shape[-2]], which Python rejects on a shape of fewer than 2 axes. *)
Definition shape_m2 (sh : list nat) : result nat :=
  if length sh <? 2 then raise IndexError else ret (dimm2 sh).

(** [norm = 2 if metric == "rmse" else 1]. *)
Definition metric_norm (metric : string) : nat :=
  if String.eqb metric "rmse" then 2 else 1.

(** [(train_data.sum(-1, keepdims=True).cumsum(-2) != 0).sum(-2, keepdims=True)]. *)
Definition active_time_of (train_data : tensor fl) : result (tensor Z) :=
  cs <- cumsum_m2 (sum_last true train_data) ;;
  reduce_m2 Z.add 0%Z true
    (tmap (fun x => Z.b2z (negb (fl_eqb x (Fin 0)))) cs).

Definition _get_metric_scale (metric : string) (train_data : tensor fl)
  : result (tensor fl) :=
  duration <- shape_m2 (shape train_data) ;;
  front <- slice_m2_to (-1) train_data ;;
  padded <- pad_front_m2 front ;;
  lag1 <- tmap2 fl_sub train_data padded ;;
  active_time <- active_time_of train_data ;;
  index <- expand (removelast (shape active_time)
                     ++ [dimm1 (shape train_data)])
             (tmap (fun a => (Z.of_nat duration - a)%Z) active_time) ;;
  start_value <- gather_m2 train_data index ;;
  let norm := metric_norm metric in
  lag_sum <- reduce_m2 fl_add (Fin 0) false
               (tmap (fun x => fl_pow (fl_abs x) norm) lag1) ;;
  start <- squeeze_m2 start_value ;;
  lag1_norm <- tmap2 fl_sub lag_sum
                 (tmap (fun x => fl_pow (fl_abs x) norm) start) ;;
  q <- tmap2 (fun x a => fl_div x (fl_of_Z a)) (mean_last lag1_norm)
         (tmap (fun a => (a - 1)%Z) (squeeze_last (squeeze_last active_time))) ;;
  ret (tmap (fl_pow_recip norm) q).

Definition eval_weighted_scale (metric : string) (value train_data
  weight : tensor fl) : result fl :=
  scale <- _get_metric_scale metric train_data ;;
  wv <- tmap2 fl_mul weight value ;;
  q <- tmap2 fl_div wv scale ;;
  ret (item (sum_all q) []).

(** *** Windows and keyword arguments *)

(** A window is the dictionary the backtest routine builds; a value is an
    integer (the boundaries [t0], [t1], [t2]), a tensor (a metric) or a
    number (a weighted scaled metric). *)
Inductive wval : Type :=
| VInt (z : Z)
| VTensor (t : tensor fl)
| VFloat (x : fl).

Definition window : Type := list (string * wval).

Fixpoint dict_get (d : window) (k : string) : result wval :=
  match d with
  | [] => raise KeyError
  | (k', v) :: d' => if String.eqb k k' then ret v else dict_get d' k
  end.

Fixpoint dict_set (d : window) (k : string) (v : wval) : window :=
  match d with
  | [] => [(k, v)]
  | (k', v') :: d' =>
      if String.eqb k k' then (k, v) :: d' else (k', v') :: dict_set d' k v
  end.

Definition get_int (d : window) (k : string) : result Z :=
  v <- dict_get d k ;;
  match v with VInt z => ret z | _ => raise TypeError end.

Definition get_tensor (d : window) (k : string) : result (tensor fl) :=
  v <- dict_get d k ;;
  match v with VTensor t => ret t | _ => raise TypeError end.

Record kwargs : Type := mkKw {
  kw_metrics : option (list (string * metric_fn));
  kw_min_train_window : option Z
}.

Inductive logmsg : Type :=
| MinTrainWindowSet (n : Z).

Definition shape_eqb (a b : list nat) : bool :=
  if list_eq_dec Nat.eq_dec a b then true else false.

(** [(data.sum(-1).cumsum(-1) == 0).sum(-1).max().cpu().item() + 2]. *)
Definition required_train_window (data : tensor fl) : result Z :=
  m <- max_all
         (reduce_last Z.add 0%Z false
            (tmap (fun x => Z.b2z (fl_eqb x (Fin 0)))
               (cumsum_last (sum_last false data)))) ;;
  ret (m + 2)%Z.

(** [weight / weight.reshape((-1, data.shape[-2])).sum(0)]. *)
Definition normalize_weight (data weight : tensor fl)
  : result (tensor fl) :=
  duration <- shape_m2 (shape data) ;;
  w2 <- reshape [(-1)%Z; Z.of_nat duration] weight ;;
  total <- sum0 w2 ;;
  tmap2 fl_div weight total.

Section Backtest.

Variable crps_empirical : tensor fl -> tensor fl -> result (tensor fl).
Variable sample_quantile : list fl -> fl -> fl.
Variable quantiles : list R.

(** The backtest routine of the forecasting library, with the covariates,
    the model and the remaining options fixed: from the data and the keyword
    arguments it yields the windows, each with its boundaries and the value of
    every metric. *)
Variable backtest : tensor fl -> kwargs -> result (list window).

(** The body of the loop over the metric names. *)
Fixpoint ws_metrics (names : list string) (w : window)
  (train_data weight : tensor fl) : result window :=
  match names with
  | [] => ret w
  | metric :: rest =>
      value <- get_tensor w metric ;;
      x <- eval_weighted_scale metric value train_data weight ;;
      ws_metrics rest (dict_set w ("ws_" ++ metric) (VFloat x))
        train_data weight
  end.

(** The loop over the windows; [weight] is the variable the loop body
    reads and assigns. *)
Fixpoint ws_windows (names : list string) (data : tensor fl)
  (windows : list window) (weight : tensor fl) : result (list window) :=
  match windows with
  | [] => ret []
  | w :: rest =>
      t1 <- get_int w "t1" ;;
      train_data <- slice_m2_to t1 data ;;
      weight <- index0 (t1 - 1)%Z weight ;;
      w' <- ws_metrics names w train_data weight ;;
      rest' <- ws_windows names data rest weight ;;
      ret (w' :: rest')
  end.

(** The statements of [m5_backtest] before the call of [backtest]: the
    normalized weight, the keyword arguments passed on and the messages
    logged. *)
Definition m5_setup (data : tensor fl) (weight : option (tensor fl))
  (kw : kwargs) : result (tensor fl * kwargs * list logmsg) :=
  let weight :=
    match weight with
    | None => new_ones (removelast (shape data))
    | Some w => w
    end in
  if negb (shape_eqb (shape weight) (removelast (shape data)))
  then raise AssertionError
  else
    weight <- normalize_weight data weight ;;
    let metrics :=
      match kw_metrics kw with
      | None => DEFAULT_METRICS crps_empirical sample_quantile quantiles
      | Some m => m
      end in
    min_train_window <- required_train_window data ;;
    let requested :=
      match kw_min_train_window kw with None => 1%Z | Some n => n end in
    if (requested <? min_train_window)%Z
    then ret (weight, mkKw (Some metrics) (Some min_train_window),
              [MinTrainWindowSet min_train_window])
    else ret (weight, mkKw (Some metrics) (kw_min_train_window kw), []).

Definition m5_backtest (data : tensor fl) (weight : option (tensor fl))
  (kw : kwargs) : result (list window * list logmsg) :=
  s <- m5_setup data weight kw ;;
  let '(weight, kw', log) := s in
  windows <- backtest data kw' ;;
  let names :=
    match kw_metrics kw' with
    | None => []
    | Some m => map fst m
    end in
  windows' <- ws_windows names data windows weight ;;
  ret (windows', log).

End Backtest.

(* ================================================================= *)
(** ** model1.py: top-down disaggregation *)

(** The top-down step of [main] (submit branch): from the bottom-level
    sales [m5.get_aggregated_sales(m5.aggregation_levels[-1])] (one row per
    series) and the aggregate forecast [pred], the variables [proportion]
    and [prediction]. *)
Definition main_top_down (sales pred : tensor fl)
  : result (tensor fl * tensor fl) :=
  sales_last28 <- slice_last_cols 28 sales ;;
  proportion <- tmap2 fl_div (sum_last false sales_last28)
                  (sum_all sales_last28) ;;
  prediction <- ger proportion pred ;;
  ret (proportion, prediction).

(* ================================================================= *)
(** ** Specification-side formulas *)

(** The squared deviation of the ensemble mean from the truth at batch
    element [b], time [t] and channel [d], for [n] samples. *)
Definition sq_dev (n : nat) (pred truth : tensor fl) (b : list nat)
  (t d : nat) : fl :=
  let e := fl_sub (fmean n (fun s => item pred (s :: b ++ [t; d])))
             (item truth (b ++ [t; d])) in
  fl_mul e e.

(** The mean over [T] time steps and [D] channels. *)
Definition mean_td (T D : nat) (f : nat -> nat -> fl) : fl :=
  fl_div (fsum T (fun t => fsum D (fun d => f t d))) (fl_of_nat (T * D)).

(** Root-mean-square error of the ensemble mean, as the specification
    words it. *)
Definition rmse_spec (n T D : nat) (pred truth : tensor fl) (b : list nat)
  : fl :=
  fl_sqrt (mean_td T D (sq_dev n pred truth b)).

(** The pinball term of a signed error [e] at level [q]: the error weighted
    by [-q] where it is at most 0 and by [1 - q] otherwise. *)
Definition pinball_term (q : R) (e : fl) : fl :=
  fl_mul (if fl_leb e (Fin 0) then Fin (- q)%R else Fin (1 - q)%R) e.

(** Pinball loss over the levels [us], as the specification words it: the
    mean over time and channels of the mean over the levels of the pinball
    term of (empirical quantile of the ensemble - truth). *)
Definition pl_spec (sample_quantile : list fl -> fl -> fl) (us : list R)
  (T D : nat) (pred truth : tensor fl) (b : list nat) : fl :=
  mean_td T D (fun t d =>
    fmean (length us) (fun i =>
      pinball_term (nth i us 0%R)
        (fl_sub (sample_quantile (samples pred (b ++ [t; d]))
                   (Fin (nth i us 0%R)))
                (item truth (b ++ [t; d]))))).

(** Modelled from the spec: the quantile levels the specification lists for
    the pinball loss.  The constant the code reads, [M5Data.quantiles], is
    defined in [util.py], which is not among the sources. *)
Definition listed_quantiles : list R :=
  [0.005; 0.165; 0.25; 0.5; 0.75; 0.835; 0.975; 0.995]%R.

(** The sum of the real-valued sales [s i j] of [N] series over the last
    [min 28 L] of [L] periods: per series, and in total. *)
Definition sales_last28_sum (L : nat) (s : nat -> nat -> R) (i : nat) : R :=
  rsum (Nat.min 28 L) (fun j => s i (j + (L - Nat.min 28 L))).

Definition sales_grand_total (N L : nat) (s : nat -> nat -> R) : R :=
  rsum N (sales_last28_sum L s).

(** The weight vector multiplied element-wise by the constant [c]. *)
Definition tscale (c : R) (w : tensor fl) : tensor fl :=
  tmap (fl_mul (Fin c)) w.

(** *** The scale, series by series

    [x] is the training tensor, [b] a batch element, [T] the duration and
    [D] the number of channels. *)

(** The response summed over the channels, and its cumulative sum. *)
Definition chan_sum (x : tensor fl) (D : nat) (b : list nat) (t : nat) : fl :=
  fsum D (fun d => item x (b ++ [t; d])).

Definition cum_sum (x : tensor fl) (D : nat) (b : list nat) (t : nat) : fl :=
  fsum (S t) (chan_sum x D b).

(** The number of time steps at which the cumulative sum is non-zero. *)
Definition active_count (x : tensor fl) (T D : nat) (b : list nat) : Z :=
  zsum T (fun t => Z.b2z (negb (fl_eqb (cum_sum x D b t) (Fin 0)))).

(** The number of time steps at which the cumulative sum is zero. *)
Definition zero_count (x : tensor fl) (T D : nat) (b : list nat) : Z :=
  zsum T (fun t => Z.b2z (fl_eqb (cum_sum x D b t) (Fin 0))).

(** The lag-1 difference, with a zero step in front of the window. *)
Definition lag1_at (x : tensor fl) (b : list nat) (t d : nat) : fl :=
  fl_sub (item x (b ++ [t; d]))
    (match t with
     | O => Fin 0
     | S k => item x (b ++ [k; d])
     end).

(** The scale of the specification for a series whose first active step is
    [start] and whose active time is [active]:
    ((sum over time of |lag-1 difference|^p - |value at start|^p, averaged
    over channels) / (active - 1))^(1/p). *)
Definition scale_at (p : nat) (x : tensor fl) (T D : nat) (b : list nat)
  (start : nat) (active : Z) : fl :=
  fl_pow_recip p
    (fl_div
       (fmean D (fun d =>
          fl_sub (fsum T (fun t => fl_pow (fl_abs (lag1_at x b t d)) p))
                 (fl_pow (fl_abs (item x (b ++ [start; d]))) p)))
       (fl_of_Z (active - 1))).

(** [s] is the first time step of series [b] at which the cumulative summed
    response is non-zero. *)
Definition first_active (x : tensor fl) (D : nat) (b : list nat) (s : nat)
  : Prop :=
  fl_eqb (cum_sum x D b s) (Fin 0) = false
  /\ forall t, t < s -> fl_eqb (cum_sum x D b t) (Fin 0) = true.

(** From [s] to the end of the window the cumulative sum stays non-zero. *)
Definition stays_active (x : tensor fl) (T D : nat) (b : list nat) (s : nat)
  : Prop :=
  forall t, s <= t -> t < T -> fl_eqb (cum_sum x D b t) (Fin 0) = false.

(** A univariate series without batch axes (shape [[length l; 1]]) holding
    the real values [l]; used for the worked examples. *)
Definition series (l : list R) : tensor fl :=
  mkT [length l; 1] (fun idx => Fin (nth (hd 0 idx) l 0%R)).

(** Whether the response of series [b] at step [t] is zero in every
    channel. *)
Definition zero_step (x : tensor fl) (D : nat) (b : list nat) (t : nat)
  : bool :=
  forallb (fun d => fl_eqb (item x (b ++ [t; d])) (Fin 0)) (seq 0 D).

(** The length of the leading run of steps [t < n] at which [f] holds. *)
Fixpoint leading_run (f : nat -> bool) (n : nat) : nat :=
  match n with
  | O => 0
  | S k =>
      let r := leading_run f k in
      if Nat.eqb r k && f k then S k else r
  end.

(** The length of the leading run of all-zero steps of series [b]. *)
Definition leading_zeros (x : tensor fl) (T D : nat) (b : list nat) : nat :=
  leading_run (zero_step x D b) T.

(** The metric names the loop of [m5_backtest] runs over. *)
Definition metric_names (kw : kwargs) : list string :=
  match kw_metrics kw with
  | None => []
  | Some m => map fst m
  end.

(** A window as the backtest routine yields it for the worked examples:
    the boundary [t1] and a 0-dim value of 1 for each default metric. *)
Definition example_window (t1 : Z) : window :=
  [("t1"%string, VInt t1);
   ("mae"%string, VTensor (mkT [] (fun _ => Fin 1)));
   ("rmse"%string, VTensor (mkT [] (fun _ => Fin 1)));
   ("crps"%string, VTensor (mkT [] (fun _ => Fin 1)));
   ("pl"%string, VTensor (mkT [] (fun _ => Fin 1)))].

(** Mean absolute error of the ensemble median, per batch element. *)
Definition mae_spec (T D : nat) (pred truth : tensor fl) (b : list nat)
  : fl :=
  mean_td T D (fun t d =>
    fl_abs (fl_sub (lower_median (samples pred (b ++ [t; d])))
              (item truth (b ++ [t; d])))).

(** [t.unsqueeze(1)] and [t.unsqueeze(-1)]. *)
Definition unsqueeze1 {A : Type} (t : tensor A) : result (tensor A) :=
  match shape t with
  | [] => raise DimError
  | n :: rest =>
      ret (mkT (n :: 1 :: rest)
             (fun idx =>
                match idx with
                | i :: _ :: r => item t (i :: r)
                | _ => item t idx
                end))
  end.

Definition unsqueeze_last {A : Type} (t : tensor A) : tensor A :=
  mkT (shape t ++ [1]) (fun idx => item t (removelast idx)).

(** The rates of the uncertainty forecast in [main] (submit branch):
    [samples.unsqueeze(1) * proportion.unsqueeze(-1)], before the Poisson
    draw. *)
Definition main_rates (samples proportion : tensor fl)
  : result (tensor fl) :=
  s1 <- unsqueeze1 samples ;;
  tmap2 fl_mul s1 (unsqueeze_last proportion).

(** The deterministic part of the submit branch of [main]: from the
    bottom-level sales and the forecast samples of the aggregate, the point
    forecast [prediction] and the rates [non_agg_samples]. *)
Definition main_submit (sales samples : tensor fl)
  : result (tensor fl * tensor fl) :=
  pred <- mean0 samples ;;
  pp <- main_top_down sales pred ;;
  non_agg_samples <- main_rates samples (fst pp) ;;
  ret (snd pp, non_agg_samples).

(** *** Reordering the ensemble

    [pred[perm]] for an index vector [perm] over the sample axis: member
    [s] of the result is member [sigma s] of [t]. *)
Definition permute0 {A : Type} (sigma : nat -> nat) (t : tensor A)
  : tensor A :=
  mkT (shape t) (fun idx =>
    match idx with
    | [] => item t []
    | s :: r => item t (sigma s :: r)
    end).

(** The sum of a list of values, from the right. *)
Definition lsum (l : list fl) : fl := fold_right fl_add (Fin 0) l.

(* ================================================================= *)
(** ** Arithmetic of [fl] *)

Lemma fl_add_comm (x y : fl) : fl_add x y = fl_add y x.
Proof.
  destruct x, y; simpl; try reflexivity.
  f_equal; lra.
Qed.

Lemma fl_add_assoc (x y z : fl) :
  fl_add x (fl_add y z) = fl_add (fl_add x y) z.
Proof.
  destruct x, y, z; simpl; try reflexivity.
  f_equal; lra.
Qed.

Lemma fl_add_0_l (x : fl) : fl_add (Fin 0) x = x.
Proof.
  destruct x; simpl; try reflexivity.
  f_equal; lra.
Qed.

Lemma fl_add_0_r (x : fl) : fl_add x (Fin 0) = x.
Proof. rewrite fl_add_comm. apply fl_add_0_l. Qed.

Lemma bigsum_ext {A : Type} (add : A -> A -> A) (zero : A) (n : nat)
  (f g : nat -> A) :
  (forall k, k < n -> f k = g k) ->
  bigsum add zero n f = bigsum add zero n g.
Proof.
  induction n as [|n IH]; intros H; simpl; [reflexivity|].
  rewrite IH by (intros; apply H; lia).
  rewrite H by lia. reflexivity.
Qed.

Lemma fsum_ext (n : nat) (f g : nat -> fl) :
  (forall k, k < n -> f k = g k) -> fsum n f = fsum n g.
Proof. apply bigsum_ext. Qed.

Lemma fsum_S (n : nat) (f : nat -> fl) :
  fsum (S n) f = fl_add (fsum n f) (f n).
Proof. reflexivity. Qed.

Lemma fsum_zero (n : nat) : fsum n (fun _ => Fin 0) = Fin 0.
Proof.
  induction n as [|n IH]; [reflexivity|].
  rewrite fsum_S, IH. apply fl_add_0_l.
Qed.

(** A sum over [a + b] terms splits into the first [a] and the last [b]. *)
Lemma fsum_app (a b : nat) (f : nat -> fl) :
  fsum (a + b) f = fl_add (fsum a f) (fsum b (fun k => f (a + k))).
Proof.
  induction b as [|b IH].
  - rewrite Nat.add_0_r. simpl. symmetry. apply fl_add_0_r.
  - rewrite Nat.add_succ_r, !fsum_S, IH, fl_add_assoc. reflexivity.
Qed.

(** Summing a row-major flattened [T x D] block is summing rows of sums. *)
Lemma fsum_flatten (T D : nat) (f : nat -> nat -> fl) :
  fsum (T * D) (fun k => f (k / D) (k mod D))
  = fsum T (fun t => fsum D (fun d => f t d)).
Proof.
  destruct (Nat.eq_dec D 0) as [->|HD].
  - rewrite Nat.mul_0_r. simpl.
    symmetry. rewrite <- (fsum_zero T) at 1. reflexivity.
  - induction T as [|T IH]; [reflexivity|].
    replace (S T * D) with (T * D + D) by lia.
    rewrite fsum_app, IH, fsum_S. f_equal.
    apply fsum_ext. intros k Hk.
    replace (T * D + k) with (k + T * D) by lia.
    rewrite Nat.div_add by exact HD.
    rewrite Nat.Div0.mod_add.
    rewrite Nat.div_small, Nat.mod_small by exact Hk.
    reflexivity.
Qed.

(* ================================================================= *)
(** ** Shapes and indices *)

Lemma valid_length (sh idx : list nat) :
  valid sh idx -> length idx = length sh.
Proof. apply Forall2_length. Qed.

Lemma valid_app (s1 s2 i1 i2 : list nat) :
  valid s1 i1 -> valid s2 i2 -> valid (s1 ++ s2) (i1 ++ i2).
Proof. apply Forall2_app. Qed.

Lemma valid_td (bs b : list nat) (T D t d : nat) :
  valid bs b -> t < T -> d < D -> valid (bs ++ [T; D]) (b ++ [t; d]).
Proof.
  intros Hb Ht Hd. apply valid_app; [exact Hb|].
  repeat constructor; assumption.
Qed.

Lemma valid_numel (sh idx : list nat) : valid sh idx -> numel sh <> 0.
Proof.
  induction 1 as [|i n idx sh Hi _ IH]; simpl; [lia|].
  apply Nat.neq_mul_0. split; [lia | exact IH].
Qed.

Lemma numel_app (a b : list nat) : numel (a ++ b) = numel a * numel b.
Proof.
  induction a as [|x a IH]; simpl; [lia|].
  rewrite IH. lia.
Qed.

Lemma ravel_lt (sh idx : list nat) : valid sh idx -> ravel sh idx < numel sh.
Proof.
  induction 1 as [|i n idx sh Hi _ IH]; simpl; [lia|].
  nia.
Qed.

Lemma init2_app2 {A : Type} (l : list A) (x y : A) :
  removelast (removelast (l ++ [x; y])) = l.
Proof.
  replace (l ++ [x; y]) with ((l ++ [x]) ++ [y])
    by (rewrite <- app_assoc; reflexivity).
  rewrite !removelast_last. reflexivity.
Qed.

Lemma removelast_app2 {A : Type} (l : list A) (x y : A) :
  removelast (l ++ [x; y]) = l ++ [x].
Proof.
  replace (l ++ [x; y]) with ((l ++ [x]) ++ [y])
    by (rewrite <- app_assoc; reflexivity).
  apply removelast_last.
Qed.

Lemma last_app2 {A : Type} (l : list A) (x y d : A) :
  last (l ++ [x; y]) d = y.
Proof.
  replace (l ++ [x; y]) with ((l ++ [x]) ++ [y])
    by (rewrite <- app_assoc; reflexivity).
  apply last_last.
Qed.

Lemma length_app2 {A : Type} (l : list A) (x y : A) :
  length (l ++ [x; y]) = S (S (length l)).
Proof. rewrite length_app. simpl. lia. Qed.

Lemma rank2_ltb {A : Type} (l : list A) (x y : A) :
  (length (l ++ [x; y]) <? 2) = false.
Proof. rewrite length_app2. reflexivity. Qed.

(** *** Broadcasting of equal shapes *)

Lemma bcast_rev_refl (s : list nat) : bcast_rev s s = Some s.
Proof.
  induction s as [|x s IH]; [reflexivity|].
  simpl. rewrite Nat.eqb_refl, IH. reflexivity.
Qed.

Lemma broadcast_shapes_refl (s : list nat) : broadcast_shapes s s = Some s.
Proof.
  unfold broadcast_shapes. rewrite bcast_rev_refl. simpl.
  rewrite rev_involutive. reflexivity.
Qed.

Lemma bmap_valid (s idx : list nat) :
  valid s idx ->
  map (fun p => if Nat.eqb (fst p) 1 then 0 else snd p) (combine s idx)
  = idx.
Proof.
  induction 1 as [|i n idx s Hi _ IH]; [reflexivity|].
  simpl. rewrite IH. f_equal.
  destruct (Nat.eqb_spec n 1); lia.
Qed.

Lemma bidx_valid (s idx : list nat) : valid s idx -> bidx s idx = idx.
Proof.
  intros H. unfold bidx.
  rewrite (valid_length _ _ H), Nat.sub_diag.
  apply bmap_valid. exact H.
Qed.

(** *** Flattening the last two axes *)

Lemma infer_shape_flatten (bs : list nat) (m : nat) :
  numel bs <> 0 ->
  infer_shape (map Z.of_nat bs ++ [(-1)%Z]) (numel bs * m)
  = Some (bs ++ [m]).
Proof.
  intros Hbs. unfold infer_shape.
  assert (Hex : existsb (fun z => (z <? -1)%Z)
                  (map Z.of_nat bs ++ [(-1)%Z]) = false).
  { rewrite existsb_app. simpl. rewrite orb_false_r.
    induction bs as [|x bs IH]; [reflexivity|].
    simpl. destruct (Z.ltb_spec (Z.of_nat x) (-1)); [lia|].
    apply IH. simpl in Hbs. lia. }
  rewrite Hex.
  assert (Hfil : filter (fun z => negb (z =? -1)%Z)
                   (map Z.of_nat bs ++ [(-1)%Z]) = map Z.of_nat bs).
  { rewrite filter_app. simpl. rewrite app_nil_r.
    clear. induction bs as [|x bs IH]; [reflexivity|].
    simpl. destruct (Z.eqb_spec (Z.of_nat x) (-1)); [lia|].
    simpl. rewrite IH. reflexivity. }
  rewrite Hfil.
  assert (Hcnt : count_occ Z.eq_dec (map Z.of_nat bs ++ [(-1)%Z]) (-1)%Z
                 = 1).
  { rewrite count_occ_app. simpl.
    replace (count_occ Z.eq_dec (map Z.of_nat bs) (-1)%Z) with 0;
      [reflexivity|].
    symmetry. apply count_occ_not_In. rewrite in_map_iff.
    intros [x [Hx _]]. lia. }
  rewrite Hcnt.
  assert (Hmap : map Z.to_nat (map Z.of_nat bs) = bs).
  { rewrite map_map. rewrite <- (map_id bs) at 2.
    apply map_ext. intros. apply Nat2Z.id. }
  rewrite Hmap.
  destruct (Nat.eqb_spec (numel bs) 0); [contradiction|].
  rewrite Nat.mul_comm, Nat.Div0.mod_mul. simpl.
  f_equal. rewrite map_app, map_map. simpl.
  rewrite Nat.div_mul by exact Hbs.
  f_equal. rewrite <- (map_id bs) at 2.
  apply map_ext_in. intros x Hx.
  destruct (Z.eqb_spec (Z.of_nat x) (-1)); [lia|]. apply Nat2Z.id.
Qed.

Lemma unravel_flatten (bs b : list nat) (T D k : nat) :
  valid bs b -> k < T * D ->
  unravel (bs ++ [T; D]) (ravel (bs ++ [T * D]) (b ++ [k]))
  = b ++ [k / D; k mod D].
Proof.
  intros Hb Hk. induction Hb as [|i n b bs Hi Hb IH].
  - cbn [app ravel unravel numel fold_right].
    rewrite !Nat.mul_1_r, Nat.add_0_r, Nat.div_1_r. reflexivity.
  - cbn [app ravel unravel]. fold (numel (bs ++ [T * D])).
    assert (Hn : numel (bs ++ [T; D]) = numel (bs ++ [T * D])).
    { rewrite !numel_app. simpl. lia. }
    assert (Hr : ravel (bs ++ [T * D]) (b ++ [k]) < numel (bs ++ [T * D])).
    { apply ravel_lt. apply valid_app; [exact Hb|].
      repeat constructor. exact Hk. }
    rewrite Hn.
    assert (Hpos : numel (bs ++ [T * D]) <> 0) by lia.
    rewrite Nat.add_comm, Nat.div_add by exact Hpos.
    rewrite Nat.Div0.mod_add.
    rewrite Nat.div_small, Nat.mod_small by exact Hr.
    rewrite Nat.add_0_l. f_equal. exact IH.
Qed.

Lemma mean_last_snoc (t : tensor fl) (l : list nat) (m : nat) :
  shape t = l ++ [m] ->
  mean_last t
  = mkT l (fun idx => fmean m (fun k => item t (idx ++ [k]))).
Proof.
  intros H. unfold mean_last, dimm1. rewrite H.
  rewrite removelast_last, last_last.
  destruct (l ++ [m]) eqn:E; [|reflexivity].
  destruct l; discriminate.
Qed.

Lemma numel_td (bs : list nat) (T D : nat) :
  numel (bs ++ [T; D]) = numel bs * (T * D).
Proof. rewrite numel_app. simpl. lia. Qed.

(** The tail shared by the metrics: [x.reshape(truth.shape[:-2] + (-1,))
    .mean(-1)] is, per batch element, the mean over time and channels. *)
Lemma flatten_mean (x truth : tensor fl) (bs b : list nat) (T D : nat) :
  shape x = bs ++ [T; D] ->
  init2 (shape truth) = bs ->
  valid bs b ->
  exists flat,
    reshape (flatten_target truth) x = inr flat
    /\ shape (mean_last flat) = bs
    /\ item (mean_last flat) b
       = mean_td T D (fun t d => item x (b ++ [t; d])).
Proof.
  intros Hx Ht Hb.
  unfold reshape, flatten_target. rewrite Ht, Hx, numel_td.
  rewrite infer_shape_flatten by (eapply valid_numel; exact Hb).
  eexists. split; [reflexivity|].
  rewrite (mean_last_snoc _ bs (T * D)) by reflexivity.
  split; [reflexivity|].
  cbn [item]. unfold mean_td, fmean. f_equal.
  rewrite <- fsum_flatten. apply fsum_ext. intros k Hk.
  rewrite unravel_flatten by assumption. reflexivity.
Qed.

Lemma tmap2_same_shape {A B C : Type} (f : A -> B -> C) (a : tensor A)
  (b : tensor B) (s : list nat) :
  shape a = s -> shape b = s ->
  exists r,
    tmap2 f a b = inr r /\ shape r = s
    /\ forall idx, valid s idx -> item r idx = f (item a idx) (item b idx).
Proof.
  intros Ha Hb. unfold tmap2. rewrite Ha, Hb, broadcast_shapes_refl.
  eexists. split; [reflexivity|]. split; [reflexivity|].
  intros idx Hv. cbn [item]. rewrite bidx_valid by exact Hv. reflexivity.
Qed.

(* ================================================================= *)
(** ** RMSE *)

Lemma eval_rmse_item (pred truth : tensor fl) (n T D : nat)
  (bs b : list nat) :
  shape pred = n :: bs ++ [T; D] ->
  shape truth = bs ++ [T; D] ->
  valid bs b ->
  exists r,
    eval_rmse pred truth = inr r
    /\ shape r = bs
    /\ item r b = rmse_spec n T D pred truth b.
Proof.
  intros Hp Ht Hb. unfold eval_rmse, mean0. rewrite Hp. cbn [bind ret].
  set (m := mkT (bs ++ [T; D]) _).
  destruct (tmap2_same_shape fl_sub m truth (bs ++ [T; D]) eq_refl Ht)
    as (err & -> & Hes & Hei).
  cbn [bind].
  destruct (tmap2_same_shape fl_mul err err (bs ++ [T; D]) Hes Hes)
    as (sq & -> & Hss & Hsi).
  cbn [bind].
  destruct (flatten_mean sq truth bs b T D Hss) as (flat & -> & Hfs & Hfi);
    [rewrite Ht; apply init2_app2 | exact Hb |].
  cbn [bind]. eexists. split; [reflexivity|].
  split; [exact Hfs|].
  cbn [tmap item]. rewrite Hfi. unfold rmse_spec, mean_td. do 2 f_equal.
  apply fsum_ext. intros t Htt. apply fsum_ext. intros d Hd.
  assert (Hv : valid (bs ++ [T; D]) (b ++ [t; d]))
    by (apply valid_td; assumption).
  rewrite Hsi, Hei by exact Hv. reflexivity.
Qed.

(** C7.  For a prediction ensemble of shape [n :: bs ++ [T; D]] and a truth
    tensor of shape [bs ++ [T; D]], [eval_rmse] returns a tensor with one
    value per batch element, and at every batch element [b] that value is
    the square root of the mean over time and channels of the squared
    deviation of the mean across samples from the truth. *)
Theorem eval_rmse_spec (pred truth : tensor fl) (n T D : nat)
  (bs b : list nat) :
  shape pred = n :: bs ++ [T; D] ->
  shape truth = bs ++ [T; D] ->
  valid bs b ->
  exists r,
    eval_rmse pred truth = inr r
    /\ shape r = bs
    /\ item r b = rmse_spec n T D pred truth b.
Proof. apply eval_rmse_item. Qed.

(** An instance: two samples of a single series with one step and one
    channel. *)
Lemma eval_rmse_spec_witness :
  exists r,
    eval_rmse (mkT [2; 1; 1] (fun _ => Fin 3)) (mkT [1; 1] (fun _ => Fin 1))
    = inr r
    /\ shape r = []
    /\ item r [] = rmse_spec 2 1 1 (mkT [2; 1; 1] (fun _ => Fin 3))
                     (mkT [1; 1] (fun _ => Fin 1)) [].
Proof.
  apply (eval_rmse_spec _ _ 2 1 1 [] []); [reflexivity | reflexivity |].
  constructor.
Defined.

(* ================================================================= *)
(** ** Pinball loss *)

Lemma bcast_rev_snoc_one (r : list nat) (q : nat) :
  bcast_rev (r ++ [q]) (r ++ [1]) = Some (r ++ [q]).
Proof.
  induction r as [|x r IH]; simpl.
  - destruct (Nat.eqb_spec q 1) as [->|]; reflexivity.
  - rewrite Nat.eqb_refl, IH. reflexivity.
Qed.

Lemma broadcast_shapes_lead_one (q : nat) (s : list nat) :
  broadcast_shapes (q :: s) (1 :: s) = Some (q :: s).
Proof.
  unfold broadcast_shapes. simpl. rewrite bcast_rev_snoc_one. simpl.
  rewrite rev_app_distr, rev_involutive. reflexivity.
Qed.

Lemma bidx_lead_one (s idx : list nat) (i : nat) :
  valid s idx -> bidx (1 :: s) (i :: idx) = 0 :: idx.
Proof.
  intros H. unfold bidx. cbn [length].
  rewrite (valid_length _ _ H), Nat.sub_diag.
  cbn [skipn combine map fst snd Nat.eqb]. f_equal.
  apply bmap_valid. exact H.
Qed.

Lemma numel_ones (k : nat) : numel (repeat 1 k) = 1.
Proof. induction k as [|k IH]; simpl; [reflexivity | rewrite IH; reflexivity]. Qed.

Lemma infer_shape_column (k n : nat) :
  infer_shape ((-1)%Z :: repeat 1%Z k) n = Some (n :: repeat 1 k).
Proof.
  unfold infer_shape.
  assert (H1 : existsb (fun z => (z <? -1)%Z) ((-1)%Z :: repeat 1%Z k)
               = false).
  { simpl. induction k as [|k IH]; [reflexivity | exact IH]. }
  assert (H2 : filter (fun z => negb (z =? -1)%Z) ((-1)%Z :: repeat 1%Z k)
               = repeat 1%Z k).
  { clear. simpl. induction k as [|k IH]; [reflexivity|].
    simpl. rewrite IH. reflexivity. }
  assert (H3 : count_occ Z.eq_dec ((-1)%Z :: repeat 1%Z k) (-1)%Z = 1).
  { clear. rewrite count_occ_cons_eq by reflexivity. f_equal.
    induction k as [|k IH]; [reflexivity|].
    simpl. destruct (Z.eq_dec 1 (-1)); [discriminate | exact IH]. }
  assert (H4 : map Z.to_nat (repeat 1%Z k) = repeat 1 k).
  { clear. induction k as [|k IH]; [reflexivity|].
    simpl. rewrite IH. reflexivity. }
  assert (H5 : map (fun z => if (z =? -1)%Z then n / 1 else Z.to_nat z)
                 (repeat 1%Z k) = repeat 1 k).
  { clear. induction k as [|k IH]; [reflexivity|].
    cbn [repeat map]. f_equal. exact IH. }
  rewrite H1, H2, H3, H4, numel_ones.
  cbn [Nat.eqb]. rewrite Nat.mod_1_r. cbn [Nat.eqb map Z.eqb].
  rewrite H5, Nat.div_1_r. reflexivity.
Qed.

Lemma expandable_rev_snoc (a b : list nat) (q : nat) :
  length a = length b -> Forall (eq 1) a ->
  expandable_rev (a ++ [q]) (b ++ [q]) = true.
Proof.
  revert b. induction a as [|x a IH]; intros [|y b] Hl Ha;
    try discriminate; simpl.
  - rewrite Nat.eqb_refl. reflexivity.
  - inversion Ha as [|? ? <- Ha']; subst.
    rewrite orb_true_r. apply IH; [simpl in Hl; lia | exact Ha'].
Qed.

Lemma expandable_column (q : nat) (s : list nat) :
  expandable_rev (rev (q :: repeat 1 (length s))) (rev (q :: s)) = true.
Proof.
  simpl. apply expandable_rev_snoc.
  - rewrite !length_rev, repeat_length. reflexivity.
  - apply Forall_rev. apply Forall_forall. intros x Hx.
    symmetry. eapply repeat_spec. exact Hx.
Qed.

Lemma bmap_ones (idx : list nat) :
  map (fun p => if Nat.eqb (fst p) 1 then 0 else snd p)
      (combine (repeat 1 (length idx)) idx)
  = repeat 0 (length idx).
Proof. induction idx as [|i idx IH]; simpl; [reflexivity | rewrite IH; reflexivity]. Qed.

Lemma ravel_zeros (k : nat) : ravel (repeat 1 k) (repeat 0 k) = 0.
Proof. induction k as [|k IH]; simpl; [reflexivity | exact IH]. Qed.

(** Reading the expanded column of levels at a valid index gives the level
    of the leading component. *)
Lemma column_item (us : tensor fl) (q i : nat) (s idx : list nat) :
  shape us = [q] -> i < q -> valid s idx ->
  item us
    (unravel (shape us)
       (ravel (q :: repeat 1 (length s))
          (bidx (q :: repeat 1 (length s)) (i :: idx))))
  = item us [i].
Proof.
  intros Hs Hi Hv. unfold bidx. cbn [length].
  rewrite repeat_length, (valid_length _ _ Hv), Nat.sub_diag.
  cbn [skipn combine map fst snd].
  rewrite <- (valid_length _ _ Hv), bmap_ones.
  replace (if Nat.eqb q 1 then 0 else i) with i
    by (destruct (Nat.eqb_spec q 1); lia).
  cbn [ravel]. rewrite numel_ones, ravel_zeros, Hs.
  cbn [unravel numel fold_right].
  rewrite Nat.mul_1_r, Nat.add_0_r, Nat.div_1_r. reflexivity.
Qed.

Lemma twhere_same_shape {A : Type} (c : tensor bool) (a b : tensor A)
  (s : list nat) :
  shape c = s -> shape a = s -> shape b = s ->
  exists r,
    twhere c a b = inr r /\ shape r = s
    /\ forall idx, valid s idx ->
         item r idx = if item c idx then item a idx else item b idx.
Proof.
  intros Hc Ha Hb. unfold twhere.
  rewrite Hc, Ha, Hb, !broadcast_shapes_refl.
  eexists. split; [reflexivity|]. split; [reflexivity|].
  intros idx Hv. cbn [item]. rewrite bidx_valid by exact Hv. reflexivity.
Qed.

Lemma nth_map_Fin (us : list R) (i : nat) :
  i < length us -> nth i (map Fin us) NaN = Fin (nth i us 0%R).
Proof.
  intros Hi. rewrite (nth_indep _ NaN (Fin 0%R)) by (rewrite length_map; exact Hi).
  apply map_nth.
Qed.

Lemma tmap2_lead_one {A B C : Type} (f : A -> B -> C) (a : tensor A)
  (b : tensor B) (q : nat) (s : list nat) :
  shape a = q :: s -> shape b = 1 :: s ->
  exists r,
    tmap2 f a b = inr r /\ shape r = q :: s
    /\ forall i idx, i < q -> valid s idx ->
         item r (i :: idx) = f (item a (i :: idx)) (item b (0 :: idx)).
Proof.
  intros Ha Hb. unfold tmap2. rewrite Ha, Hb, broadcast_shapes_lead_one.
  eexists. split; [reflexivity|]. split; [reflexivity|].
  intros i idx Hi Hv. cbn [item].
  rewrite bidx_lead_one by exact Hv.
  rewrite bidx_valid by (constructor; assumption). reflexivity.
Qed.

(** [us.reshape((-1,) + (1,) * k).expand(q :: s)] for a vector of [q]
    levels and [k = length s]. *)
Lemma levels_expand (us : tensor fl) (q : nat) (s : list nat) :
  shape us = [q] ->
  exists us1 us2,
    reshape ((-1)%Z :: repeat 1%Z (length s)) us = inr us1
    /\ expand (q :: s) us1 = inr us2
    /\ shape us2 = q :: s
    /\ forall i idx, i < q -> valid s idx ->
         item us2 (i :: idx) = item us [i].
Proof.
  intros Hs. unfold reshape. rewrite infer_shape_column.
  eexists. eexists. split; [reflexivity|].
  unfold expand. cbn [shape]. rewrite Hs.
  cbn [numel fold_right]. rewrite Nat.mul_1_r, expandable_column.
  split; [reflexivity|]. split; [reflexivity|].
  intros i idx Hi Hv. cbn [item].
  rewrite <- Hs. apply column_item; assumption.
Qed.

Lemma eval_pl_item (sample_quantile : list fl -> fl -> fl)
  (us : list R) (pred truth : tensor fl) (n T D : nat) (bs b : list nat) :
  shape pred = S n :: bs ++ [T; D] ->
  shape truth = bs ++ [T; D] ->
  valid bs b ->
  exists r,
    eval_pl sample_quantile us pred truth = inr r
    /\ shape r = bs
    /\ item r b = pl_spec sample_quantile us T D pred truth b.
Proof.
  intros Hp Ht Hb. unfold eval_pl, quantile0. rewrite Hp. cbn [bind ret].
  set (s := bs ++ [T; D]) in *.
  set (us0 := tensor_of_list (map Fin us)).
  assert (Hus0 : shape us0 = [length us])
    by (unfold us0, tensor_of_list; cbn [shape]; rewrite length_map;
        reflexivity).
  rewrite Hus0. cbn [numel fold_right]. rewrite Nat.mul_1_r.
  set (pq := mkT (length us :: s) _).
  destruct (tmap2_lead_one fl_sub pq (unsqueeze0 truth) (length us) s
              eq_refl) as (err & -> & Hes & Hei);
    [unfold unsqueeze0; cbn [shape]; rewrite Ht; reflexivity|].
  cbn [bind].
  replace (rank pq - 1) with (length s)
    by (unfold rank, pq; cbn [shape length]; lia).
  destruct (levels_expand us0 (length us) s Hus0)
    as (us1 & us2 & -> & Hex & Hus2 & Hui).
  cbn [bind]. change (shape pq) with (length us :: s). rewrite Hex.
  cbn [bind].
  destruct (twhere_same_shape (tmap (fun e => fl_leb e (Fin 0)) err)
              (tmap fl_opp us2) (tmap (fl_sub (Fin 1)) us2)
              (length us :: s) Hes Hus2 Hus2) as (w & -> & Hws & Hwi).
  cbn [bind].
  destruct (tmap2_same_shape fl_mul w err (length us :: s) Hws Hes)
    as (we & -> & Hwes & Hwei).
  cbn [bind]. unfold mean0. rewrite Hwes. cbn [bind ret].
  set (m := mkT s _).
  destruct (flatten_mean m truth bs b T D eq_refl) as (flat & -> & Hfs & Hfi);
    [rewrite Ht; apply init2_app2 | exact Hb |].
  cbn [bind]. eexists. split; [reflexivity|].
  split; [exact Hfs|].
  rewrite Hfi. unfold pl_spec, mean_td. f_equal.
  apply fsum_ext. intros t Htt. apply fsum_ext. intros d Hd.
  assert (Hv : valid s (b ++ [t; d])) by (apply valid_td; assumption).
  unfold m. cbn [item]. unfold fmean. f_equal.
  apply fsum_ext. intros i Hi.
  assert (Hvi : valid (length us :: s) (i :: b ++ [t; d]))
    by (constructor; assumption).
  rewrite Hwei, Hwi by exact Hvi.
  cbn [tmap item]. rewrite (Hei i), (Hui i) by assumption.
  unfold pq, unsqueeze0, us0, tensor_of_list. cbn [item tl hd].
  rewrite nth_map_Fin by exact Hi.
  unfold pinball_term. cbv beta.
  match goal with
  | |- context [fl_leb ?e (Fin 0)] => destruct (fl_leb e (Fin 0))
  end; reflexivity.
Qed.

(** C2 (as amended).  For the list of levels [us] that [M5Data.quantiles]
    holds, a non-empty prediction ensemble of shape
    [S n :: bs ++ [T; D]] and a truth tensor of shape [bs ++ [T; D]],
    [eval_pl] returns one value per batch element: the mean over time and
    channels of the mean over the levels [q] of the signed error (empirical
    quantile [q] of the ensemble minus truth) weighted by [-q] where the
    error is at most 0 and by [1 - q] otherwise. *)
Theorem eval_pl_spec (sample_quantile : list fl -> fl -> fl)
  (us : list R) (pred truth : tensor fl) (n T D : nat) (bs b : list nat) :
  shape pred = S n :: bs ++ [T; D] ->
  shape truth = bs ++ [T; D] ->
  valid bs b ->
  exists r,
    eval_pl sample_quantile us pred truth = inr r
    /\ shape r = bs
    /\ item r b = pl_spec sample_quantile us T D pred truth b.
Proof. apply eval_pl_item. Qed.

(** An instance: one sample, one series, one step, one channel. *)
Lemma eval_pl_spec_witness :
  exists r,
    eval_pl (fun l _ => hd NaN l) [0.5%R]
      (mkT [1; 1; 1] (fun _ => Fin 3)) (mkT [1; 1] (fun _ => Fin 1))
    = inr r
    /\ shape r = []
    /\ item r [] = pl_spec (fun l _ => hd NaN l) [0.5%R] 1 1
                     (mkT [1; 1; 1] (fun _ => Fin 3))
                     (mkT [1; 1] (fun _ => Fin 1)) [].
Proof.
  apply (eval_pl_spec _ _ _ _ 0 1 1 [] []); [reflexivity | reflexivity |].
  constructor.
Defined.

(** C2, the counterexample: the levels the specification lists are eight,
    not the nine it announces. *)
Lemma listed_quantiles_not_nine :
  length listed_quantiles = 8 /\ length listed_quantiles <> 9.
Proof. split; [reflexivity | discriminate]. Qed.

(* ================================================================= *)
(** ** MAE, and the sign of the metrics *)

Lemma eval_mae_item (pred truth : tensor fl) (n T D : nat)
  (bs b : list nat) :
  shape pred = S n :: bs ++ [T; D] ->
  shape truth = bs ++ [T; D] ->
  valid bs b ->
  exists r,
    eval_mae pred truth = inr r
    /\ shape r = bs
    /\ item r b
       = mean_td T D (fun t d =>
           fl_abs (fl_sub (lower_median (samples pred (b ++ [t; d])))
                     (item truth (b ++ [t; d])))).
Proof.
  intros Hp Ht Hb. unfold eval_mae, median0. rewrite Hp. cbn [bind ret].
  set (m := mkT (bs ++ [T; D]) _).
  destruct (tmap2_same_shape fl_sub m truth (bs ++ [T; D]) eq_refl Ht)
    as (err & -> & Hes & Hei).
  cbn [bind].
  destruct (flatten_mean (tmap fl_abs err) truth bs b T D Hes)
    as (flat & -> & Hfs & Hfi);
    [rewrite Ht; apply init2_app2 | exact Hb |].
  cbn [bind]. eexists. split; [reflexivity|].
  split; [exact Hfs|].
  rewrite Hfi. unfold mean_td. f_equal.
  apply fsum_ext. intros t Htt. apply fsum_ext. intros d Hd.
  cbn [tmap item]. rewrite Hei by (apply valid_td; assumption).
  reflexivity.
Qed.

Lemma fl_nonneg_finite (x : fl) : fl_nonneg x -> fl_finite x.
Proof. intros (r & -> & _). exists r. reflexivity. Qed.

Lemma fl_nonneg_add (x y : fl) :
  fl_nonneg x -> fl_nonneg y -> fl_nonneg (fl_add x y).
Proof.
  intros (a & -> & Ha) (c & -> & Hc). exists (a + c)%R.
  split; [reflexivity | lra].
Qed.

Lemma fsum_nonneg (n : nat) (f : nat -> fl) :
  (forall k, k < n -> fl_nonneg (f k)) -> fl_nonneg (fsum n f).
Proof.
  induction n as [|n IH]; intros H.
  - exists 0%R. split; [reflexivity | lra].
  - rewrite fsum_S. apply fl_nonneg_add; [apply IH; intros; apply H; lia|].
    apply H. lia.
Qed.

Lemma fl_add_finite (x y : fl) :
  fl_finite x -> fl_finite y -> fl_finite (fl_add x y).
Proof. intros (a & ->) (c & ->). eexists. reflexivity. Qed.

Lemma fl_sub_finite (x y : fl) :
  fl_finite x -> fl_finite y -> fl_finite (fl_sub x y).
Proof. intros (a & ->) (c & ->). eexists. reflexivity. Qed.

Lemma fsum_finite (n : nat) (f : nat -> fl) :
  (forall k, k < n -> fl_finite (f k)) -> fl_finite (fsum n f).
Proof.
  induction n as [|n IH]; intros H.
  - exists 0%R. reflexivity.
  - rewrite fsum_S. apply fl_add_finite; [apply IH; intros; apply H; lia|].
    apply H. lia.
Qed.

Lemma fl_div_nat_finite (x : fl) (n : nat) :
  0 < n -> fl_finite x -> fl_finite (fl_div x (fl_of_nat n)).
Proof.
  intros Hn (a & ->). unfold fl_of_nat, fl_div.
  destruct (Req_dec_T (INR n) 0) as [E|_].
  - apply (not_0_INR n) in E; [contradiction | lia].
  - eexists. reflexivity.
Qed.

Lemma fl_div_nat_nonneg (x : fl) (n : nat) :
  0 < n -> fl_nonneg x -> fl_nonneg (fl_div x (fl_of_nat n)).
Proof.
  intros Hn (a & -> & Ha). unfold fl_of_nat, fl_div.
  destruct (Req_dec_T (INR n) 0) as [E|_].
  - apply (not_0_INR n) in E; [contradiction | lia].
  - eexists. split; [reflexivity|].
    apply Rmult_le_pos; [exact Ha|].
    left. apply Rinv_0_lt_compat. apply lt_0_INR. exact Hn.
Qed.

Lemma fmean_finite (n : nat) (f : nat -> fl) :
  0 < n -> (forall k, k < n -> fl_finite (f k)) -> fl_finite (fmean n f).
Proof.
  intros Hn H. apply fl_div_nat_finite; [exact Hn|].
  apply fsum_finite. exact H.
Qed.

Lemma fmean_nonneg (n : nat) (f : nat -> fl) :
  0 < n -> (forall k, k < n -> fl_nonneg (f k)) -> fl_nonneg (fmean n f).
Proof.
  intros Hn H. apply fl_div_nat_nonneg; [exact Hn|].
  apply fsum_nonneg. exact H.
Qed.

Lemma mean_td_nonneg (T D : nat) (f : nat -> nat -> fl) :
  0 < T -> 0 < D ->
  (forall t d, t < T -> d < D -> fl_nonneg (f t d)) ->
  fl_nonneg (mean_td T D f).
Proof.
  intros HT HD H. unfold mean_td.
  apply fl_div_nat_nonneg; [nia|].
  apply fsum_nonneg. intros t Ht. apply fsum_nonneg. intros d Hd.
  apply H; assumption.
Qed.

Lemma fl_abs_nonneg (x : fl) : fl_finite x -> fl_nonneg (fl_abs x).
Proof.
  intros (a & ->). exists (Rabs a). split; [reflexivity|].
  apply Rabs_pos.
Qed.

Lemma fl_square_nonneg (x : fl) : fl_finite x -> fl_nonneg (fl_mul x x).
Proof.
  intros (a & ->). exists (a * a)%R. split; [reflexivity|]. nra.
Qed.

Lemma fl_sqrt_nonneg (x : fl) : fl_nonneg x -> fl_nonneg (fl_sqrt x).
Proof.
  intros (a & -> & Ha). unfold fl_sqrt.
  destruct (Rlt_dec a 0) as [H|_]; [lra|].
  exists (sqrt a). split; [reflexivity | apply sqrt_pos].
Qed.

Lemma pinball_term_nonneg (q : R) (e : fl) :
  (0 <= q <= 1)%R -> fl_finite e -> fl_nonneg (pinball_term q e).
Proof.
  intros Hq (a & ->). unfold pinball_term, fl_leb.
  destruct (Rle_dec a 0) as [H|H]; cbn [fl_mul].
  - exists (- q * a)%R. split; [reflexivity | nra].
  - exists ((1 - q) * a)%R. split; [reflexivity | nra].
Qed.

(** *** The median of finite samples is one of them *)

Lemma fl_insert_In (x y : fl) (l : list fl) :
  In y (fl_insert x l) -> y = x \/ In y l.
Proof.
  induction l as [|z l IH]; simpl.
  - intros [<-|[]]. left. reflexivity.
  - destruct (fl_leb x z); simpl.
    + intros [<-|[<-|H]]; auto.
    + intros [<-|H]; auto. destruct (IH H); auto.
Qed.

Lemma fl_sort_In (y : fl) (l : list fl) : In y (fl_sort l) -> In y l.
Proof.
  induction l as [|x l IH]; simpl; [tauto|].
  intros H. apply fl_insert_In in H. destruct H as [->|H]; auto.
Qed.

Lemma fl_insert_length (x : fl) (l : list fl) :
  length (fl_insert x l) = S (length l).
Proof.
  induction l as [|z l IH]; simpl; [reflexivity|].
  destruct (fl_leb x z); simpl; [reflexivity | rewrite IH; reflexivity].
Qed.

Lemma fl_sort_length (l : list fl) : length (fl_sort l) = length l.
Proof.
  induction l as [|x l IH]; simpl; [reflexivity|].
  rewrite fl_insert_length, IH. reflexivity.
Qed.

Lemma lower_median_finite (l : list fl) :
  l <> [] -> Forall fl_finite l -> fl_finite (lower_median l).
Proof.
  intros Hne Hf. unfold lower_median.
  assert (Hn : existsb fl_is_nan l = false).
  { clear Hne. induction Hf as [|x l (r & ->) _ IH]; [reflexivity|].
    simpl. exact IH. }
  rewrite Hn.
  assert (Hlen : (length l - 1) / 2 < length (fl_sort l)).
  { rewrite fl_sort_length. destruct l as [|x l]; [contradiction|].
    simpl length. apply Nat.Div0.div_lt_upper_bound. lia. }
  rewrite Forall_forall in Hf. apply Hf.
  apply fl_sort_In. apply nth_In. exact Hlen.
Qed.

Lemma samples_finite (pred : tensor fl) (n : nat) (s idx : list nat) :
  shape pred = n :: s ->
  (forall i, valid (shape pred) i -> fl_finite (item pred i)) ->
  valid s idx ->
  Forall fl_finite (samples pred idx).
Proof.
  intros Hp Hf Hv. unfold samples. rewrite Hp. cbn [hd].
  apply Forall_forall. intros x Hx. apply in_map_iff in Hx.
  destruct Hx as (k & <- & Hk). apply in_seq in Hk.
  apply Hf. rewrite Hp. constructor; [lia | exact Hv].
Qed.

Lemma samples_nonempty (pred : tensor fl) (n : nat) (s idx : list nat) :
  shape pred = S n :: s -> samples pred idx <> [].
Proof. intros Hp. unfold samples. rewrite Hp. discriminate. Qed.

(** C10 (as amended).  For a non-empty ensemble and a truth of matching
    shape with at least one time step and one channel, all entries finite
    (and, for the pinball loss, a non-empty list of levels between 0 and 1
    whose empirical quantiles of finite samples are finite), the values of
    the MAE, RMSE and pinball-loss metrics are non-negative in every batch
    element. *)
Theorem metrics_nonneg (sample_quantile : list fl -> fl -> fl)
  (us : list R) (pred truth : tensor fl) (n T D : nat) (bs b : list nat) :
  (forall l q, l <> [] -> Forall fl_finite l ->
     fl_finite (sample_quantile l (Fin q))) ->
  us <> [] ->
  Forall (fun q => 0 <= q <= 1)%R us ->
  shape pred = S n :: bs ++ [T; D] ->
  shape truth = bs ++ [T; D] ->
  0 < T -> 0 < D ->
  (forall i, valid (shape pred) i -> fl_finite (item pred i)) ->
  (forall i, valid (shape truth) i -> fl_finite (item truth i)) ->
  valid bs b ->
  exists mae rmse pl,
    eval_mae pred truth = inr mae
    /\ eval_rmse pred truth = inr rmse
    /\ eval_pl sample_quantile us pred truth = inr pl
    /\ fl_nonneg (item mae b)
    /\ fl_nonneg (item rmse b)
    /\ fl_nonneg (item pl b).
Proof.
  intros Hq Hne Hus Hp Ht HT HD Hfp Hft Hb.
  destruct (eval_mae_item pred truth n T D bs b Hp Ht Hb)
    as (mae & Hmae & _ & Hmi).
  destruct (eval_rmse_item pred truth (S n) T D bs b Hp Ht Hb)
    as (rmse & Hrmse & _ & Hri).
  destruct (eval_pl_item sample_quantile us pred truth n T D bs b Hp Ht Hb)
    as (pl & Hpl & _ & Hpi).
  exists mae, rmse, pl.
  repeat split; try assumption.
  - rewrite Hmi. apply mean_td_nonneg; try assumption.
    intros t d Htt Hd. apply fl_abs_nonneg. apply fl_sub_finite.
    + apply lower_median_finite.
      * eapply samples_nonempty. exact Hp.
      * eapply samples_finite; [exact Hp | exact Hfp |].
        apply valid_td; assumption.
    + apply Hft. rewrite Ht. apply valid_td; assumption.
  - rewrite Hri. unfold rmse_spec. apply fl_sqrt_nonneg.
    apply mean_td_nonneg; try assumption.
    intros t d Htt Hd. unfold sq_dev. apply fl_square_nonneg.
    apply fl_sub_finite.
    + apply fmean_finite; [lia|]. intros s Hs. apply Hfp.
      rewrite Hp. constructor; [exact Hs | apply valid_td; assumption].
    + apply Hft. rewrite Ht. apply valid_td; assumption.
  - rewrite Hpi. unfold pl_spec. apply mean_td_nonneg; try assumption.
    intros t d Htt Hd. apply fmean_nonneg.
    + destruct us; [contradiction | simpl; lia].
    + intros i Hi. apply pinball_term_nonneg.
      * rewrite Forall_forall in Hus. apply Hus. apply nth_In. exact Hi.
      * apply fl_sub_finite.
        -- apply Hq.
           ++ eapply samples_nonempty. exact Hp.
           ++ eapply samples_finite; [exact Hp | exact Hfp |].
              apply valid_td; assumption.
        -- apply Hft. rewrite Ht. apply valid_td; assumption.
Qed.

(** An instance: one sample of a single series with one step and one
    channel, scored at the median level. *)
Lemma metrics_nonneg_witness :
  exists mae rmse pl,
    eval_mae (mkT [1; 1; 1] (fun _ => Fin 3)) (mkT [1; 1] (fun _ => Fin 1))
    = inr mae
    /\ eval_rmse (mkT [1; 1; 1] (fun _ => Fin 3))
         (mkT [1; 1] (fun _ => Fin 1)) = inr rmse
    /\ eval_pl (fun l _ => hd NaN l) [0.5%R]
         (mkT [1; 1; 1] (fun _ => Fin 3)) (mkT [1; 1] (fun _ => Fin 1))
       = inr pl
    /\ fl_nonneg (item mae [])
    /\ fl_nonneg (item rmse [])
    /\ fl_nonneg (item pl []).
Proof.
  apply (metrics_nonneg _ _ _ _ 0 1 1 [] []).
  - intros l q Hl Hf. destruct Hf as [|x l Hx _]; [contradiction | exact Hx].
  - discriminate.
  - constructor; [lra | constructor].
  - reflexivity.
  - reflexivity.
  - lia.
  - lia.
  - intros i _. exists 3%R. reflexivity.
  - intros i _. exists 1%R. reflexivity.
  - constructor.
Defined.

(* ================================================================= *)
(** ** Shape errors *)

Lemma bcast_rev_trailing (D T D' T' : nat) (a b : list nat) :
  (T <> T' /\ T <> 1 /\ T' <> 1) \/ (D <> D' /\ D <> 1 /\ D' <> 1) ->
  bcast_rev (D :: T :: a) (D' :: T' :: b) = None.
Proof.
  intros [(H1 & H2 & H3)|(H1 & H2 & H3)]; simpl.
  - destruct (Nat.eqb_spec T T'); [contradiction|].
    destruct (Nat.eqb_spec T 1); [contradiction|].
    destruct (Nat.eqb_spec T' 1); [contradiction|].
    destruct (Nat.eqb D D'), (Nat.eqb D 1), (Nat.eqb D' 1); reflexivity.
  - destruct (Nat.eqb_spec D D'); [contradiction|].
    destruct (Nat.eqb_spec D 1); [contradiction|].
    destruct (Nat.eqb_spec D' 1); [contradiction|]. reflexivity.
Qed.

Lemma broadcast_shapes_trailing (ps ts : list nat) (T D T' D' : nat) :
  (T <> T' /\ T <> 1 /\ T' <> 1) \/ (D <> D' /\ D <> 1 /\ D' <> 1) ->
  broadcast_shapes (ps ++ [T; D]) (ts ++ [T'; D']) = None.
Proof.
  intros H. unfold broadcast_shapes. rewrite !rev_app_distr.
  cbn [rev app]. rewrite bcast_rev_trailing by exact H. reflexivity.
Qed.

Lemma m5_setup_assert (crps_empirical : tensor fl -> tensor fl ->
                                         result (tensor fl))
  (sample_quantile : list fl -> fl -> fl) (quantiles : list R)
  (data weight : tensor fl) (kw : kwargs) :
  shape weight <> removelast (shape data) ->
  m5_setup crps_empirical sample_quantile quantiles data (Some weight) kw
  = inl AssertionError.
Proof.
  intros H. unfold m5_setup, shape_eqb.
  destruct (list_eq_dec Nat.eq_dec (shape weight) (removelast (shape data)));
    [contradiction | reflexivity].
Qed.

(** C6 (as amended).  The MAE, RMSE and pinball-loss metrics fail with a
    broadcast error whenever one of the two trailing axes (duration,
    channels) of the truth tensor differs from the corresponding axis of the
    prediction ensemble and neither of the two sizes is 1; and
    [m5_backtest] fails with an assertion error whenever the shape of the
    weight vector is not the shape of the data with its last axis
    dropped. *)
Theorem shape_mismatch_errors
  (crps_empirical : tensor fl -> tensor fl -> result (tensor fl))
  (sample_quantile : list fl -> fl -> fl) (quantiles : list R)
  (backtest : tensor fl -> kwargs -> result (list window))
  (pred truth : tensor fl) (n T D T' D' : nat) (ps ts : list nat) :
  shape pred = S n :: ps ++ [T; D] ->
  shape truth = ts ++ [T'; D'] ->
  (T <> T' /\ T <> 1 /\ T' <> 1) \/ (D <> D' /\ D <> 1 /\ D' <> 1) ->
  eval_mae pred truth = inl BroadcastError
  /\ eval_rmse pred truth = inl BroadcastError
  /\ eval_pl sample_quantile quantiles pred truth = inl BroadcastError
  /\ forall data weight kw,
       shape weight <> removelast (shape data) ->
       m5_backtest crps_empirical sample_quantile quantiles backtest
         data (Some weight) kw = inl AssertionError.
Proof.
  intros Hp Ht H. repeat split.
  - unfold eval_mae, median0. rewrite Hp. cbn [bind ret].
    unfold tmap2. cbn [shape]. rewrite Ht.
    rewrite broadcast_shapes_trailing by exact H. reflexivity.
  - unfold eval_rmse, mean0. rewrite Hp. cbn [bind ret].
    unfold tmap2. cbn [shape]. rewrite Ht.
    rewrite broadcast_shapes_trailing by exact H. reflexivity.
  - unfold eval_pl, quantile0. rewrite Hp. cbn [bind ret].
    unfold tmap2, unsqueeze0. cbn [shape]. rewrite Ht.
    rewrite !app_comm_cons.
    rewrite broadcast_shapes_trailing by exact H. reflexivity.
  - intros data weight kw Hw. unfold m5_backtest.
    rewrite m5_setup_assert by exact Hw. reflexivity.
Qed.

(** An instance: durations 3 and 2, and a weight vector of the wrong
    length. *)
Lemma shape_mismatch_errors_witness :
  eval_mae (mkT [1; 3; 1] (fun _ => Fin 3)) (mkT [2; 1] (fun _ => Fin 1))
  = inl BroadcastError
  /\ eval_rmse (mkT [1; 3; 1] (fun _ => Fin 3))
       (mkT [2; 1] (fun _ => Fin 1)) = inl BroadcastError
  /\ eval_pl (fun l _ => hd NaN l) [0.5%R]
       (mkT [1; 3; 1] (fun _ => Fin 3)) (mkT [2; 1] (fun _ => Fin 1))
     = inl BroadcastError
  /\ forall data weight kw,
       shape weight <> removelast (shape data) ->
       m5_backtest (fun _ _ => inl DimError) (fun l _ => hd NaN l) [0.5%R]
         (fun _ _ => inr []) data (Some weight) kw = inl AssertionError.
Proof.
  apply (shape_mismatch_errors _ _ _ _ _ _ 0 3 1 2 1 [] []).
  - reflexivity.
  - reflexivity.
  - left. repeat split; discriminate.
Defined.

(** C6, the counterexample: a truth tensor of duration 1 against an
    ensemble of duration 2 is broadcast, and every metric returns a
    value. *)
Lemma duration_one_is_broadcast :
  dimm2 (shape (mkT [1; 1] (fun _ => Fin 1)))
  <> dimm2 (tl (shape (mkT [1; 2; 1] (fun _ => Fin 3))))
  /\ (exists r,
        eval_mae (mkT [1; 2; 1] (fun _ => Fin 3))
          (mkT [1; 1] (fun _ => Fin 1)) = inr r)
  /\ (exists r,
        eval_rmse (mkT [1; 2; 1] (fun _ => Fin 3))
          (mkT [1; 1] (fun _ => Fin 1)) = inr r).
Proof.
  split; [discriminate|].
  split; eexists; reflexivity.
Qed.

(* ================================================================= *)
(** ** Top-down disaggregation *)

Lemma fsum_Fin (n : nat) (f : nat -> fl) (g : nat -> R) :
  (forall k, k < n -> f k = Fin (g k)) -> fsum n f = Fin (rsum n g).
Proof.
  induction n as [|n IH]; intros H; [reflexivity|].
  rewrite fsum_S, IH by (intros; apply H; lia).
  rewrite H by lia. reflexivity.
Qed.

Lemma rsum_scale (n : nat) (f : nat -> R) (c : R) :
  rsum n (fun i => f i * c)%R = (rsum n f * c)%R.
Proof.
  unfold rsum. induction n as [|n IH]; cbn [bigsum]; [lra|].
  rewrite IH. lra.
Qed.

Lemma top_down_item (sales pred : tensor fl) (N L T : nat)
  (s : nat -> nat -> R) (p : nat -> R) :
  shape sales = [N; L] ->
  shape pred = [T] ->
  (forall i j, i < N -> j < L -> item sales [i; j] = Fin (s i j)) ->
  (forall t, t < T -> item pred [t] = Fin (p t)) ->
  sales_grand_total N L s <> 0%R ->
  exists proportion prediction,
    main_top_down sales pred = inr (proportion, prediction)
    /\ shape proportion = [N]
    /\ shape prediction = [N; T]
    /\ (forall i, i < N ->
          item proportion [i]
          = Fin (sales_last28_sum L s i / sales_grand_total N L s))
    /\ (forall i t, i < N -> t < T ->
          item prediction [i; t]
          = Fin (sales_last28_sum L s i / sales_grand_total N L s * p t)).
Proof.
  intros Hs Hp Hsi Hpi Hg.
  unfold main_top_down, slice_last_cols. rewrite Hs. cbn [bind ret].
  set (m := Nat.min 28 L).
  set (sl := mkT [N; m] _).
  assert (Hsl : forall i j, i < N -> j < m ->
                  item sl [i; j] = Fin (s i (j + (L - m)))).
  { intros i j Hi Hj. unfold sl. cbn [item].
    apply Hsi; [exact Hi | unfold m in *; lia]. }
  assert (Hrow : forall i, i < N ->
                   item (sum_last false sl) [i]
                   = Fin (sales_last28_sum L s i)).
  { intros i Hi. unfold sum_last, reduce_last, sl. cbn [shape item dimm1 last].
    apply fsum_Fin. intros k Hk. apply (Hsl i k Hi Hk). }
  assert (Htot : item (sum_all sl) [] = Fin (sales_grand_total N L s)).
  { unfold sum_all. cbn [item]. change (shape sl) with [N; m].
    cbn [numel fold_right unravel]. rewrite Nat.mul_1_r.
    rewrite (fsum_ext _ _ (fun k => item sl [k / m; k mod m]))
      by (intros k _; rewrite Nat.div_1_r; reflexivity).
    rewrite (fsum_flatten N m (fun i j => item sl [i; j])).
    apply fsum_Fin. intros i Hi.
    apply fsum_Fin. intros j Hj. apply Hsl; assumption. }
  unfold tmap2. change (shape (sum_last false sl)) with [N].
  change (shape (sum_all sl)) with (@nil nat).
  cbn [broadcast_shapes rev app bcast_rev option_map bind ret].
  set (proportion := mkT [N] _).
  assert (Hprop : forall i, i < N ->
            item proportion [i]
            = Fin (sales_last28_sum L s i / sales_grand_total N L s)).
  { intros i Hi. unfold proportion. cbn [item].
    rewrite (bidx_valid [N] [i]) by (repeat constructor; exact Hi).
    change (bidx [] [i]) with (@nil nat).
    rewrite Hrow, Htot by exact Hi. unfold fl_div.
    destruct (Req_dec_T (sales_grand_total N L s) 0);
      [contradiction | reflexivity]. }
  unfold ger. change (shape proportion) with [N]. rewrite Hp.
  cbn [bind ret].
  eexists. eexists. split; [reflexivity|].
  split; [reflexivity|]. split; [reflexivity|].
  split; [exact Hprop|].
  intros i t Hi Ht. cbn [item hd last].
  rewrite Hprop, Hpi by assumption. reflexivity.
Qed.

(** C8.  For real-valued bottom-level sales whose grand total over the
    trailing 28 periods is non-zero and a real-valued aggregate forecast,
    the proportion vector sums to 1, and at every time step the
    disaggregated forecasts sum to the aggregate forecast. *)
Theorem top_down_preserves_total (sales pred : tensor fl) (N L T : nat)
  (s : nat -> nat -> R) (p : nat -> R) :
  shape sales = [N; L] ->
  shape pred = [T] ->
  (forall i j, i < N -> j < L -> item sales [i; j] = Fin (s i j)) ->
  (forall t, t < T -> item pred [t] = Fin (p t)) ->
  sales_grand_total N L s <> 0%R ->
  exists proportion prediction,
    main_top_down sales pred = inr (proportion, prediction)
    /\ shape proportion = [N]
    /\ shape prediction = [N; T]
    /\ fsum N (fun i => item proportion [i]) = Fin 1
    /\ forall t, t < T ->
         fsum N (fun i => item prediction [i; t]) = item pred [t].
Proof.
  intros Hs Hp Hsi Hpi Hg.
  destruct (top_down_item sales pred N L T s p Hs Hp Hsi Hpi Hg)
    as (proportion & prediction & Htd & Hsp & Hspr & Hprop & Hpred).
  exists proportion, prediction.
  split; [exact Htd|]. split; [exact Hsp|]. split; [exact Hspr|].
  split.
  - rewrite (fsum_Fin N _ _ Hprop). f_equal.
    unfold Rdiv. rewrite rsum_scale.
    fold (sales_grand_total N L s). field. exact Hg.
  - intros t Ht.
    rewrite (fsum_Fin N _
               (fun i => sales_last28_sum L s i / sales_grand_total N L s
                         * p t)%R)
      by (intros i Hi; apply Hpred; assumption).
    rewrite Hpi by exact Ht. f_equal.
    unfold Rdiv. rewrite !rsum_scale.
    fold (sales_grand_total N L s). field. exact Hg.
Qed.

(** An instance: two series that sold 1 and 3 in a single period, and the
    aggregate forecast [100]. *)
Lemma top_down_preserves_total_witness :
  exists proportion prediction,
    main_top_down
      (mkT [2; 1] (fun idx => match idx with 0 :: _ => Fin 1 | _ => Fin 3 end))
      (mkT [1] (fun _ => Fin 100)) = inr (proportion, prediction)
    /\ shape proportion = [2]
    /\ shape prediction = [2; 1]
    /\ fsum 2 (fun i => item proportion [i]) = Fin 1
    /\ forall t, t < 1 ->
         fsum 2 (fun i => item prediction [i; t])
         = item (mkT [1] (fun _ => Fin 100)) [t].
Proof.
  apply (top_down_preserves_total _ _ 2 1 1
           (fun i _ => match i with 0 => 1 | _ => 3 end)%R
           (fun _ => 100%R)).
  - reflexivity.
  - reflexivity.
  - intros i j _ _. destruct i; reflexivity.
  - intros t _. reflexivity.
  - unfold sales_grand_total, sales_last28_sum, rsum.
    cbn [bigsum Nat.min]. lra.
Defined.

(* ================================================================= *)
(** ** Rescaling the weights *)

Lemma fl_mul_inf_pos (pos : bool) (c : R) :
  (0 < c)%R -> fl_mul_inf pos c = if pos then PInf else NInf.
Proof.
  intros Hc. unfold fl_mul_inf.
  destruct (Rlt_dec 0 c); [reflexivity | contradiction].
Qed.

Lemma fl_mul_inf_scale (pos : bool) (c a : R) :
  (0 < c)%R -> fl_mul_inf pos (c * a) = fl_mul_inf pos a.
Proof.
  intros Hc. unfold fl_mul_inf.
  destruct (Rlt_dec 0 (c * a)), (Rlt_dec 0 a); try reflexivity; try nra.
  destruct (Rlt_dec (c * a) 0), (Rlt_dec a 0); try reflexivity; nra.
Qed.

Lemma fl_scale_add (c : R) (x y : fl) :
  (0 < c)%R ->
  fl_mul (Fin c) (fl_add x y)
  = fl_add (fl_mul (Fin c) x) (fl_mul (Fin c) y).
Proof.
  intros Hc.
  destruct x, y; cbn [fl_add fl_mul]; rewrite ?fl_mul_inf_pos by exact Hc;
    cbn [fl_add]; try reflexivity.
  f_equal. lra.
Qed.

Lemma fsum_scale (c : R) (n : nat) (f : nat -> fl) :
  (0 < c)%R ->
  fsum n (fun k => fl_mul (Fin c) (f k)) = fl_mul (Fin c) (fsum n f).
Proof.
  intros Hc. induction n as [|n IH].
  - cbn. f_equal. lra.
  - rewrite !fsum_S, IH, fl_scale_add by exact Hc. reflexivity.
Qed.

Lemma fl_div_scale (c : R) (x y : fl) :
  (0 < c)%R ->
  fl_div (fl_mul (Fin c) x) (fl_mul (Fin c) y) = fl_div x y.
Proof.
  intros Hc.
  destruct x as [a| | |], y as [b| | |]; cbn [fl_mul];
    rewrite ?fl_mul_inf_pos by exact Hc; cbn [fl_div]; try reflexivity.
  - destruct (Req_dec_T (c * b) 0), (Req_dec_T b 0); try nra.
    + apply fl_mul_inf_scale. exact Hc.
    + f_equal. field. split; lra.
  - destruct (Rlt_dec (c * b) 0), (Rlt_dec b 0); try reflexivity; nra.
  - destruct (Rlt_dec (c * b) 0), (Rlt_dec b 0); try reflexivity; nra.
Qed.

Lemma infer_shape_rows (T n : nat) (sh : list nat) :
  infer_shape [(-1)%Z; Z.of_nat T] n = Some sh -> exists x, sh = [x; T].
Proof.
  unfold infer_shape.
  destruct (existsb _ _); [discriminate|].
  destruct (count_occ _ _ _) as [|[|c]]; try discriminate.
  - destruct (Nat.eqb _ _); [|discriminate].
    intros E. inversion E. cbn [map]. rewrite Nat2Z.id.
    eexists. reflexivity.
  - destruct (Nat.eqb _ 0); [discriminate|].
    destruct (Nat.eqb _ 0); [|discriminate].
    intros E. inversion E. cbn [map].
    destruct (Z.eqb_spec (Z.of_nat T) (-1)); [lia|].
    rewrite Nat2Z.id. eexists. reflexivity.
Qed.

Lemma normalize_weight_scale (c : R) (data weight : tensor fl) :
  (0 < c)%R ->
  normalize_weight data (tscale c weight) = normalize_weight data weight.
Proof.
  intros Hc. unfold normalize_weight, tscale, tmap.
  destruct (shape_m2 (shape data)) as [e|duration]; [reflexivity|].
  cbn [bind]. unfold reshape. cbn [shape].
  destruct (infer_shape _ _) as [sh|] eqn:Hi; [|reflexivity].
  destruct (infer_shape_rows _ _ _ Hi) as (n & ->).
  cbn [bind ret]. unfold sum0. cbn [shape].
  cbn [bind ret]. unfold tmap2. cbn [shape].
  destruct (broadcast_shapes (shape weight) [duration]) as [s|];
    [|reflexivity].
  unfold ret. do 2 f_equal.
  apply functional_extensionality. intros idx. cbn [item].
  rewrite (fsum_scale c n) by exact Hc.
  apply fl_div_scale. exact Hc.
Qed.

Lemma m5_setup_scale
  (crps_empirical : tensor fl -> tensor fl -> result (tensor fl))
  (sample_quantile : list fl -> fl -> fl) (quantiles : list R)
  (c : R) (data weight : tensor fl) (kw : kwargs) :
  (0 < c)%R ->
  m5_setup crps_empirical sample_quantile quantiles data
    (Some (tscale c weight)) kw
  = m5_setup crps_empirical sample_quantile quantiles data (Some weight) kw.
Proof.
  intros Hc. unfold m5_setup.
  change (shape (tscale c weight)) with (shape weight).
  rewrite normalize_weight_scale by exact Hc. reflexivity.
Qed.

(** C9.  Running [m5_backtest] with the weight vector multiplied
    element-wise by a positive constant gives the same result, the
    [ws_<metric>] values included, as running it with the original
    weights. *)
Theorem m5_backtest_weight_scale
  (crps_empirical : tensor fl -> tensor fl -> result (tensor fl))
  (sample_quantile : list fl -> fl -> fl) (quantiles : list R)
  (backtest : tensor fl -> kwargs -> result (list window))
  (c : R) (data weight : tensor fl) (kw : kwargs) :
  (0 < c)%R ->
  m5_backtest crps_empirical sample_quantile quantiles backtest data
    (Some (tscale c weight)) kw
  = m5_backtest crps_empirical sample_quantile quantiles backtest data
      (Some weight) kw.
Proof.
  intros Hc. unfold m5_backtest.
  rewrite m5_setup_scale by exact Hc. reflexivity.
Qed.

(* ================================================================= *)
(** ** The loop over the windows *)

Lemma index0_scalar {A : Type} (k : Z) (t : tensor A) :
  shape t = [] -> index0 k t = inl IndexError.
Proof. intros H. unfold index0. rewrite H. reflexivity. Qed.

Lemma index0_shape {A : Type} (k : Z) (t t' : tensor A) (n : nat)
  (sh : list nat) :
  shape t = n :: sh -> index0 k t = inr t' -> shape t' = sh.
Proof.
  intros H. unfold index0. rewrite H.
  destruct (_ && _); [|discriminate].
  intros E. inversion E. reflexivity.
Qed.

Section WindowLoop.

Variable names : list string.
Variable data : tensor fl.

(** Once [weight] is a 0-dim tensor, the next window cannot be
    processed. *)
Lemma ws_windows_scalar_fails (w : window) (rest : list window)
  (weight : tensor fl) :
  shape weight = [] ->
  exists e, ws_windows names data (w :: rest) weight = inl e.
Proof.
  intros Hs. cbn [ws_windows].
  destruct (get_int w "t1") as [e|t1]; [exists e; reflexivity|].
  cbn [bind].
  destruct (slice_m2_to t1 data) as [e|train]; [exists e; reflexivity|].
  cbn [bind]. rewrite index0_scalar by exact Hs.
  exists IndexError. reflexivity.
Qed.

(** With a weight vector of one axis, the loop fails on the second window
    at the latest. *)
Lemma ws_windows_vector_fails (w1 w2 : window) (rest : list window)
  (weight : tensor fl) (n : nat) :
  shape weight = [n] ->
  exists e, ws_windows names data (w1 :: w2 :: rest) weight = inl e.
Proof.
  intros Hs. cbn [ws_windows].
  destruct (get_int w1 "t1") as [e|t1]; [exists e; reflexivity|].
  cbn [bind].
  destruct (slice_m2_to t1 data) as [e|train]; [exists e; reflexivity|].
  cbn [bind].
  destruct (index0 (t1 - 1) weight) as [e|weight1] eqn:Hi;
    [exists e; reflexivity|].
  cbn [bind].
  destruct (ws_metrics names w1 train weight1) as [e|w1'];
    [exists e; reflexivity|].
  cbn [bind].
  destruct (ws_windows_scalar_fails w2 rest weight1
              (index0_shape _ _ _ _ _ Hs Hi)) as (e & He).
  cbn [ws_windows] in He. rewrite He. exists e. reflexivity.
Qed.

End WindowLoop.

Lemma normalize_weight_shape (data weight w : tensor fl) (T D : nat) :
  shape data = [T; D] -> shape weight = [T] ->
  normalize_weight data weight = inr w -> shape w = [T].
Proof.
  intros Hd Hw. unfold normalize_weight, shape_m2. rewrite Hd.
  cbn [length Nat.ltb Nat.leb bind ret dimm2 removelast last].
  unfold reshape.
  destruct (infer_shape _ _) as [sh|] eqn:Hi; [|discriminate].
  destruct (infer_shape_rows _ _ _ Hi) as (x & ->).
  cbn [bind ret]. unfold sum0. cbn [shape bind ret].
  unfold tmap2. cbn [shape]. rewrite Hw, broadcast_shapes_refl.
  intros E. inversion E. reflexivity.
Qed.

Lemma m5_setup_weight_shape
  (crps_empirical : tensor fl -> tensor fl -> result (tensor fl))
  (sample_quantile : list fl -> fl -> fl) (quantiles : list R)
  (data : tensor fl) (weight : option (tensor fl)) (kw kw' : kwargs)
  (w : tensor fl) (log : list logmsg) (T D : nat) :
  shape data = [T; D] ->
  m5_setup crps_empirical sample_quantile quantiles data weight kw
  = inr (w, kw', log) ->
  shape w = [T].
Proof.
  intros Hd. unfold m5_setup, shape_eqb.
  set (w0 := match weight with
             | None => new_ones (removelast (shape data))
             | Some x => x
             end).
  destruct (list_eq_dec _ _ _) as [Hs|]; [|discriminate].
  cbn [negb].
  assert (Hs' : shape w0 = [T]) by (rewrite Hs, Hd; reflexivity).
  destruct (normalize_weight data w0) as [e|w1] eqn:Hn; [discriminate|].
  apply (normalize_weight_shape _ _ _ T D Hd Hs') in Hn.
  cbn [bind].
  destruct (required_train_window data) as [e|m]; [discriminate|].
  cbn [bind].
  destruct (_ <? _)%Z; intros E; inversion E; subst; exact Hn.
Qed.

(** C1, what the code does instead.  For data without batch axes (shape
    [[T; D]]) the normalized weight is a vector over time; the loop
    replaces it by its element [t1 - 1] for the first window and indexes
    that 0-dim tensor again for the second.  So whenever the backtest
    routine yields two windows or more, [m5_backtest] fails instead of
    returning windows with [ws_<metric>] values. *)
Theorem m5_backtest_second_window_fails
  (crps_empirical : tensor fl -> tensor fl -> result (tensor fl))
  (sample_quantile : list fl -> fl -> fl) (quantiles : list R)
  (backtest : tensor fl -> kwargs -> result (list window))
  (data : tensor fl) (weight : option (tensor fl)) (kw : kwargs)
  (T D : nat) :
  shape data = [T; D] ->
  (forall kw' ws, backtest data kw' = inr ws -> 2 <= length ws) ->
  exists e,
    m5_backtest crps_empirical sample_quantile quantiles backtest data
      weight kw = inl e.
Proof.
  intros Hd Hb. unfold m5_backtest.
  destruct (m5_setup _ _ _ data weight kw) as [e|[[w kw'] log]] eqn:Hs;
    [exists e; reflexivity|].
  cbn [bind].
  destruct (backtest data kw') as [e|ws] eqn:Hw; [exists e; reflexivity|].
  cbn [bind].
  apply Hb in Hw.
  destruct ws as [|w1 [|w2 rest]]; try (simpl in Hw; lia).
  destruct (ws_windows_vector_fails
              (match kw_metrics kw' with None => [] | Some m => map fst m end)
              data w1 w2 rest w T
              (m5_setup_weight_shape _ _ _ _ _ _ _ _ _ _ _ Hd Hs))
    as (e & He).
  rewrite He. exists e. reflexivity.
Qed.

(* ================================================================= *)
(** ** The scale estimator *)

Lemma init2_td (bs : list nat) (T D : nat) : init2 (bs ++ [T; D]) = bs.
Proof. apply init2_app2. Qed.

Lemma dimm1_td (bs : list nat) (T D : nat) : dimm1 (bs ++ [T; D]) = D.
Proof. apply last_app2. Qed.

Lemma dimm2_td (bs : list nat) (T D : nat) : dimm2 (bs ++ [T; D]) = T.
Proof. unfold dimm2. rewrite removelast_app2. apply last_last. Qed.

Lemma app_snoc2 {A : Type} (l : list A) (x y : A) :
  (l ++ [x]) ++ [y] = l ++ [x; y].
Proof. rewrite <- app_assoc. reflexivity. Qed.

Lemma valid_app_inv (s1 s2 idx : list nat) :
  valid (s1 ++ s2) idx ->
  exists i1 i2, idx = i1 ++ i2 /\ valid s1 i1 /\ valid s2 i2.
Proof.
  intros H. apply Forall2_app_inv_r in H.
  destruct H as (i1 & i2 & H1 & H2 & ->). exists i1, i2. auto.
Qed.

Lemma valid_td_inv (bs idx : list nat) (T D : nat) :
  valid (bs ++ [T; D]) idx ->
  exists b t d, idx = b ++ [t; d] /\ valid bs b /\ t < T /\ d < D.
Proof.
  intros H. apply valid_app_inv in H.
  destruct H as (b & i2 & -> & Hb & H2).
  inversion H2 as [|t T' l1 l2 Ht H3]; subst.
  inversion H3 as [|d D' l3 l4 Hd H4]; subst.
  inversion H4; subst.
  exists b, t, d. auto.
Qed.

Lemma unravel_valid (sh : list nat) (n : nat) :
  n < numel sh -> valid sh (unravel sh n).
Proof.
  revert n. induction sh as [|d sh IH]; intros n Hn; [constructor|].
  cbn [unravel]. cbn [numel fold_right] in Hn. fold (numel sh) in Hn.
  assert (Hpos : numel sh <> 0) by (intros E; rewrite E in Hn; lia).
  constructor.
  - apply Nat.Div0.div_lt_upper_bound. lia.
  - apply IH. apply Nat.mod_upper_bound. exact Hpos.
Qed.

Lemma unravel_ravel (sh idx : list nat) :
  valid sh idx -> unravel sh (ravel sh idx) = idx.
Proof.
  induction 1 as [|i n idx sh Hi Hv IH]; [reflexivity|].
  cbn [ravel unravel].
  assert (Hr := ravel_lt _ _ Hv).
  assert (Hpos : numel sh <> 0) by lia.
  rewrite Nat.add_comm, Nat.div_add by exact Hpos.
  rewrite Nat.Div0.mod_add.
  rewrite Nat.div_small, Nat.mod_small by exact Hr.
  rewrite Nat.add_0_l, IH. reflexivity.
Qed.

Lemma expandable_rev_refl (s : list nat) : expandable_rev s s = true.
Proof.
  induction s as [|x s IH]; [reflexivity|].
  simpl. rewrite Nat.eqb_refl, IH. reflexivity.
Qed.

Lemma combine_snoc {A B : Type} (l : list A) (l' : list B) (r : list A)
  (r' : list B) :
  length l = length l' ->
  combine (l ++ r) (l' ++ r') = combine l l' ++ combine r r'.
Proof.
  revert l'. induction l as [|x l IH]; intros [|y l'] H; try discriminate.
  - reflexivity.
  - simpl. rewrite IH by (simpl in H; lia). reflexivity.
Qed.

Lemma bidx_ones2 (bs b : list nat) (i d : nat) :
  valid bs b -> bidx (bs ++ [1; 1]) (b ++ [i; d]) = b ++ [0; 0].
Proof.
  intros H. unfold bidx.
  rewrite !length_app2, (valid_length _ _ H), Nat.sub_diag.
  cbn [skipn].
  rewrite combine_snoc by (symmetry; apply valid_length; exact H).
  rewrite map_app, bmap_valid by exact H. reflexivity.
Qed.

(** The count of active steps lies between 0 and the duration. *)
Lemma active_count_bounds (x : tensor fl) (T D : nat) (b : list nat) :
  (0 <= active_count x T D b <= Z.of_nat T)%Z.
Proof.
  unfold active_count, zsum.
  induction T as [|T IH]; cbn [bigsum]; [lia|].
  destruct (fl_eqb _ _); cbn [negb Z.b2z]; lia.
Qed.

Lemma shape_td_nonempty {A : Type} (P : list nat -> A) (Q : A)
  (bs : list nat) (T D : nat) :
  match bs ++ [T; D] with [] => Q | _ :: _ => P (bs ++ [T; D]) end
  = P (bs ++ [T; D]).
Proof. destruct bs; reflexivity. Qed.

Lemma sum_last_keep_td (x : tensor fl) (bs : list nat) (T D : nat) :
  shape x = bs ++ [T; D] ->
  sum_last true x
  = mkT (bs ++ [T; 1])
      (fun idx => fsum D (fun k => item x (removelast idx ++ [k]))).
Proof.
  intros H. unfold sum_last, reduce_last. rewrite H.
  destruct (bs ++ [T; D]) eqn:E; [destruct bs; discriminate|].
  rewrite <- E, dimm1_td, removelast_app2, app_snoc2. reflexivity.
Qed.

Lemma active_time_of_item (x : tensor fl) (bs : list nat) (T D : nat) :
  shape x = bs ++ [T; D] ->
  exists a,
    active_time_of x = inr a
    /\ shape a = bs ++ [1; 1]
    /\ forall b i j, item a (b ++ [i; j]) = active_count x T D b.
Proof.
  intros H. unfold active_time_of.
  rewrite (sum_last_keep_td x bs T D H).
  unfold cumsum_m2. cbn [shape]. rewrite rank2_ltb. cbn [bind ret].
  unfold reduce_m2. cbn [tmap shape]. rewrite rank2_ltb.
  rewrite init2_td, dimm1_td, dimm2_td.
  eexists. split; [reflexivity|]. split; [reflexivity|].
  intros b i j. cbn [item]. unfold active_count, zsum.
  apply bigsum_ext. intros t Ht.
  unfold init2. rewrite !init2_app2, !last_app2. cbn [tmap item].
  rewrite !removelast_app2, !last_last.
  do 3 f_equal. unfold cum_sum. apply fsum_ext. intros k Hk.
  unfold chan_sum. apply fsum_ext. intros d Hd.
  rewrite removelast_last, last_app2, removelast_app2, app_snoc2.
  reflexivity.
Qed.

(** The lag-1 differences [train_data - pad(train_data[..., :-1, :])]. *)
Lemma lag1_item (x : tensor fl) (bs : list nat) (T D : nat) :
  shape x = bs ++ [T; D] -> 0 < T ->
  exists lag1,
    (front <- slice_m2_to (-1) x ;;
     padded <- pad_front_m2 front ;;
     tmap2 fl_sub x padded) = inr lag1
    /\ shape lag1 = bs ++ [T; D]
    /\ forall b t d, valid bs b -> t < T -> d < D ->
         item lag1 (b ++ [t; d]) = lag1_at x b t d.
Proof.
  intros H HT. unfold slice_m2_to. rewrite H, rank2_ltb.
  rewrite init2_td, dimm1_td, dimm2_td. cbn [bind ret].
  unfold pad_front_m2. cbn [shape]. rewrite rank2_ltb.
  rewrite init2_td, dimm1_td, dimm2_td. cbn [bind ret].
  replace (S (slice_stop (-1) T)) with T
    by (unfold slice_stop; cbn [Z.ltb Z.compare]; lia).
  set (padded := mkT (bs ++ [T; D]) _).
  destruct (tmap2_same_shape fl_sub x padded (bs ++ [T; D]) H eq_refl)
    as (lag1 & -> & Hs & Hi).
  exists lag1. split; [reflexivity|]. split; [exact Hs|].
  intros b t d Hb Ht Hd.
  rewrite Hi by (apply valid_td; assumption).
  unfold padded, lag1_at. cbn [item].
  unfold init2. rewrite init2_app2, last_app2, removelast_app2, last_last.
  reflexivity.
Qed.

Lemma forallb_leb_refl (l : list nat) :
  forallb (fun p => Nat.leb (fst p) (snd p)) (combine l l) = true.
Proof.
  induction l as [|x l IH]; [reflexivity|].
  simpl. rewrite Nat.leb_refl, IH. reflexivity.
Qed.

(** [train_data.gather(-2, (duration - active_time).expand(...))], for an
    integer tensor [a] that holds the count [ac b] for every series [b]. *)
Lemma start_value_item (x : tensor fl) (a : tensor Z) (ac : list nat -> Z)
  (bs : list nat) (T D : nat) :
  shape x = bs ++ [T; D] ->
  shape a = bs ++ [1; 1] ->
  (forall b i j, item a (b ++ [i; j]) = ac b) ->
  (forall b, valid bs b -> (1 <= ac b <= Z.of_nat T)%Z) ->
  exists sv,
    (index <- expand (removelast (shape a) ++ [dimm1 (shape x)])
                (tmap (fun v => (Z.of_nat T - v)%Z) a) ;;
     gather_m2 x index) = inr sv
    /\ shape sv = bs ++ [1; D]
    /\ forall b d,
         valid bs b ->
         item sv (b ++ [0; d])
         = item x (b ++ [Z.to_nat (Z.of_nat T - ac b); d]).
Proof.
  intros Hx Ha Hac Hb.
  rewrite Ha, Hx, removelast_app2, dimm1_td, app_snoc2.
  unfold expand. cbn [tmap shape]. rewrite Ha, !rev_app_distr.
  cbn [rev app expandable_rev Nat.eqb].
  rewrite orb_true_r, expandable_rev_refl. cbn [orb andb bind ret].
  set (index := mkT (bs ++ [1; D]) _).
  assert (Hidx : forall b i d, valid bs b ->
                   item index (b ++ [i; d]) = (Z.of_nat T - ac b)%Z).
  { intros b i d Hv. unfold index. cbn [item tmap].
    rewrite bidx_ones2 by exact Hv. cbn [item]. rewrite Hac.
    reflexivity. }
  unfold gather_m2. rewrite Hx, rank2_ltb.
  change (shape index) with (bs ++ [1; D]).
  rewrite !length_app2, Nat.eqb_refl. cbn [negb].
  rewrite !init2_td, !dimm1_td, dimm2_td, forallb_leb_refl. cbn [negb].
  assert (Hall : forallb
            (fun n =>
               Z.leb 0 (item index (unravel (bs ++ [1; D]) n))
               && Z.ltb (item index (unravel (bs ++ [1; D]) n))
                    (Z.of_nat T))
            (seq 0 (numel (bs ++ [1; D]))) = true).
  { apply forallb_forall. intros n Hn. apply in_seq in Hn.
    destruct (valid_td_inv bs (unravel (bs ++ [1; D]) n) 1 D)
      as (b & t & d & -> & Hv & Ht & Hd);
      [apply unravel_valid; lia|].
    rewrite Hidx by exact Hv.
    specialize (Hb b Hv).
    apply andb_true_intro. split; [apply Z.leb_le | apply Z.ltb_lt]; lia. }
  rewrite Hall.
  eexists. split; [reflexivity|]. split; [reflexivity|].
  intros b d Hv. cbn [item].
  unfold init2. rewrite init2_app2, last_app2.
  rewrite Hidx by exact Hv. reflexivity.
Qed.

Lemma squeeze_last_one {A : Type} (t : tensor A) (l : list nat) :
  shape t = l ++ [1] ->
  squeeze_last t = mkT l (fun idx => item t (idx ++ [0])).
Proof.
  intros H. unfold squeeze_last, dimm1. rewrite H, last_last.
  rewrite removelast_last.
  destruct (l ++ [1]) eqn:E; [destruct l; discriminate | reflexivity].
Qed.

Lemma valid_snoc (bs b : list nat) (D d : nat) :
  valid bs b -> d < D -> valid (bs ++ [D]) (b ++ [d]).
Proof.
  intros Hb Hd. apply valid_app; [exact Hb|]. repeat constructor. exact Hd.
Qed.

(** What [_get_metric_scale] computes for the series [b], when every
    series has at least one active step. *)
Lemma get_metric_scale_item (metric : string) (x : tensor fl)
  (bs b : list nat) (T D : nat) :
  shape x = bs ++ [T; D] ->
  (forall b', valid bs b' -> (1 <= active_count x T D b')%Z) ->
  valid bs b ->
  exists r,
    _get_metric_scale metric x = inr r
    /\ shape r = bs
    /\ item r b
       = scale_at (metric_norm metric) x T D b
           (Z.to_nat (Z.of_nat T - active_count x T D b))
           (active_count x T D b).
Proof.
  intros Hx Hac Hb.
  assert (HT : 0 < T).
  { specialize (Hac b Hb).
    pose proof (active_count_bounds x T D b). lia. }
  unfold _get_metric_scale, shape_m2. rewrite Hx, rank2_ltb, dimm2_td.
  cbn [bind ret].
  destruct (lag1_item x bs T D Hx HT) as (lag1 & Hl & Hls & Hli).
  destruct (slice_m2_to (-1) x) as [e|front]; [discriminate|].
  cbn [bind] in Hl |- *.
  destruct (pad_front_m2 front) as [e|padded]; [discriminate|].
  cbn [bind] in Hl |- *. rewrite Hl. cbn [bind].
  destruct (active_time_of_item x bs T D Hx) as (a & -> & Has & Hai).
  cbn [bind].
  destruct (start_value_item x a (active_count x T D) bs T D Hx Has Hai)
    as (sv & Hsv & Hss & Hsi).
  { intros b' Hb'. specialize (Hac b' Hb').
    pose proof (active_count_bounds x T D b'). lia. }
  rewrite Hx in Hsv.
  destruct (expand _ _) as [e|index]; [discriminate|].
  cbn [bind] in Hsv |- *. rewrite Hsv. cbn [bind].
  unfold reduce_m2. cbn [tmap shape].
  rewrite Hls, rank2_ltb, init2_td, dimm1_td, dimm2_td. cbn [bind ret].
  unfold squeeze_m2. rewrite Hss, rank2_ltb, init2_td, dimm1_td, dimm2_td.
  cbn [Nat.eqb bind ret].
  set (lag_sum := mkT (bs ++ [D]) _).
  set (start := mkT (bs ++ [D]) _).
  destruct (tmap2_same_shape fl_sub lag_sum
              (tmap (fun v => fl_pow (fl_abs v) (metric_norm metric)) start)
              (bs ++ [D]) eq_refl eq_refl) as (ln & -> & Hlns & Hlni).
  cbn [bind].
  rewrite (mean_last_snoc ln bs D Hlns).
  rewrite (squeeze_last_one a (bs ++ [1]))
    by (rewrite Has, app_snoc2; reflexivity).
  rewrite (squeeze_last_one _ bs) by reflexivity.
  set (m := mkT bs _).
  set (a1 := tmap _ _).
  destruct (tmap2_same_shape (fun v c => fl_div v (fl_of_Z c)) m a1 bs
              eq_refl eq_refl) as (q & -> & Hqs & Hqi).
  cbn [bind]. eexists. split; [reflexivity|]. split; [exact Hqs|].
  cbn [tmap item]. rewrite Hqi by exact Hb.
  unfold scale_at, m, a1. cbn [tmap item].
  rewrite app_snoc2, Hai. do 2 f_equal. unfold fmean. f_equal.
  apply fsum_ext. intros d Hd.
  rewrite Hlni by (apply valid_snoc; assumption).
  unfold lag_sum, start. cbn [tmap item].
  rewrite removelast_last, last_last, Hsi by exact Hb.
  f_equal. apply fsum_ext. intros t Ht.
  rewrite Hli by assumption. reflexivity.
Qed.

(** *** Counting the active steps *)

Lemma zsum_S (n : nat) (f : nat -> Z) : zsum (S n) f = (zsum n f + f n)%Z.
Proof. reflexivity. Qed.

Lemma zsum_zero (n : nat) (f : nat -> Z) :
  (forall t, t < n -> f t = 0%Z) -> zsum n f = 0%Z.
Proof.
  induction n as [|n IH]; intros H; [reflexivity|].
  rewrite zsum_S, IH by (intros; apply H; lia).
  rewrite H by lia. reflexivity.
Qed.

Lemma zsum_suffix (T s : nat) (f : nat -> bool) :
  s <= T ->
  (forall t, t < s -> f t = false) ->
  (forall t, s <= t -> t < T -> f t = true) ->
  zsum T (fun t => Z.b2z (f t)) = Z.of_nat (T - s).
Proof.
  induction T as [|T IH]; intros Hs H0 H1; [reflexivity|].
  rewrite zsum_S.
  destruct (Nat.eq_dec s (S T)) as [->|Hne].
  - rewrite zsum_zero by (intros t Ht; rewrite H0 by lia; reflexivity).
    rewrite H0 by lia. rewrite Nat.sub_diag. reflexivity.
  - rewrite IH; [| lia | exact H0 | intros; apply H1; lia].
    rewrite H1 by lia. cbn [Z.b2z]. lia.
Qed.

Lemma active_count_suffix (x : tensor fl) (T D : nat) (b : list nat)
  (s : nat) :
  s < T -> first_active x D b s -> stays_active x T D b s ->
  active_count x T D b = Z.of_nat (T - s).
Proof.
  intros Hs [_ H0] H1. unfold active_count.
  apply (zsum_suffix T s
           (fun t => negb (fl_eqb (cum_sum x D b t) (Fin 0)))).
  - lia.
  - intros t Ht. rewrite H0 by exact Ht. reflexivity.
  - intros t Ht1 Ht2. rewrite H1 by assumption. reflexivity.
Qed.

Lemma get_metric_scale_active (metric : string) (x : tensor fl)
  (bs b : list nat) (T D s : nat) :
  shape x = bs ++ [T; D] ->
  (forall b', valid bs b' ->
     exists s', s' < T /\ first_active x D b' s'
                /\ stays_active x T D b' s') ->
  valid bs b ->
  s < T -> first_active x D b s -> stays_active x T D b s ->
  exists r,
    _get_metric_scale metric x = inr r
    /\ shape r = bs
    /\ item r b
       = scale_at (if String.eqb metric "rmse" then 2 else 1) x T D b s
           (Z.of_nat (T - s)).
Proof.
  intros Hx Hall Hb Hs Hf Hst.
  destruct (get_metric_scale_item metric x bs b T D Hx) as (r & Hr & Hrs & Hri).
  - intros b' Hb'. destruct (Hall b' Hb') as (s' & Hs' & Hf' & Hst').
    rewrite (active_count_suffix x T D b' s') by assumption. lia.
  - exact Hb.
  - exists r. split; [exact Hr|]. split; [exact Hrs|].
    rewrite Hri, (active_count_suffix x T D b s) by assumption.
    replace (Z.to_nat (Z.of_nat T - Z.of_nat (T - s))) with s by lia.
    reflexivity.
Qed.

(** C3 (as amended).  For a training tensor in which every series has a
    first step [s] at which the cumulative summed response is non-zero, and
    stays non-zero from there to the end of the window, the scale estimator
    returns, per series, ((sum over time of |lag-1 difference|^p - |value
    at the first active step|^p, averaged over channels) / (active_time -
    1))^(1/p), where the lag-1 differences have a zero step in front of the
    window, [active_time = T - s], and [p] is 2 for rmse and 1 otherwise. *)
Theorem get_metric_scale_spec (metric : string) (x : tensor fl)
  (bs b : list nat) (T D s : nat) :
  shape x = bs ++ [T; D] ->
  (forall b', valid bs b' ->
     exists s', s' < T /\ first_active x D b' s'
                /\ stays_active x T D b' s') ->
  valid bs b ->
  s < T -> first_active x D b s -> stays_active x T D b s ->
  exists r,
    _get_metric_scale metric x = inr r
    /\ shape r = bs
    /\ item r b
       = scale_at (if String.eqb metric "rmse" then 2 else 1) x T D b s
           (Z.of_nat (T - s)).
Proof. apply get_metric_scale_active. Qed.

(** *** Worked examples *)

(** Evaluation of closed [fl] expressions: unfold the sums and decide the
    comparisons of real constants. *)
Ltac fl_decide :=
  repeat match goal with
  | |- context [IZR ?z] =>
      let z' := eval compute in z in progress change z with z'
  | |- context [Rcase_abs ?a] => destruct (Rcase_abs a); try lra
  | |- context [Req_dec_T ?a ?b] => destruct (Req_dec_T a b); try lra
  | |- context [Rlt_dec ?a ?b] => destruct (Rlt_dec a b); try lra
  | |- context [Rle_dec ?a ?b] => destruct (Rle_dec a b); try lra
  end.

Ltac fl_eval :=
  cbv [cum_sum chan_sum lag1_at scale_at active_count zero_count fmean
       fsum zsum bigsum series item nth hd app fl_add fl_sub fl_opp fl_mul
       fl_div fl_abs fl_pow fl_pow_recip fl_pow_half fl_sqrt fl_eqb fl_leb
       fl_of_nat fl_of_Z fl_mul_inf INR Nat.eqb negb Z.b2z Rabs];
  fl_decide; try reflexivity; try (f_equal; lra).

Lemma valid_nil_inv (b : list nat) : valid [] b -> b = [].
Proof. intros H. inversion H. reflexivity. Qed.

(** An instance: the series 1, 2, 4, active from its first step. *)
Lemma get_metric_scale_spec_witness :
  exists r,
    _get_metric_scale "rmse" (series [1; 2; 4]%R) = inr r
    /\ shape r = []
    /\ item r []
       = scale_at (if String.eqb "rmse" "rmse" then 2 else 1)
           (series [1; 2; 4]%R) 3 1 [] 0 (Z.of_nat (3 - 0)).
Proof.
  assert (Hf : first_active (series [1; 2; 4]%R) 1 [] 0).
  { split; [fl_eval | intros t Ht; lia]. }
  assert (Hs : stays_active (series [1; 2; 4]%R) 3 1 [] 0).
  { intros t _ Ht. destruct t as [|[|[|t]]]; [fl_eval | fl_eval | fl_eval | lia]. }
  apply (get_metric_scale_spec "rmse" (series [1; 2; 4]%R) [] [] 3 1 0).
  - reflexivity.
  - intros b' Hb'. apply valid_nil_inv in Hb'. subst b'.
    exists 0. split; [lia|]. split; assumption.
  - constructor.
  - lia.
  - exact Hf.
  - exact Hs.
Defined.

(** C3, the counterexample: for the series 1, -1, 5 the cumulative sum is
    non-zero at the first step, so the claimed active time is 3 and the
    claimed scale (9 - 1) / 2 = 4; the code counts the two steps with a
    non-zero cumulative sum, reads the start value at step 3 - 2 = 1, and
    returns (9 - 1) / 1 = 8. *)
Lemma scale_counts_nonzero_steps :
  first_active (series [1; -1; 5]%R) 1 [] 0
  /\ scale_at 1 (series [1; -1; 5]%R) 3 1 [] 0 (Z.of_nat (3 - 0)) = Fin 4
  /\ exists r,
       _get_metric_scale "mae" (series [1; -1; 5]%R) = inr r
       /\ item r [] = Fin 8
       /\ item r [] <> Fin 4.
Proof.
  assert (Hac : active_count (series [1; -1; 5]%R) 3 1 [] = 2%Z)
    by fl_eval.
  split; [split; [fl_eval | intros t Ht; lia]|].
  split; [fl_eval|].
  destruct (get_metric_scale_item "mae" (series [1; -1; 5]%R) [] [] 3 1)
    as (r & Hr & _ & Hi).
  - reflexivity.
  - intros b' Hb'. apply valid_nil_inv in Hb'. subst b'. rewrite Hac. lia.
  - constructor.
  - exists r. split; [exact Hr|].
    assert (H8 : item r [] = Fin 8).
    { rewrite Hi, Hac. change (metric_norm "mae") with 1.
      change (Z.to_nat (Z.of_nat 3 - 2)) with 1. fl_eval. }
    split; [exact H8|]. rewrite H8. intros E. inversion E. lra.
Qed.

(* ================================================================= *)
(** ** Degenerate scales *)

(** A series without any active step makes the gather fail. *)
Lemma start_value_fails (x : tensor fl) (a : tensor Z) (ac : list nat -> Z)
  (bs b : list nat) (T D : nat) :
  shape x = bs ++ [T; D] ->
  shape a = bs ++ [1; 1] ->
  (forall b i j, item a (b ++ [i; j]) = ac b) ->
  0 < D -> valid bs b -> ac b = 0%Z ->
  (index <- expand (removelast (shape a) ++ [dimm1 (shape x)])
              (tmap (fun v => (Z.of_nat T - v)%Z) a) ;;
   gather_m2 x index) = inl GatherIndexError.
Proof.
  intros Hx Ha Hac HD Hb H0.
  rewrite Ha, Hx, removelast_app2, dimm1_td, app_snoc2.
  unfold expand. cbn [tmap shape]. rewrite Ha, !rev_app_distr.
  cbn [rev app expandable_rev Nat.eqb].
  rewrite orb_true_r, expandable_rev_refl. cbn [orb andb bind ret].
  set (index := mkT (bs ++ [1; D]) _).
  assert (Hidx : item index (b ++ [0; 0]) = Z.of_nat T).
  { unfold index. cbn [item tmap].
    rewrite bidx_ones2 by exact Hb. rewrite Hac, H0. lia. }
  unfold gather_m2. rewrite Hx, rank2_ltb.
  change (shape index) with (bs ++ [1; D]).
  rewrite !length_app2, Nat.eqb_refl. cbn [negb].
  rewrite !init2_td, !dimm1_td, dimm2_td, forallb_leb_refl. cbn [negb].
  destruct (forallb _ _) eqn:E; [|reflexivity].
  exfalso. rewrite forallb_forall in E.
  assert (Hv : valid (bs ++ [1; D]) (b ++ [0; 0]))
    by (apply valid_td; [exact Hb | lia | exact HD]).
  specialize (E (ravel (bs ++ [1; D]) (b ++ [0; 0]))).
  rewrite unravel_ravel, Hidx in E by exact Hv.
  rewrite Z.ltb_irrefl, andb_false_r in E.
  assert (Hin : In (ravel (bs ++ [1; D]) (b ++ [0; 0]))
                  (seq 0 (numel (bs ++ [1; D])))).
  { apply in_seq. pose proof (ravel_lt _ _ Hv). lia. }
  specialize (E Hin). discriminate.
Qed.

Lemma get_metric_scale_inactive (metric : string) (x : tensor fl)
  (bs b : list nat) (T D : nat) :
  shape x = bs ++ [T; D] ->
  0 < T -> 0 < D -> valid bs b ->
  active_count x T D b = 0%Z ->
  _get_metric_scale metric x = inl GatherIndexError.
Proof.
  intros Hx HT HD Hb H0.
  unfold _get_metric_scale, shape_m2. rewrite Hx, rank2_ltb, dimm2_td.
  cbn [bind ret].
  destruct (lag1_item x bs T D Hx HT) as (lag1 & Hl & Hls & Hli).
  destruct (slice_m2_to (-1) x) as [e|front]; [discriminate|].
  cbn [bind] in Hl |- *.
  destruct (pad_front_m2 front) as [e|padded]; [discriminate|].
  cbn [bind] in Hl |- *. rewrite Hl. cbn [bind].
  destruct (active_time_of_item x bs T D Hx) as (a & -> & Has & Hai).
  cbn [bind].
  pose proof (start_value_fails x a (active_count x T D) bs b T D
                Hx Has Hai HD Hb H0) as Hf.
  rewrite Hx in Hf.
  destruct (expand _ _) as [e|index].
  - cbn [bind] in Hf |- *. exact Hf.
  - cbn [bind] in Hf |- *. rewrite Hf. reflexivity.
Qed.

(** C5, the counterexample: the all-zero series of two steps has active
    time 0, and the scale estimator raises an index error instead of
    returning a value. *)
Lemma all_zero_series_raises :
  (active_count (series [0; 0]%R) 2 1 [] <= 1)%Z
  /\ _get_metric_scale "mae" (series [0; 0]%R) = inl GatherIndexError.
Proof.
  assert (Hac : active_count (series [0; 0]%R) 2 1 [] = 0%Z) by fl_eval.
  split; [rewrite Hac; lia|].
  apply (get_metric_scale_inactive "mae" _ [] [] 2 1);
    [reflexivity | lia | lia | constructor | exact Hac].
Qed.

Lemma fl_div_zero_nonfinite (x : fl) : fl_nonfinite (fl_div x (Fin 0)).
Proof.
  unfold fl_nonfinite.
  destruct x as [a| | |]; cbn [fl_div].
  - destruct (Req_dec_T 0 0) as [_|H]; [|contradiction].
    unfold fl_mul_inf. destruct (Rlt_dec 0 a); [auto|].
    destruct (Rlt_dec a 0); auto.
  - destruct (Rlt_dec 0 0); [lra | auto].
  - destruct (Rlt_dec 0 0); [lra | auto].
  - auto.
Qed.

Lemma fl_pow_recip_nonfinite (p : nat) (x : fl) :
  fl_nonfinite x -> fl_nonfinite (fl_pow_recip p x).
Proof.
  unfold fl_nonfinite, fl_pow_recip.
  destruct (Nat.eqb p 1); [tauto|].
  intros [-> | [-> | ->]]; cbn; auto.
Qed.

Lemma fl_add_nan_l (y : fl) : fl_add NaN y = NaN.
Proof. reflexivity. Qed.

Lemma fl_add_nan_r (x : fl) : fl_add x NaN = NaN.
Proof. destruct x; reflexivity. Qed.

Lemma fsum_nan (n k : nat) (f : nat -> fl) :
  k < n -> f k = NaN -> fsum n f = NaN.
Proof.
  induction n as [|n IH]; intros Hk Hf; [lia|].
  rewrite fsum_S.
  destruct (Nat.eq_dec k n) as [->|Hne].
  - rewrite Hf. apply fl_add_nan_r.
  - rewrite IH by (try lia; exact Hf). reflexivity.
Qed.

Lemma fl_div_nan_r (x : fl) : fl_div x NaN = NaN.
Proof. destruct x; reflexivity. Qed.

(** A NaN scale for one series makes the weighted scaled metric NaN. *)
Lemma eval_weighted_scale_nan (metric : string) (value x weight r : tensor fl)
  (bs b : list nat) :
  _get_metric_scale metric x = inr r ->
  shape r = bs -> shape value = bs -> shape weight = bs ->
  valid bs b -> item r b = NaN ->
  eval_weighted_scale metric value x weight = inr NaN.
Proof.
  intros Hr Hrs Hvs Hws Hb Hn. unfold eval_weighted_scale.
  rewrite Hr. cbn [bind].
  destruct (tmap2_same_shape fl_mul weight value bs Hws Hvs)
    as (wv & -> & Hwvs & Hwvi).
  cbn [bind].
  destruct (tmap2_same_shape fl_div wv r bs Hwvs Hrs)
    as (q & -> & Hqs & Hqi).
  cbn [bind]. unfold ret, sum_all. cbn [item]. rewrite Hqs. f_equal.
  apply (fsum_nan _ (ravel bs b)); [apply ravel_lt; exact Hb|].
  rewrite unravel_ravel, Hqi, Hn by exact Hb. apply fl_div_nan_r.
Qed.

(** C5 (as amended).  For a training tensor in which every series has an
    active time of at least 1 and the series [b] has active time exactly 1,
    the scale estimator returns a value for that series instead of raising
    an error, and that value is non-finite (NaN or an infinity); when it is
    NaN, the weighted scaled metric of the window is NaN. *)
Theorem degenerate_scale (metric : string) (x : tensor fl)
  (bs b : list nat) (T D : nat) :
  shape x = bs ++ [T; D] ->
  (forall b', valid bs b' -> (1 <= active_count x T D b')%Z) ->
  valid bs b ->
  active_count x T D b = 1%Z ->
  exists r,
    _get_metric_scale metric x = inr r
    /\ shape r = bs
    /\ fl_nonfinite (item r b)
    /\ forall value weight,
         shape value = bs -> shape weight = bs -> item r b = NaN ->
         eval_weighted_scale metric value x weight = inr NaN.
Proof.
  intros Hx Hall Hb H1.
  destruct (get_metric_scale_item metric x bs b T D Hx Hall Hb)
    as (r & Hr & Hrs & Hri).
  exists r. split; [exact Hr|]. split; [exact Hrs|]. split.
  - rewrite Hri, H1. unfold scale_at.
    apply fl_pow_recip_nonfinite.
    change (fl_of_Z (1 - 1)) with (Fin 0).
    apply fl_div_zero_nonfinite.
  - intros value weight Hvs Hws Hn.
    apply (eval_weighted_scale_nan metric value x weight r bs b);
      assumption.
Qed.

(** An instance: the series 0, 0, 3 has a single active step; its scale is
    0 / 0. *)
Lemma degenerate_scale_witness :
  exists r,
    _get_metric_scale "mae" (series [0; 0; 3]%R) = inr r
    /\ shape r = []
    /\ fl_nonfinite (item r [])
    /\ forall value weight,
         shape value = [] -> shape weight = [] -> item r [] = NaN ->
         eval_weighted_scale "mae" value (series [0; 0; 3]%R) weight
         = inr NaN.
Proof.
  assert (Hac : active_count (series [0; 0; 3]%R) 3 1 [] = 1%Z) by fl_eval.
  apply (degenerate_scale "mae" (series [0; 0; 3]%R) [] [] 3 1).
  - reflexivity.
  - intros b' Hb'. apply valid_nil_inv in Hb'. subst b'. rewrite Hac. lia.
  - constructor.
  - exact Hac.
Defined.

(* ================================================================= *)
(** ** The minimum training window *)

Lemma reduce_last_snoc {A : Type} (add : A -> A -> A) (zero : A)
  (t : tensor A) (l : list nat) (n : nat) :
  shape t = l ++ [n] ->
  reduce_last add zero false t
  = mkT l (fun idx => bigsum add zero n (fun k => item t (idx ++ [k]))).
Proof.
  intros H. unfold reduce_last, dimm1. rewrite H, last_last, removelast_last.
  destruct (l ++ [n]) eqn:E; [destruct l; discriminate | reflexivity].
Qed.

Lemma cumsum_last_snoc (t : tensor fl) (l : list nat) (n : nat) :
  shape t = l ++ [n] ->
  cumsum_last t
  = mkT (l ++ [n])
      (fun idx =>
         fsum (S (last idx 0)) (fun k => item t (removelast idx ++ [k]))).
Proof.
  intros H. unfold cumsum_last. rewrite H.
  destruct (l ++ [n]) eqn:E; [destruct l; discriminate | reflexivity].
Qed.

(** The tensor of per-series counts that [required_train_window]
    maximizes. *)
Lemma zero_counts_item (data : tensor fl) (bs : list nat) (T D : nat) :
  shape data = bs ++ [T; D] ->
  exists c,
    reduce_last Z.add 0%Z false
      (tmap (fun v => Z.b2z (fl_eqb v (Fin 0)))
         (cumsum_last (sum_last false data))) = c
    /\ shape c = bs
    /\ forall b, item c b = zero_count data T D b.
Proof.
  intros H. unfold sum_last.
  rewrite (reduce_last_snoc fl_add (Fin 0) data (bs ++ [T]) D)
    by (rewrite H, app_snoc2; reflexivity).
  rewrite (cumsum_last_snoc _ bs T) by reflexivity.
  rewrite (reduce_last_snoc Z.add 0%Z _ bs T) by reflexivity.
  eexists. split; [reflexivity|]. split; [reflexivity|].
  intros b. cbn [item tmap]. unfold zero_count, zsum.
  apply bigsum_ext. intros t Ht. do 2 f_equal.
  rewrite last_last, removelast_last. unfold cum_sum.
  apply fsum_ext. intros k Hk. unfold chan_sum.
  apply fsum_ext. intros d Hd. rewrite app_snoc2. reflexivity.
Qed.

Lemma fold_max_spec (f : nat -> Z) (l : list nat) (x0 : nat) :
  let m := fold_right Z.max (f x0) (map f l) in
  (exists k, In k (x0 :: l) /\ m = f k)
  /\ forall k, In k (x0 :: l) -> (f k <= m)%Z.
Proof.
  induction l as [|y l IH]; cbn [map fold_right].
  - split; [exists x0; split; [left; reflexivity | reflexivity]|].
    intros k [<-|[]]. lia.
  - destruct IH as [(k & Hk & Hm) Hle].
    set (m := fold_right Z.max (f x0) (map f l)) in *.
    split.
    + destruct (Z.max_spec (f y) m) as [[_ ->]|[_ ->]].
      * exists k. split; [|exact Hm].
        destruct Hk as [<-|Hk]; [left; reflexivity | right; right; exact Hk].
      * exists y. split; [right; left; reflexivity | reflexivity].
    + intros j [E|[E|Hj]].
      * specialize (Hle j (or_introl E)). lia.
      * subst j. lia.
      * specialize (Hle j (or_intror Hj)). lia.
Qed.

Lemma max_all_spec (t : tensor Z) :
  numel (shape t) <> 0 ->
  exists m,
    max_all t = inr m
    /\ (exists n, n < numel (shape t) /\ m = item t (unravel (shape t) n))
    /\ forall n, n < numel (shape t) ->
         (item t (unravel (shape t) n) <= m)%Z.
Proof.
  intros Hn. unfold max_all.
  destruct (numel (shape t)) as [|n']; [contradiction|].
  destruct (fold_max_spec (fun k => item t (unravel (shape t) k))
              (seq 1 n') 0) as [(k & Hk & Hm) Hle].
  eexists. split; [reflexivity|]. split.
  - exists k. split; [|exact Hm].
    destruct Hk as [<-|Hk]; [lia | apply in_seq in Hk; lia].
  - intros n Hlt. apply Hle.
    destruct n as [|n]; [left; reflexivity|].
    right. apply in_seq. lia.
Qed.

(** *** Non-negative data: the zero steps of the cumulative sum are the
    leading run of all-zero steps *)

Lemma fl_eqb_zero_add (x y : fl) :
  fl_nonneg x -> fl_nonneg y ->
  fl_eqb (fl_add x y) (Fin 0) = fl_eqb x (Fin 0) && fl_eqb y (Fin 0).
Proof.
  intros (a & -> & Ha) (c & -> & Hc). cbn [fl_add fl_eqb].
  destruct (Req_dec_T (a + c) 0), (Req_dec_T a 0), (Req_dec_T c 0);
    try reflexivity; lra.
Qed.

Lemma fsum_zero_forallb (n : nat) (f : nat -> fl) :
  (forall k, k < n -> fl_nonneg (f k)) ->
  fl_eqb (fsum n f) (Fin 0)
  = forallb (fun k => fl_eqb (f k) (Fin 0)) (seq 0 n).
Proof.
  induction n as [|n IH]; intros H.
  - cbn. destruct (Req_dec_T 0 0); [reflexivity | contradiction].
  - rewrite fsum_S, seq_S, forallb_app.
    rewrite fl_eqb_zero_add
      by (try apply fsum_nonneg; intros; apply H; lia).
    rewrite IH by (intros; apply H; lia).
    cbn [forallb Nat.add]. rewrite andb_true_r. reflexivity.
Qed.

Lemma forallb_ext_in {A : Type} (f g : A -> bool) (l : list A) :
  (forall x, In x l -> f x = g x) -> forallb f l = forallb g l.
Proof.
  induction l as [|x l IH]; intros H; [reflexivity|].
  cbn [forallb]. rewrite H by (left; reflexivity).
  rewrite IH by (intros; apply H; right; assumption). reflexivity.
Qed.

Lemma leading_run_le (f : nat -> bool) (n : nat) : leading_run f n <= n.
Proof.
  induction n as [|n IH]; [apply Nat.le_refl|].
  cbn [leading_run]. destruct (_ && _); lia.
Qed.

Lemma forallb_leading_run (f : nat -> bool) (n : nat) :
  forallb f (seq 0 n) = Nat.eqb (leading_run f n) n.
Proof.
  induction n as [|n IH]; [reflexivity|].
  rewrite seq_S, forallb_app, IH. cbn [forallb Nat.add leading_run].
  rewrite andb_true_r.
  destruct (Nat.eqb (leading_run f n) n && f n) eqn:E.
  - symmetry. apply Nat.eqb_refl.
  - symmetry. apply Nat.eqb_neq. pose proof (leading_run_le f n). lia.
Qed.

Lemma zsum_leading_run (f : nat -> bool) (n : nat) :
  zsum n (fun t => Z.b2z (forallb f (seq 0 (S t))))
  = Z.of_nat (leading_run f n).
Proof.
  induction n as [|n IH]; [reflexivity|].
  rewrite zsum_S, IH, forallb_leading_run. cbn [leading_run].
  destruct (Nat.eqb (leading_run f n) n && f n) eqn:E.
  - rewrite Nat.eqb_refl. apply andb_prop in E. destruct E as [E _].
    apply Nat.eqb_eq in E. cbn [Z.b2z]. lia.
  - replace (Nat.eqb (leading_run f n) (S n)) with false.
    + cbn [Z.b2z]. lia.
    + symmetry. apply Nat.eqb_neq. pose proof (leading_run_le f n). lia.
Qed.

Lemma zero_count_leading_zeros (x : tensor fl) (bs b : list nat)
  (T D : nat) :
  shape x = bs ++ [T; D] ->
  (forall idx, valid (shape x) idx -> fl_nonneg (item x idx)) ->
  valid bs b ->
  zero_count x T D b = Z.of_nat (leading_zeros x T D b).
Proof.
  intros Hx Hnn Hb. unfold zero_count, leading_zeros.
  rewrite <- zsum_leading_run. apply bigsum_ext. intros t Ht. f_equal.
  assert (Hitem : forall t' d, t' < T -> d < D ->
                    fl_nonneg (item x (b ++ [t'; d]))).
  { intros t' d Ht' Hd. apply Hnn. rewrite Hx.
    apply valid_td; assumption. }
  unfold cum_sum. rewrite fsum_zero_forallb.
  - apply forallb_ext_in. intros t' Ht'. apply in_seq in Ht'.
    unfold chan_sum, zero_step. apply fsum_zero_forallb.
    intros d Hd. apply Hitem; [lia | exact Hd].
  - intros t' Ht'. unfold chan_sum. apply fsum_nonneg.
    intros d Hd. apply Hitem; [lia | exact Hd].
Qed.

Lemma required_train_window_max (data : tensor fl) (bs b0 : list nat)
  (T D : nat) :
  shape data = bs ++ [T; D] ->
  valid bs b0 ->
  exists m,
    required_train_window data = inr m
    /\ (exists b, valid bs b /\ m = (zero_count data T D b + 2)%Z)
    /\ forall b, valid bs b -> (zero_count data T D b + 2 <= m)%Z.
Proof.
  intros Hx Hb0. unfold required_train_window.
  destruct (zero_counts_item data bs T D Hx) as (c & -> & Hcs & Hci).
  destruct (max_all_spec c) as (m & -> & (n & Hn & Hm) & Hle).
  { rewrite Hcs. eapply valid_numel. exact Hb0. }
  rewrite Hcs in *. cbn [bind ret].
  eexists. split; [reflexivity|]. split.
  - exists (unravel bs n). split; [apply unravel_valid; exact Hn|].
    rewrite Hm, Hci. reflexivity.
  - intros b Hb. specialize (Hle (ravel bs b) (ravel_lt _ _ Hb)).
    rewrite unravel_ravel, Hci in Hle by exact Hb. lia.
Qed.

Lemma m5_setup_window
  (crps_empirical : tensor fl -> tensor fl -> result (tensor fl))
  (sample_quantile : list fl -> fl -> fl) (quantiles : list R)
  (data : tensor fl) (weight : option (tensor fl)) (kw kw' : kwargs)
  (w : tensor fl) (log : list logmsg) (m : Z) :
  required_train_window data = inr m ->
  m5_setup crps_empirical sample_quantile quantiles data weight kw
  = inr (w, kw', log) ->
  (kw_min_train_window kw', log)
  = if (match kw_min_train_window kw with None => 1 | Some n => n end
        <? m)%Z
    then (Some m, [MinTrainWindowSet m])
    else (kw_min_train_window kw, []).
Proof.
  intros Hm. unfold m5_setup.
  destruct (negb _); [discriminate|].
  destruct (normalize_weight _ _) as [e|w0]; [discriminate|].
  cbn [bind]. rewrite Hm. cbn [bind].
  destruct (_ <? _)%Z; intros E; inversion E; reflexivity.
Qed.

(** C4 (as amended).  For non-negative data with at least one series,
    [m5_backtest] computes, over every series, the length of the leading run
    of time steps whose response is zero in all channels, takes the maximum
    of those lengths plus 2, and whenever the caller's [min_train_window]
    (1 when absent) is smaller than that value, replaces it by that value
    and logs a message; the keyword arguments so obtained are the ones the
    backtest routine is called with. *)
Theorem min_train_window_raised
  (crps_empirical : tensor fl -> tensor fl -> result (tensor fl))
  (sample_quantile : list fl -> fl -> fl) (quantiles : list R)
  (backtest : tensor fl -> kwargs -> result (list window))
  (data : tensor fl) (weight : option (tensor fl)) (kw : kwargs)
  (bs b0 : list nat) (T D : nat) :
  shape data = bs ++ [T; D] ->
  (forall idx, valid (shape data) idx -> fl_nonneg (item data idx)) ->
  valid bs b0 ->
  exists m,
    required_train_window data = inr m
    /\ (exists b, valid bs b
                  /\ m = (Z.of_nat (leading_zeros data T D b) + 2)%Z)
    /\ (forall b, valid bs b ->
          (Z.of_nat (leading_zeros data T D b) + 2 <= m)%Z)
    /\ forall w kw' log,
         m5_setup crps_empirical sample_quantile quantiles data weight kw
         = inr (w, kw', log) ->
         (kw_min_train_window kw', log)
         = (if (match kw_min_train_window kw with
                | None => 1
                | Some n => n
                end <? m)%Z
            then (Some m, [MinTrainWindowSet m])
            else (kw_min_train_window kw, []))
         /\ m5_backtest crps_empirical sample_quantile quantiles backtest
              data weight kw
            = (windows <- backtest data kw' ;;
               windows' <- ws_windows (metric_names kw') data windows w ;;
               ret (windows', log)).
Proof.
  intros Hx Hnn Hb0.
  destruct (required_train_window_max data bs b0 T D Hx Hb0)
    as (m & Hm & (b & Hb & Hmb) & Hle).
  exists m. split; [exact Hm|]. split; [|split].
  - exists b. split; [exact Hb|].
    rewrite <- (zero_count_leading_zeros data bs b T D Hx Hnn Hb).
    exact Hmb.
  - intros b' Hb'.
    rewrite <- (zero_count_leading_zeros data bs b' T D Hx Hnn Hb').
    apply Hle. exact Hb'.
  - intros w kw' log Hs. split.
    + eapply m5_setup_window; eassumption.
    + unfold m5_backtest. rewrite Hs. reflexivity.
Qed.

(** An instance: the series 0, 0, 3, whose leading run of zeros has
    length 2. *)
Lemma min_train_window_raised_witness :
  exists m,
    required_train_window (series [0; 0; 3]%R) = inr m
    /\ (exists b, valid [] b
          /\ m = (Z.of_nat (leading_zeros (series [0; 0; 3]%R) 3 1 b) + 2)%Z)
    /\ (forall b, valid [] b ->
          (Z.of_nat (leading_zeros (series [0; 0; 3]%R) 3 1 b) + 2 <= m)%Z)
    /\ forall w kw' log,
         m5_setup (fun _ _ => inl DimError) (fun l _ => hd NaN l) [0.5%R]
           (series [0; 0; 3]%R) None (mkKw None None)
         = inr (w, kw', log) ->
         (kw_min_train_window kw', log)
         = (if (1 <? m)%Z
            then (Some m, [MinTrainWindowSet m])
            else (None, []))
         /\ m5_backtest (fun _ _ => inl DimError) (fun l _ => hd NaN l)
              [0.5%R] (fun _ _ => inr []) (series [0; 0; 3]%R) None
              (mkKw None None)
            = (windows <- inr [] ;;
               windows' <- ws_windows (metric_names kw')
                             (series [0; 0; 3]%R) windows w ;;
               ret (windows', log)).
Proof.
  apply (min_train_window_raised _ _ _ (fun _ _ => inr [])
           (series [0; 0; 3]%R) None (mkKw None None) [] [] 3 1).
  - reflexivity.
  - intros idx _. unfold series. cbn [item].
    destruct (hd 0 idx) as [|[|[|[|n]]]]; cbn [nth];
      eexists; (split; [reflexivity | lra]).
  - constructor.
Defined.

(** C4, the counterexample: the series 1, -1, 5 has no leading zero step,
    so the claimed value is 0 + 2 = 2; the code counts the one step at
    which the cumulative sum is zero and requires 3. *)
Lemma window_counts_zero_cumsums :
  leading_zeros (series [1; -1; 5]%R) 3 1 [] = 0
  /\ required_train_window (series [1; -1; 5]%R) = inr 3%Z
  /\ 3%Z <> (Z.of_nat 0 + 2)%Z.
Proof.
  split; [|split; [|discriminate]].
  - unfold leading_zeros, zero_step.
    cbv [leading_run seq forallb series item nth hd app fl_eqb Nat.eqb andb].
    fl_decide; reflexivity.
  - destruct (required_train_window_max (series [1; -1; 5]%R) [] [] 3 1)
      as (m & Hm & (b & Hb & Hmb) & _);
      [reflexivity | constructor |].
    apply valid_nil_inv in Hb. subst b.
    replace (zero_count (series [1; -1; 5]%R) 3 1 []) with 1%Z in Hmb
      by (symmetry; fl_eval).
    rewrite Hm, Hmb. reflexivity.
Qed.

(* ================================================================= *)
(** ** The window loop on a univariate series *)

(** An instance: the series 1, 2, 4 with two windows. *)
Lemma m5_backtest_second_window_fails_witness :
  exists e,
    m5_backtest (fun _ _ => inl DimError) (fun l _ => hd NaN l) [0.5%R]
      (fun _ _ => inr [example_window 2; example_window 3])
      (series [1; 2; 4]%R) None (mkKw None None) = inl e.
Proof.
  apply (m5_backtest_second_window_fails _ _ _ _ _ _ _ 3 1).
  - reflexivity.
  - intros kw' ws E. inversion E. simpl. lia.
Defined.

Lemma ws_windows_second_index_error (names : list string)
  (data : tensor fl) (w1 w2 w1' : window) (rest : list window)
  (weight weight1 train train' : tensor fl) (n : nat) (t1 t1' : Z) :
  shape weight = [n] ->
  get_int w1 "t1" = inr t1 ->
  slice_m2_to t1 data = inr train ->
  index0 (t1 - 1) weight = inr weight1 ->
  ws_metrics names w1 train weight1 = inr w1' ->
  get_int w2 "t1" = inr t1' ->
  slice_m2_to t1' data = inr train' ->
  ws_windows names data (w1 :: w2 :: rest) weight = inl IndexError.
Proof.
  intros Hs H1 H2 H3 H4 H5 H6. cbn [ws_windows].
  rewrite H1. cbn [bind]. rewrite H2. cbn [bind]. rewrite H3. cbn [bind].
  rewrite H4. cbn [bind]. rewrite H5. cbn [bind]. rewrite H6. cbn [bind].
  rewrite index0_scalar by (eapply index0_shape; eassumption).
  reflexivity.
Qed.

Lemma eval_weighted_scale_scalar (metric : string)
  (value x weight r : tensor fl) :
  _get_metric_scale metric x = inr r ->
  shape r = [] -> shape value = [] -> shape weight = [] ->
  exists v, eval_weighted_scale metric value x weight = inr v.
Proof.
  intros Hr Hrs Hvs Hws. unfold eval_weighted_scale.
  rewrite Hr. cbn [bind].
  destruct (tmap2_same_shape fl_mul weight value [] Hws Hvs)
    as (wv & -> & Hwvs & _).
  cbn [bind].
  destruct (tmap2_same_shape fl_div wv r [] Hwvs Hrs) as (q & -> & _ & _).
  cbn [bind]. eexists. reflexivity.
Qed.

(** C1, at the failing input: the univariate series 1, 2, 4 (shape
    [[3; 1]]), no weights, the default metrics, and two windows with
    [t1 = 2] and [t1 = 3].  The first window is scored; for the second the
    loop indexes the 0-dim weight left by the first, and the call ends in
    an index error. *)
Lemma m5_backtest_index_error :
  m5_backtest (fun _ _ => inl DimError) (fun l _ => hd NaN l) [0.5%R]
    (fun _ _ => inr [example_window 2; example_window 3])
    (series [1; 2; 4]%R) None (mkKw None None) = inl IndexError.
Proof.
  destruct (required_train_window_max (series [1; 2; 4]%R) [] [] 3 1)
    as (m & Hm & _); [reflexivity | constructor |].
  unfold m5_backtest, m5_setup, shape_eqb, new_ones.
  cbn [shape series length removelast].
  destruct (list_eq_dec Nat.eq_dec [3] [3]) as [_|Hne];
    [|exfalso; apply Hne; reflexivity].
  cbn [negb].
  destruct (normalize_weight (series [1; 2; 4]%R) (mkT [3] (fun _ => Fin 1)))
    as [e|w] eqn:Hw; [discriminate Hw|].
  assert (Hws : shape w = [3]).
  { apply (normalize_weight_shape (series [1; 2; 4]%R)
             (mkT [3] (fun _ => Fin 1)) w 3 1 eq_refl eq_refl Hw). }
  cbn [bind]. change (shape (series [1; 2; 4]%R)) with [3; 1] in Hm.
  rewrite Hm. cbn [bind kw_metrics kw_min_train_window].
  set (train := mkT [2; 1] (item (series [1; 2; 4]%R))).
  assert (Hsl2 : slice_m2_to 2 (series [1; 2; 4]%R) = inr train)
    by reflexivity.
  assert (Hsl3 : exists train',
             slice_m2_to 3 (series [1; 2; 4]%R) = inr train')
    by (eexists; reflexivity).
  destruct Hsl3 as (train' & Hsl3).
  destruct (index0 (2 - 1) w) as [e|w1] eqn:Hi.
  { unfold index0 in Hi. rewrite Hws in Hi. discriminate Hi. }
  assert (Hw1 : shape w1 = []) by (eapply index0_shape; eassumption).
  assert (Hac : active_count train 2 1 [] = 2%Z).
  { unfold train. fl_eval. }
  assert (Hscale : forall metric,
            exists r, _get_metric_scale metric train = inr r
                      /\ shape r = []).
  { intros metric.
    destruct (get_metric_scale_item metric train [] [] 2 1)
      as (r & Hr & Hrs & _).
    - reflexivity.
    - intros b' Hb'. apply valid_nil_inv in Hb'. subst b'.
      rewrite Hac. lia.
    - constructor.
    - exists r. split; assumption. }
  assert (Hmet : exists w1',
            ws_metrics ["mae"; "rmse"; "crps"; "pl"]%string
              (example_window 2) train w1 = inr w1').
  { unfold example_window. cbn [ws_metrics get_tensor dict_get String.eqb
      Ascii.eqb Bool.eqb bind ret].
    destruct (Hscale "mae"%string) as (r1 & Hr1 & Hs1).
    destruct (eval_weighted_scale_scalar "mae" (mkT [] (fun _ => Fin 1))
                train w1 r1 Hr1 Hs1 eq_refl Hw1) as (v1 & ->).
    cbn [bind dict_set String.eqb Ascii.eqb Bool.eqb append get_tensor
         dict_get ret].
    destruct (Hscale "rmse"%string) as (r2 & Hr2 & Hs2).
    destruct (eval_weighted_scale_scalar "rmse" (mkT [] (fun _ => Fin 1))
                train w1 r2 Hr2 Hs2 eq_refl Hw1) as (v2 & ->).
    cbn [bind dict_set String.eqb Ascii.eqb Bool.eqb append get_tensor
         dict_get ret].
    destruct (Hscale "crps"%string) as (r3 & Hr3 & Hs3).
    destruct (eval_weighted_scale_scalar "crps" (mkT [] (fun _ => Fin 1))
                train w1 r3 Hr3 Hs3 eq_refl Hw1) as (v3 & ->).
    cbn [bind dict_set String.eqb Ascii.eqb Bool.eqb append get_tensor
         dict_get ret].
    destruct (Hscale "pl"%string) as (r4 & Hr4 & Hs4).
    destruct (eval_weighted_scale_scalar "pl" (mkT [] (fun _ => Fin 1))
                train w1 r4 Hr4 Hs4 eq_refl Hw1) as (v4 & ->).
    cbn [bind]. eexists. reflexivity. }
  destruct Hmet as (w1' & Hmet).
  assert (Hloop : ws_windows ["mae"; "rmse"; "crps"; "pl"]%string
                    (series [1; 2; 4]%R)
                    [example_window 2; example_window 3] w
                  = inl IndexError).
  { apply (ws_windows_second_index_error
             ["mae"; "rmse"; "crps"; "pl"]%string (series [1; 2; 4]%R)
             (example_window 2) (example_window 3) w1' [] w w1 train train'
             3 2 3 Hws eq_refl Hsl2 Hi Hmet eq_refl Hsl3). }
  destruct (1 <? m)%Z.
  - cbn [bind ret kw_metrics DEFAULT_METRICS map fst].
    rewrite Hloop. reflexivity.
  - cbn [bind ret kw_metrics DEFAULT_METRICS map fst].
    rewrite Hloop. reflexivity.
Qed.

(** A check of the whole scoring path on numbers: for the training series
    1, 2 the naive scale of the MAE is ((1 + 1) - 1) / (2 - 1) = 1, so a
    metric value of 1 with weight 1 scores 1. *)
Lemma eval_weighted_scale_example :
  eval_weighted_scale "mae" (mkT [] (fun _ => Fin 1)) (series [1; 2]%R)
    (mkT [] (fun _ => Fin 1)) = inr (Fin 1).
Proof.
  assert (Hac : active_count (series [1; 2]%R) 2 1 [] = 2%Z) by fl_eval.
  destruct (get_metric_scale_item "mae" (series [1; 2]%R) [] [] 2 1)
    as (r & Hr & Hrs & Hri).
  - reflexivity.
  - intros b' Hb'. apply valid_nil_inv in Hb'. subst b'. rewrite Hac. lia.
  - constructor.
  - assert (H1 : item r [] = Fin 1).
    { rewrite Hri, Hac. change (metric_norm "mae") with 1.
      change (Z.to_nat (Z.of_nat 2 - 2)) with 0. fl_eval. }
    unfold eval_weighted_scale. rewrite Hr. cbn [bind].
    destruct (tmap2_same_shape fl_mul (mkT [] (fun _ => Fin 1))
                (mkT [] (fun _ => Fin 1)) [] eq_refl eq_refl)
      as (wv & -> & Hwvs & Hwvi).
    cbn [bind].
    destruct (tmap2_same_shape fl_div wv r [] Hwvs Hrs)
      as (q & -> & Hqs & Hqi).
    cbn [bind]. unfold ret, sum_all. cbn [item]. rewrite Hqs.
    cbn [numel fold_right unravel]. unfold fsum. cbn [bigsum].
    rewrite Hqi, Hwvi, H1 by constructor. cbn [item]. fl_eval.
    do 2 f_equal. lra.
Qed.

(** A check of the RMSE on numbers: two samples 3 and 5 against the truth
    2 give the ensemble mean 4 and the error 2. *)
Lemma eval_rmse_example :
  exists r,
    eval_rmse
      (mkT [2; 1; 1]
         (fun idx => match idx with 0 :: _ => Fin 3 | _ => Fin 5 end))
      (mkT [1; 1] (fun _ => Fin 2)) = inr r
    /\ item r [] = Fin 2.
Proof.
  destruct (eval_rmse_item
              (mkT [2; 1; 1]
                 (fun idx => match idx with 0 :: _ => Fin 3 | _ => Fin 5 end))
              (mkT [1; 1] (fun _ => Fin 2)) 2 1 1 [] [])
    as (r & Hr & _ & Hi);
    [reflexivity | reflexivity | constructor |].
  exists r. split; [exact Hr|]. rewrite Hi.
  unfold rmse_spec, mean_td, sq_dev.
  cbv [fmean fsum bigsum item app fl_add fl_sub fl_opp fl_mul fl_div
       fl_of_nat INR Nat.mul Nat.add].
  fl_decide.
  match goal with
  | |- fl_sqrt (Fin ?e) = _ => replace e with (2 * 2)%R by lra
  end.
  unfold fl_sqrt. destruct (Rlt_dec (2 * 2) 0); [lra|].
  f_equal. rewrite sqrt_square by lra. reflexivity.
Qed.

(** A check of the degenerate case on numbers: the series 0, 0, 3 has one
    active step, its scale is (3 - 3) / (1 - 1) = NaN, and so is the
    weighted scaled metric. *)
Lemma degenerate_scale_example :
  exists r,
    _get_metric_scale "mae" (series [0; 0; 3]%R) = inr r
    /\ item r [] = NaN
    /\ eval_weighted_scale "mae" (mkT [] (fun _ => Fin 1))
         (series [0; 0; 3]%R) (mkT [] (fun _ => Fin 1)) = inr NaN.
Proof.
  assert (Hac : active_count (series [0; 0; 3]%R) 3 1 [] = 1%Z) by fl_eval.
  destruct (get_metric_scale_item "mae" (series [0; 0; 3]%R) [] [] 3 1)
    as (r & Hr & Hrs & Hri).
  - reflexivity.
  - intros b' Hb'. apply valid_nil_inv in Hb'. subst b'. rewrite Hac. lia.
  - constructor.
  - assert (Hn : item r [] = NaN).
    { rewrite Hri, Hac. change (metric_norm "mae") with 1.
      change (Z.to_nat (Z.of_nat 3 - 1)) with 2. fl_eval. }
    exists r. split; [exact Hr|]. split; [exact Hn|].
    apply (eval_weighted_scale_nan "mae" _ _ _ r [] []);
      [exact Hr | exact Hrs | reflexivity | reflexivity | constructor
      | exact Hn].
Qed.

(* ================================================================= *)
(** ** Further properties of the metrics *)

(** X1.  For a non-empty prediction ensemble of shape
    [S n :: bs ++ [T; D]] and a truth tensor of shape [bs ++ [T; D]],
    [eval_mae] returns one value per batch element: the mean over time and
    channels of the absolute deviation of the median across samples (the
    lower of the two middle values for an even count) from the truth. *)
Theorem eval_mae_spec (pred truth : tensor fl) (n T D : nat)
  (bs b : list nat) :
  shape pred = S n :: bs ++ [T; D] ->
  shape truth = bs ++ [T; D] ->
  valid bs b ->
  exists r,
    eval_mae pred truth = inr r
    /\ shape r = bs
    /\ item r b = mae_spec T D pred truth b.
Proof. apply eval_mae_item. Qed.

Lemma eval_mae_spec_witness :
  exists r,
    eval_mae (mkT [1; 1; 1] (fun _ => Fin 3)) (mkT [1; 1] (fun _ => Fin 1))
    = inr r
    /\ shape r = []
    /\ item r [] = mae_spec 1 1 (mkT [1; 1; 1] (fun _ => Fin 3))
                     (mkT [1; 1] (fun _ => Fin 1)) [].
Proof.
  apply (eval_mae_spec _ _ 0 1 1 [] []); [reflexivity | reflexivity |].
  constructor.
Defined.

Lemma eval_crps_item
  (crps_empirical : tensor fl -> tensor fl -> result (tensor fl))
  (pred truth c : tensor fl) (T D : nat) (bs b : list nat) :
  crps_empirical pred truth = inr c ->
  shape c = bs ++ [T; D] ->
  shape truth = bs ++ [T; D] ->
  valid bs b ->
  exists r,
    eval_crps crps_empirical pred truth = inr r
    /\ shape r = bs
    /\ item r b = mean_td T D (fun t d => item c (b ++ [t; d])).
Proof.
  intros Hc Hcs Ht Hb. unfold eval_crps. rewrite Hc. cbn [bind].
  destruct (flatten_mean c truth bs b T D Hcs) as (flat & -> & Hfs & Hfi);
    [rewrite Ht; apply init2_app2 | exact Hb |].
  cbn [bind]. eexists. split; [reflexivity|]. split; assumption.
Qed.

(** X2.  When the library's [crps_empirical] returns a score tensor of the
    shape of the truth, [eval_crps] returns one value per batch element,
    the mean of the scores over time and channels; when it fails,
    [eval_crps] fails with the same error. *)
Theorem eval_crps_spec
  (crps_empirical : tensor fl -> tensor fl -> result (tensor fl))
  (pred truth : tensor fl) (T D : nat) (bs b : list nat) :
  shape truth = bs ++ [T; D] ->
  valid bs b ->
  (forall c,
     crps_empirical pred truth = inr c ->
     shape c = bs ++ [T; D] ->
     exists r,
       eval_crps crps_empirical pred truth = inr r
       /\ shape r = bs
       /\ item r b = mean_td T D (fun t d => item c (b ++ [t; d])))
  /\ (forall e,
        crps_empirical pred truth = inl e ->
        eval_crps crps_empirical pred truth = inl e).
Proof.
  intros Ht Hb. split.
  - intros c Hc Hcs.
    apply (eval_crps_item crps_empirical pred truth c T D bs b);
      assumption.
  - intros e He. unfold eval_crps. rewrite He. reflexivity.
Qed.

Lemma eval_crps_spec_witness :
  (forall c,
     ret (mkT [1; 1] (fun _ => Fin 1)) = inr c ->
     shape c = [1; 1] ->
     exists r,
       eval_crps (fun _ t => ret t) (mkT [1; 1; 1] (fun _ => Fin 3))
         (mkT [1; 1] (fun _ => Fin 1)) = inr r
       /\ shape r = []
       /\ item r [] = mean_td 1 1 (fun t d => item c [t; d]))
  /\ (forall e,
        ret (mkT [1; 1] (fun _ => Fin 1)) = inl e ->
        eval_crps (fun _ t => ret t) (mkT [1; 1; 1] (fun _ => Fin 3))
          (mkT [1; 1] (fun _ => Fin 1)) = inl e).
Proof.
  apply (eval_crps_spec (fun _ t => ret t) (mkT [1; 1; 1] (fun _ => Fin 3))
           (mkT [1; 1] (fun _ => Fin 1)) 1 1 [] []).
  - reflexivity.
  - constructor.
Defined.

(** *** A perfect ensemble *)

Lemma map_const_repeat {A B : Type} (f : A -> B) (x : B) (l : list A) :
  (forall a, In a l -> f a = x) -> map f l = repeat x (length l).
Proof.
  induction l as [|a l IH]; intros H; [reflexivity|].
  cbn [map length repeat]. rewrite H by (left; reflexivity).
  rewrite IH by (intros; apply H; right; assumption). reflexivity.
Qed.

Lemma samples_const (pred : tensor fl) (n : nat) (s idx : list nat)
  (x : fl) :
  shape pred = n :: s ->
  (forall k, k < n -> item pred (k :: idx) = x) ->
  samples pred idx = repeat x n.
Proof.
  intros Hp H. unfold samples. rewrite Hp. cbn [hd].
  rewrite (map_const_repeat _ x).
  - rewrite length_seq. reflexivity.
  - intros k Hk. apply in_seq in Hk. apply H. lia.
Qed.

Lemma fl_leb_refl_fin (a : R) : fl_leb (Fin a) (Fin a) = true.
Proof.
  unfold fl_leb. destruct (Rle_dec a a) as [_|H]; [reflexivity|].
  exfalso. apply H. apply Rle_refl.
Qed.

Lemma fl_sort_repeat_fin (a : R) (n : nat) :
  fl_sort (repeat (Fin a) n) = repeat (Fin a) n.
Proof.
  induction n as [|n IH]; [reflexivity|].
  cbn [repeat fl_sort]. rewrite IH.
  destruct n as [|n]; [reflexivity|].
  cbn [repeat fl_insert]. rewrite fl_leb_refl_fin. reflexivity.
Qed.

Lemma lower_median_repeat_fin (a : R) (n : nat) :
  lower_median (repeat (Fin a) (S n)) = Fin a.
Proof.
  unfold lower_median.
  assert (Hn : existsb fl_is_nan (repeat (Fin a) (S n)) = false).
  { generalize (S n). intros m.
    induction m as [|m IH]; [reflexivity | exact IH]. }
  rewrite Hn, fl_sort_repeat_fin, repeat_length.
  apply nth_error_nth. apply nth_error_repeat.
  apply Nat.Div0.div_lt_upper_bound. lia.
Qed.

Lemma rsum_const (n : nat) (a : R) :
  rsum n (fun _ => a) = (INR n * a)%R.
Proof.
  unfold rsum. induction n as [|n IH].
  - cbn. lra.
  - cbn [bigsum]. rewrite IH, S_INR. lra.
Qed.

Lemma fmean_const_fin (n : nat) (f : nat -> fl) (a : R) :
  (forall k, k < S n -> f k = Fin a) -> fmean (S n) f = Fin a.
Proof.
  intros H. unfold fmean, fl_of_nat.
  rewrite (fsum_Fin (S n) f (fun _ => a) H), rsum_const.
  unfold fl_div.
  assert (Hn : INR (S n) <> 0%R) by (apply not_0_INR; lia).
  destruct (Req_dec_T (INR (S n)) 0); [contradiction|].
  f_equal. field. exact Hn.
Qed.

Lemma mean_td_zero (T D : nat) (f : nat -> nat -> fl) :
  0 < T -> 0 < D ->
  (forall t d, t < T -> d < D -> f t d = Fin 0) ->
  mean_td T D f = Fin 0.
Proof.
  intros HT HD H. unfold mean_td, fl_of_nat.
  rewrite (fsum_Fin T _ (fun _ => 0%R)).
  - rewrite rsum_const. unfold fl_div.
    assert (Hn : INR (T * D) <> 0%R) by (apply not_0_INR; nia).
    destruct (Req_dec_T (INR (T * D)) 0); [contradiction|].
    f_equal. field. exact Hn.
  - intros t Ht. rewrite (fsum_Fin D _ (fun _ => 0%R)).
    + rewrite rsum_const. f_equal. lra.
    + intros d Hd. apply H; assumption.
Qed.

Lemma perfect_ensemble_item (pred truth : tensor fl) (n T D : nat)
  (bs b : list nat) :
  shape pred = S n :: bs ++ [T; D] ->
  shape truth = bs ++ [T; D] ->
  0 < T -> 0 < D ->
  (forall idx, valid (shape truth) idx -> fl_finite (item truth idx)) ->
  (forall k idx, k < S n -> valid (shape truth) idx ->
     item pred (k :: idx) = item truth idx) ->
  valid bs b ->
  mae_spec T D pred truth b = Fin 0
  /\ rmse_spec (S n) T D pred truth b = Fin 0.
Proof.
  intros Hp Ht HT HD Hfin Heq Hb.
  assert (Hv : forall t d, t < T -> d < D ->
                 valid (shape truth) (b ++ [t; d]))
    by (intros; rewrite Ht; apply valid_td; assumption).
  split.
  - unfold mae_spec. apply mean_td_zero; try assumption.
    intros t d Htt Hd.
    destruct (Hfin _ (Hv t d Htt Hd)) as (a & Ha).
    rewrite (samples_const pred (S n) (bs ++ [T; D]) _ (Fin a) Hp)
      by (intros k Hk; rewrite Heq by auto; exact Ha).
    rewrite lower_median_repeat_fin, Ha. cbn [fl_sub fl_opp fl_add fl_abs].
    f_equal. replace (a + - a)%R with 0%R by lra. apply Rabs_R0.
  - unfold rmse_spec.
    rewrite mean_td_zero; try assumption.
    + unfold fl_sqrt. destruct (Rlt_dec 0 0); [lra|].
      f_equal. apply sqrt_0.
    + intros t d Htt Hd. unfold sq_dev.
      destruct (Hfin _ (Hv t d Htt Hd)) as (a & Ha).
      rewrite (fmean_const_fin n _ a)
        by (intros k Hk; rewrite Heq by auto; exact Ha).
      rewrite Ha. cbn [fl_sub fl_opp fl_add fl_mul]. f_equal. lra.
Qed.

(** X3.  When every sample of a non-empty ensemble equals the (finite)
    truth, the MAE and the RMSE are 0 in every batch element. *)
Theorem perfect_ensemble_scores_zero (pred truth : tensor fl)
  (n T D : nat) (bs b : list nat) :
  shape pred = S n :: bs ++ [T; D] ->
  shape truth = bs ++ [T; D] ->
  0 < T -> 0 < D ->
  (forall idx, valid (shape truth) idx -> fl_finite (item truth idx)) ->
  (forall k idx, k < S n -> valid (shape truth) idx ->
     item pred (k :: idx) = item truth idx) ->
  valid bs b ->
  exists mae rmse,
    eval_mae pred truth = inr mae
    /\ eval_rmse pred truth = inr rmse
    /\ item mae b = Fin 0
    /\ item rmse b = Fin 0.
Proof.
  intros Hp Ht HT HD Hfin Heq Hb.
  destruct (eval_mae_item pred truth n T D bs b Hp Ht Hb)
    as (mae & Hmae & _ & Hmi).
  destruct (eval_rmse_item pred truth (S n) T D bs b Hp Ht Hb)
    as (rmse & Hrmse & _ & Hri).
  destruct (perfect_ensemble_item pred truth n T D bs b Hp Ht HT HD Hfin
              Heq Hb) as [H1 H2].
  exists mae, rmse. repeat split; try assumption.
  - rewrite Hmi. exact H1.
  - rewrite Hri. exact H2.
Qed.

Lemma perfect_ensemble_scores_zero_witness :
  exists mae rmse,
    eval_mae (mkT [2; 1; 1] (fun _ => Fin 5)) (mkT [1; 1] (fun _ => Fin 5))
    = inr mae
    /\ eval_rmse (mkT [2; 1; 1] (fun _ => Fin 5))
         (mkT [1; 1] (fun _ => Fin 5)) = inr rmse
    /\ item mae [] = Fin 0
    /\ item rmse [] = Fin 0.
Proof.
  apply (perfect_ensemble_scores_zero _ _ 1 1 1 [] []).
  - reflexivity.
  - reflexivity.
  - lia.
  - lia.
  - intros idx _. exists 5%R. reflexivity.
  - intros k idx _ _. reflexivity.
  - constructor.
Defined.

(* ================================================================= *)
(** ** The normalized weights *)

Lemma infer_shape_rows_ok (N T : nat) :
  T <> 0 ->
  infer_shape [(-1)%Z; Z.of_nat T] (N * T) = Some [N; T].
Proof.
  intros HT. unfold infer_shape. simpl.
  destruct (Z.ltb_spec (Z.of_nat T) (-1)); [lia|].
  destruct (Z.eq_dec (Z.of_nat T) (-1)); [lia|].
  destruct (Z.eqb_spec (Z.of_nat T) (-1)); [lia|].
  simpl. rewrite Nat2Z.id, Nat.mul_1_r.
  destruct (Nat.eqb_spec T 0); [contradiction|].
  rewrite Nat.Div0.mod_mul. simpl.
  rewrite Nat.div_mul by exact HT. reflexivity.
Qed.

Lemma unravel_snoc (bs : list nat) (T s t : nat) :
  s < numel bs -> t < T ->
  unravel (bs ++ [T]) (s * T + t) = unravel bs s ++ [t].
Proof.
  revert s. induction bs as [|d bs IH]; intros s Hs Ht.
  - cbn in Hs. assert (s = 0) by lia. subst s.
    cbn [app unravel numel fold_right Nat.mul Nat.add].
    rewrite Nat.div_1_r. reflexivity.
  - cbn [app unravel]. fold (numel bs) in *.
    cbn [numel fold_right] in Hs. fold (numel bs) in Hs.
    assert (HP : numel bs <> 0) by (intros E; rewrite E in Hs; lia).
    assert (HT : T <> 0) by lia.
    rewrite numel_app. cbn [numel fold_right]. rewrite Nat.mul_1_r.
    f_equal.
    + rewrite (Nat.mul_comm (numel bs) T), <- Nat.Div0.div_div.
      rewrite Nat.div_add_l by exact HT.
      rewrite (Nat.div_small t T) by exact Ht.
      rewrite Nat.add_0_r. reflexivity.
    + rewrite (Nat.mul_comm (numel bs) T), Nat.Div0.mod_mul_r.
      rewrite Nat.div_add_l by exact HT.
      rewrite (Nat.div_small t T) by exact Ht.
      rewrite Nat.add_0_r.
      rewrite (Nat.add_comm (s * T) t), Nat.Div0.mod_add.
      rewrite (Nat.mod_small t T) by exact Ht.
      rewrite (Nat.add_comm t), (Nat.mul_comm T).
      apply IH; [|exact Ht].
      apply Nat.mod_upper_bound. exact HP.
Qed.

Lemma bcast_rev_nil_r (a : list nat) : bcast_rev a [] = Some a.
Proof. destruct a; reflexivity. Qed.

Lemma broadcast_shapes_last (bs : list nat) (T : nat) :
  broadcast_shapes (bs ++ [T]) [T] = Some (bs ++ [T]).
Proof.
  unfold broadcast_shapes. rewrite rev_app_distr. cbn [rev app bcast_rev].
  rewrite Nat.eqb_refl, bcast_rev_nil_r. cbn [option_map rev].
  rewrite rev_involutive. reflexivity.
Qed.

Lemma bidx_last (b : list nat) (T t : nat) :
  t < T -> bidx [T] (b ++ [t]) = [t].
Proof.
  intros Ht. unfold bidx. rewrite length_app. cbn [length].
  replace (length b + 1 - 1) with (length b) by lia.
  rewrite skipn_app, skipn_all, Nat.sub_diag.
  cbn [skipn app combine map fst snd].
  destruct (Nat.eqb_spec T 1); [|reflexivity].
  f_equal. lia.
Qed.

(** The normalized weight of series [b] at time [t] is its weight divided
    by the sum of the weights of all series at that time. *)
Lemma normalize_weight_item (data weight : tensor fl) (bs b : list nat)
  (T D t : nat) :
  shape data = bs ++ [T; D] ->
  shape weight = bs ++ [T] ->
  valid bs b -> t < T ->
  exists wn,
    normalize_weight data weight = inr wn
    /\ shape wn = bs ++ [T]
    /\ forall b', valid bs b' ->
         item wn (b' ++ [t])
         = fl_div (item weight (b' ++ [t]))
             (fsum (numel bs)
                (fun s => item weight (unravel bs s ++ [t]))).
Proof.
  intros Hd Hw Hb Ht.
  unfold normalize_weight, shape_m2. rewrite Hd, rank2_ltb, dimm2_td.
  cbn [bind ret]. unfold reshape. rewrite Hw, numel_app.
  cbn [numel fold_right]. rewrite Nat.mul_1_r.
  rewrite infer_shape_rows_ok by lia.
  cbn [bind ret]. unfold sum0. cbn [shape bind ret].
  unfold tmap2. cbn [shape]. rewrite Hw, broadcast_shapes_last.
  eexists. split; [reflexivity|]. split; [reflexivity|].
  intros b' Hb'. cbn [item].
  rewrite (bidx_valid (bs ++ [T]) (b' ++ [t]))
    by (apply valid_snoc; assumption).
  rewrite bidx_last by exact Ht.
  f_equal. apply fsum_ext. intros s Hs.
  cbn [ravel numel fold_right].
  rewrite !Nat.mul_1_r, Nat.add_0_r.
  rewrite unravel_snoc by assumption. reflexivity.
Qed.

(** X4.  For real-valued weights whose sum over the series at time [t] is
    not zero, normalization divides the weight of every series at [t] by
    that sum, so the normalized weights at [t] sum to 1 over the series
    (enumerated in row-major order of the batch axes). *)
Theorem normalized_weights_sum_to_one (data weight : tensor fl)
  (bs b : list nat) (T D t : nat) (w : list nat -> R) :
  shape data = bs ++ [T; D] ->
  shape weight = bs ++ [T] ->
  (forall idx, valid (shape weight) idx -> item weight idx = Fin (w idx)) ->
  valid bs b -> t < T ->
  rsum (numel bs) (fun s => w (unravel bs s ++ [t])) <> 0%R ->
  exists wn,
    normalize_weight data weight = inr wn
    /\ shape wn = bs ++ [T]
    /\ (forall b', valid bs b' ->
          item wn (b' ++ [t])
          = Fin (w (b' ++ [t])
                 / rsum (numel bs) (fun s => w (unravel bs s ++ [t]))))
    /\ fsum (numel bs) (fun s => item wn (unravel bs s ++ [t])) = Fin 1.
Proof.
  intros Hd Hw Hreal Hb Ht Htot.
  destruct (normalize_weight_item data weight bs b T D t Hd Hw Hb Ht)
    as (wn & Hn & Hs & Hi).
  assert (Hsum : fsum (numel bs)
                   (fun s => item weight (unravel bs s ++ [t]))
                 = Fin (rsum (numel bs)
                          (fun s => w (unravel bs s ++ [t])))).
  { apply fsum_Fin. intros s Hs'. apply Hreal. rewrite Hw.
    apply valid_snoc; [apply unravel_valid; exact Hs' | exact Ht]. }
  assert (Hitem : forall b', valid bs b' ->
            item wn (b' ++ [t])
            = Fin (w (b' ++ [t])
                   / rsum (numel bs) (fun s => w (unravel bs s ++ [t])))).
  { intros b' Hb'. rewrite Hi, Hsum by exact Hb'.
    rewrite Hreal by (rewrite Hw; apply valid_snoc; assumption).
    unfold fl_div.
    destruct (Req_dec_T _ 0); [contradiction | reflexivity]. }
  exists wn. split; [exact Hn|]. split; [exact Hs|]. split; [exact Hitem|].
  rewrite (fsum_Fin _ _
             (fun s => w (unravel bs s ++ [t])
                       / rsum (numel bs)
                           (fun s => w (unravel bs s ++ [t])))%R)
    by (intros s Hs'; apply Hitem; apply unravel_valid; exact Hs').
  f_equal. unfold Rdiv. rewrite rsum_scale. field. exact Htot.
Qed.

Lemma normalized_weights_sum_to_one_witness :
  exists wn,
    normalize_weight (mkT [2; 1; 1] (fun _ => Fin 0))
      (mkT [2; 1] (fun idx => match idx with 0 :: _ => Fin 1 | _ => Fin 3 end))
    = inr wn
    /\ shape wn = [2; 1]
    /\ (forall b', valid [2] b' ->
          item wn (b' ++ [0])
          = Fin ((fun idx => match idx with 0 :: _ => 1 | _ => 3 end)%R
                   (b' ++ [0])
                 / rsum (numel [2])
                     (fun s => (fun idx => match idx with
                                           | 0 :: _ => 1
                                           | _ => 3
                                           end)%R (unravel [2] s ++ [0]))))
    /\ fsum (numel [2]) (fun s => item wn (unravel [2] s ++ [0])) = Fin 1.
Proof.
  apply (normalized_weights_sum_to_one
           (mkT [2; 1; 1] (fun _ => Fin 0))
           (mkT [2; 1]
              (fun idx => match idx with 0 :: _ => Fin 1 | _ => Fin 3 end))
           [2] [0] 1 1 0
           (fun idx => match idx with 0 :: _ => 1 | _ => 3 end)%R).
  - reflexivity.
  - reflexivity.
  - intros idx _. destruct idx as [|[|i] idx]; reflexivity.
  - repeat constructor.
  - lia.
  - unfold rsum. cbn. lra.
Defined.

(* ================================================================= *)
(** ** The training window passed to the backtest routine *)

Lemma zero_count_bounds (x : tensor fl) (T D : nat) (b : list nat) :
  (0 <= zero_count x T D b <= Z.of_nat T)%Z.
Proof.
  unfold zero_count, zsum.
  induction T as [|T IH]; cbn [bigsum]; [lia|].
  destruct (fl_eqb _ _); cbn [Z.b2z]; lia.
Qed.

Lemma m5_setup_window_max
  (crps_empirical : tensor fl -> tensor fl -> result (tensor fl))
  (sample_quantile : list fl -> fl -> fl) (quantiles : list R)
  (data : tensor fl) (weight : option (tensor fl)) (kw kw' : kwargs)
  (w : tensor fl) (log : list logmsg) (bs b0 : list nat) (T D : nat) :
  shape data = bs ++ [T; D] ->
  valid bs b0 ->
  m5_setup crps_empirical sample_quantile quantiles data weight kw
  = inr (w, kw', log) ->
  exists m,
    required_train_window data = inr m
    /\ (2 <= m <= Z.of_nat T + 2)%Z
    /\ kw_min_train_window kw'
       = Some (Z.max (match kw_min_train_window kw with
                      | None => 1
                      | Some n => n
                      end) m).
Proof.
  intros Hd Hb0 Hs.
  destruct (required_train_window_max data bs b0 T D Hd Hb0)
    as (m & Hm & (b & Hb & Hmb) & _).
  exists m. split; [exact Hm|].
  pose proof (zero_count_bounds data T D b) as Hzb.
  split; [lia|].
  pose proof (m5_setup_window _ _ _ _ _ _ _ _ _ _ Hm Hs) as Hw.
  revert Hw. destruct (kw_min_train_window kw) as [n|].
  - destruct (Z.ltb_spec n m); intros Hw; inversion Hw as [[H1 H2]];
      rewrite ?H1; f_equal; lia.
  - destruct (Z.ltb_spec 1 m); intros Hw; inversion Hw as [[H1 H2]];
      [rewrite ?H1; f_equal; lia | lia].
Qed.

(** X5.  For data with at least one series, the [min_train_window] that
    [m5_backtest] passes to the backtest routine is the larger of the
    caller's value (1 when absent) and the required window; the required
    window lies between 2 and the duration plus 2, so the value passed is
    never below 2 and never below the caller's. *)
Theorem min_train_window_passed
  (crps_empirical : tensor fl -> tensor fl -> result (tensor fl))
  (sample_quantile : list fl -> fl -> fl) (quantiles : list R)
  (data : tensor fl) (weight : option (tensor fl)) (kw : kwargs)
  (bs b0 : list nat) (T D : nat) :
  shape data = bs ++ [T; D] ->
  valid bs b0 ->
  exists m,
    required_train_window data = inr m
    /\ (2 <= m <= Z.of_nat T + 2)%Z
    /\ forall w kw' log,
         m5_setup crps_empirical sample_quantile quantiles data weight kw
         = inr (w, kw', log) ->
         kw_min_train_window kw'
         = Some (Z.max (match kw_min_train_window kw with
                        | None => 1
                        | Some n => n
                        end) m).
Proof.
  intros Hd Hb0.
  destruct (required_train_window_max data bs b0 T D Hd Hb0)
    as (m & Hm & (b & Hb & Hmb) & _).
  exists m. split; [exact Hm|].
  pose proof (zero_count_bounds data T D b) as Hzb.
  split; [lia|].
  intros w kw' log Hs.
  destruct (m5_setup_window_max _ _ _ _ _ _ _ _ _ bs b0 T D Hd Hb0 Hs)
    as (m' & Hm' & _ & Hk).
  rewrite Hm in Hm'. inversion Hm'. subst m'. exact Hk.
Qed.

Lemma min_train_window_passed_witness :
  exists m,
    required_train_window (series [0; 0; 3]%R) = inr m
    /\ (2 <= m <= Z.of_nat 3 + 2)%Z
    /\ forall w kw' log,
         m5_setup (fun _ t => ret t) (fun l _ => hd NaN l) [0.5%R]
           (series [0; 0; 3]%R) None (mkKw None (Some 7%Z))
         = inr (w, kw', log) ->
         kw_min_train_window kw' = Some (Z.max 7 m).
Proof.
  apply (min_train_window_passed (fun _ t => ret t) (fun l _ => hd NaN l)
           [0.5%R] (series [0; 0; 3]%R) None (mkKw None (Some 7%Z))
           [] [] 3 1).
  - reflexivity.
  - constructor.
Defined.

(* ================================================================= *)
(** ** What the raised training window guarantees *)

Lemma leading_run_prefix (g : nat -> bool) (n t : nat) :
  t < leading_run g n -> g t = true.
Proof.
  induction n as [|n IH]; cbn [leading_run]; [lia|].
  destruct (Nat.eqb (leading_run g n) n && g n) eqn:E.
  - apply andb_prop in E. destruct E as [E1 E2].
    apply Nat.eqb_eq in E1. intros Ht.
    destruct (Nat.eq_dec t n) as [->|Hne]; [exact E2|].
    apply IH. lia.
  - exact IH.
Qed.

Lemma leading_run_stop (g : nat -> bool) (n : nat) :
  leading_run g n < n -> g (leading_run g n) = false.
Proof.
  induction n as [|n IH]; cbn [leading_run]; [lia|].
  destruct (Nat.eqb (leading_run g n) n && g n) eqn:E; [lia|].
  intros _. pose proof (leading_run_le g n) as Hle.
  destruct (Nat.eq_dec (leading_run g n) n) as [Heq|Hne].
  - rewrite Heq in E |- *. rewrite Nat.eqb_refl in E.
    destruct (g n); [discriminate | reflexivity].
  - apply IH. lia.
Qed.

Lemma cum_sum_zero_forallb (x : tensor fl) (bs b : list nat)
  (T D t : nat) :
  shape x = bs ++ [T; D] ->
  (forall idx, valid (shape x) idx -> fl_nonneg (item x idx)) ->
  valid bs b -> t < T ->
  fl_eqb (cum_sum x D b t) (Fin 0)
  = forallb (zero_step x D b) (seq 0 (S t)).
Proof.
  intros Hx Hnn Hb Ht.
  assert (Hitem : forall t' d, t' < T -> d < D ->
                    fl_nonneg (item x (b ++ [t'; d]))).
  { intros t' d Ht' Hd. apply Hnn. rewrite Hx.
    apply valid_td; assumption. }
  unfold cum_sum. rewrite fsum_zero_forallb.
  - apply forallb_ext_in. intros t' Ht'. apply in_seq in Ht'.
    unfold chan_sum, zero_step. apply fsum_zero_forallb.
    intros d Hd. apply Hitem; [lia | exact Hd].
  - intros t' Ht'. unfold chan_sum. apply fsum_nonneg.
    intros d Hd. apply Hitem; [lia | exact Hd].
Qed.

(** For non-negative data, the first active step of a series is the end
    of its leading run of all-zero steps, and the series stays active. *)
Lemma leading_zeros_first_active (x : tensor fl) (bs b : list nat)
  (T D : nat) :
  shape x = bs ++ [T; D] ->
  (forall idx, valid (shape x) idx -> fl_nonneg (item x idx)) ->
  valid bs b ->
  leading_zeros x T D b < T ->
  first_active x D b (leading_zeros x T D b)
  /\ stays_active x T D b (leading_zeros x T D b).
Proof.
  intros Hx Hnn Hb Hlt.
  assert (Hstay : stays_active x T D b (leading_zeros x T D b)).
  { intros t Hs Ht.
    rewrite (cum_sum_zero_forallb x bs b T D t Hx Hnn Hb Ht).
    destruct (forallb _ _) eqn:E; [|reflexivity].
    rewrite forallb_forall in E.
    rewrite <- (E (leading_zeros x T D b)).
    - apply leading_run_stop. exact Hlt.
    - apply in_seq. lia. }
  split; [split|exact Hstay].
  - apply Hstay; [apply Nat.le_refl | exact Hlt].
  - intros t Ht.
    rewrite (cum_sum_zero_forallb x bs b T D t Hx Hnn Hb) by lia.
    apply forallb_forall. intros t' Ht'. apply in_seq in Ht'.
    apply (leading_run_prefix _ T). unfold leading_zeros in Ht. lia.
Qed.

Lemma fl_eqb_zero_true (x : fl) : fl_eqb x (Fin 0) = true -> x = Fin 0.
Proof.
  destruct x as [a| | |]; cbn [fl_eqb]; try discriminate.
  destruct (Req_dec_T a 0) as [->|]; [reflexivity | discriminate].
Qed.

Lemma zero_step_item (x : tensor fl) (D : nat) (b : list nat) (t d : nat) :
  zero_step x D b t = true -> d < D -> item x (b ++ [t; d]) = Fin 0.
Proof.
  unfold zero_step. intros H Hd. rewrite forallb_forall in H.
  apply fl_eqb_zero_true. apply H. apply in_seq. lia.
Qed.

Lemma fl_mul_nonneg (x y : fl) :
  fl_nonneg x -> fl_nonneg y -> fl_nonneg (fl_mul x y).
Proof.
  intros (a & -> & Ha) (c & -> & Hc). exists (a * c)%R.
  split; [reflexivity | apply Rmult_le_pos; assumption].
Qed.

Lemma fl_pow_nonneg (x : fl) (p : nat) :
  fl_nonneg x -> fl_nonneg (fl_pow x p).
Proof.
  intros H. induction p as [|p IH]; cbn [fl_pow].
  - exists 1%R. split; [reflexivity | lra].
  - apply fl_mul_nonneg; assumption.
Qed.

Lemma fl_div_Z_nonneg (x : fl) (k : Z) :
  (0 < k)%Z -> fl_nonneg x -> fl_nonneg (fl_div x (fl_of_Z k)).
Proof.
  intros Hk (a & -> & Ha). unfold fl_of_Z, fl_div.
  assert (Hpos : (0 < IZR k)%R) by (apply IZR_lt; exact Hk).
  destruct (Req_dec_T (IZR k) 0); [lra|].
  eexists. split; [reflexivity|].
  apply Rmult_le_pos; [exact Ha|].
  left. apply Rinv_0_lt_compat. exact Hpos.
Qed.

Lemma fl_pow_recip_nonneg (p : nat) (x : fl) :
  fl_nonneg x -> fl_nonneg (fl_pow_recip p x).
Proof.
  intros H. unfold fl_pow_recip. destruct (Nat.eqb p 1); [exact H|].
  destruct H as (a & -> & Ha). cbn [fl_pow_half].
  apply fl_sqrt_nonneg. exists a. split; [reflexivity | exact Ha].
Qed.

(** A sum of non-negative terms less one of its terms is non-negative. *)
Lemma fsum_minus_term (n s : nat) (a : nat -> fl) :
  (forall t, t < n -> fl_nonneg (a t)) -> s < n ->
  exists A e, fsum n a = Fin A /\ a s = Fin e /\ (0 <= e <= A)%R.
Proof.
  induction n as [|n IH]; intros H Hs; [lia|].
  rewrite fsum_S.
  destruct (H n (Nat.lt_succ_diag_r n)) as (c & Hc & Hc0).
  destruct (fsum_nonneg n a) as (A & HA & HA0);
    [intros; apply H; lia|].
  destruct (Nat.eq_dec s n) as [->|Hne].
  - exists (A + c)%R, c. rewrite HA, Hc.
    split; [reflexivity|]. split; [reflexivity | lra].
  - destruct IH as (A' & e & HA' & He & Hle);
      [intros; apply H; lia | lia |].
    rewrite HA in HA'. inversion HA'. subst A'.
    exists (A + c)%R, e. rewrite HA, Hc.
    split; [reflexivity|]. split; [exact He | lra].
Qed.

Lemma scale_at_nonneg (p : nat) (x : tensor fl) (T D : nat) (b : list nat)
  (s : nat) :
  0 < D -> s < T -> (2 <= Z.of_nat (T - s))%Z ->
  (forall t d, t < T -> d < D -> fl_nonneg (item x (b ++ [t; d]))) ->
  (forall t d, t < s -> d < D -> item x (b ++ [t; d]) = Fin 0) ->
  fl_nonneg (scale_at p x T D b s (Z.of_nat (T - s))).
Proof.
  intros HD Hs H2 Hnn Hz. unfold scale_at.
  apply fl_pow_recip_nonneg. apply fl_div_Z_nonneg; [lia|].
  apply fmean_nonneg; [exact HD|].
  intros d Hd.
  assert (Hlag : forall t, t < T ->
            fl_nonneg (fl_pow (fl_abs (lag1_at x b t d)) p)).
  { intros t Ht. apply fl_pow_nonneg. apply fl_abs_nonneg.
    unfold lag1_at. apply fl_sub_finite.
    - apply fl_nonneg_finite. apply Hnn; assumption.
    - destruct t as [|k]; [exists 0%R; reflexivity|].
      apply fl_nonneg_finite. apply Hnn; [lia | exact Hd]. }
  assert (Hstart : fl_pow (fl_abs (lag1_at x b s d)) p
                   = fl_pow (fl_abs (item x (b ++ [s; d]))) p).
  { f_equal. unfold lag1_at.
    destruct (Hnn s d Hs Hd) as (v & Hv & _). rewrite Hv.
    replace (match s with
             | 0 => Fin 0
             | S k => item x (b ++ [k; d])
             end) with (Fin 0)
      by (destruct s as [|k]; [reflexivity|];
          symmetry; apply Hz; [lia | exact Hd]).
    cbn [fl_sub fl_opp fl_add fl_abs]. do 2 f_equal. lra. }
  destruct (fsum_minus_term T s _ Hlag Hs) as (A & e & HA & He & Hle).
  unfold fsum in HA. unfold fsum. rewrite HA, <- Hstart, He.
  exists (A + - e)%R. split; [reflexivity | lra].
Qed.

Lemma slice_m2_to_prefix (data : tensor fl) (bs : list nat) (T D t1 : nat) :
  shape data = bs ++ [T; D] -> t1 <= T ->
  slice_m2_to (Z.of_nat t1) data = inr (mkT (bs ++ [t1; D]) (item data)).
Proof.
  intros Hd Ht. unfold slice_m2_to. rewrite Hd, rank2_ltb.
  rewrite init2_td, dimm1_td, dimm2_td. unfold slice_stop.
  destruct (Z.ltb_spec (Z.of_nat t1) 0); [lia|].
  rewrite Nat2Z.id, Nat.min_l by exact Ht. reflexivity.
Qed.

Lemma guarded_scale_item (metric : string) (data : tensor fl)
  (bs b0 : list nat) (T D : nat) :
  shape data = bs ++ [T; D] ->
  0 < D ->
  (forall idx, valid (shape data) idx -> fl_nonneg (item data idx)) ->
  valid bs b0 ->
  exists m,
    required_train_window data = inr m
    /\ forall t1, (m <= Z.of_nat t1)%Z -> t1 <= T ->
         exists train r,
           slice_m2_to (Z.of_nat t1) data = inr train
           /\ _get_metric_scale metric train = inr r
           /\ shape r = bs
           /\ forall b, valid bs b -> fl_nonneg (item r b).
Proof.
  intros Hd HD Hnn Hb0.
  destruct (required_train_window_max data bs b0 T D Hd Hb0)
    as (m & Hm & _ & Hle).
  exists m. split; [exact Hm|].
  intros t1 H1 H2.
  set (train := mkT (bs ++ [t1; D]) (item data)).
  assert (Hlz : forall b, valid bs b -> leading_zeros data T D b + 2 <= t1).
  { intros b Hb. specialize (Hle b Hb).
    rewrite (zero_count_leading_zeros data bs b T D Hd Hnn Hb) in Hle.
    lia. }
  assert (Hact : forall b, valid bs b ->
            first_active train D b (leading_zeros data T D b)
            /\ stays_active train t1 D b (leading_zeros data T D b)).
  { intros b Hb. specialize (Hlz b Hb).
    destruct (leading_zeros_first_active data bs b T D Hd Hnn Hb)
      as [Hf Hs]; [lia|].
    split; [exact Hf|].
    intros t Hst Ht. apply (Hs t Hst). lia. }
  assert (Hscale : forall b, valid bs b ->
            exists r,
              _get_metric_scale metric train = inr r
              /\ shape r = bs
              /\ fl_nonneg (item r b)).
  { intros b Hb. pose proof (Hlz b Hb) as Hlzb.
    destruct (Hact b Hb) as [Hf Hs].
    destruct (get_metric_scale_active metric train bs b t1 D
                (leading_zeros data T D b)) as (r & Hr & Hrs & Hri).
    - reflexivity.
    - intros b' Hb'. exists (leading_zeros data T D b').
      pose proof (Hlz b' Hb') as Hlz'.
      destruct (Hact b' Hb') as [Hf' Hs'].
      split; [lia | split; assumption].
    - exact Hb.
    - lia.
    - exact Hf.
    - exact Hs.
    - exists r. split; [exact Hr|]. split; [exact Hrs|].
      rewrite Hri. apply scale_at_nonneg.
      + exact HD.
      + lia.
      + lia.
      + intros t d Ht Hd'. apply Hnn. rewrite Hd.
        apply valid_td; [exact Hb | lia | exact Hd'].
      + intros t d Ht Hd'.
        apply (zero_step_item data D b t d); [|exact Hd'].
        apply (leading_run_prefix _ T). exact Ht. }
  destruct (Hscale b0 Hb0) as (r & Hr & Hrs & _).
  exists train, r.
  split; [apply (slice_m2_to_prefix data bs T D t1); assumption|].
  split; [exact Hr|]. split; [exact Hrs|].
  intros b Hb. destruct (Hscale b Hb) as (r' & Hr' & _ & Hn).
  rewrite Hr in Hr'. inversion Hr'. subst r'. exact Hn.
Qed.

(** X6.  For non-negative data with at least one series and one channel,
    every training slice [data[..., :t1, :]] at least as long as the
    required window gives every series two active steps or more, so the
    scale estimator returns a value for it, and that value is finite and
    non-negative for every series. *)
Theorem guarded_scale_is_finite (metric : string) (data : tensor fl)
  (bs b0 : list nat) (T D : nat) :
  shape data = bs ++ [T; D] ->
  0 < D ->
  (forall idx, valid (shape data) idx -> fl_nonneg (item data idx)) ->
  valid bs b0 ->
  exists m,
    required_train_window data = inr m
    /\ forall t1, (m <= Z.of_nat t1)%Z -> t1 <= T ->
         exists train r,
           slice_m2_to (Z.of_nat t1) data = inr train
           /\ _get_metric_scale metric train = inr r
           /\ shape r = bs
           /\ forall b, valid bs b -> fl_nonneg (item r b).
Proof. apply guarded_scale_item. Qed.

Lemma guarded_scale_is_finite_witness :
  exists m,
    required_train_window (series [0; 1; 2; 4]%R) = inr m
    /\ forall t1, (m <= Z.of_nat t1)%Z -> t1 <= 4 ->
         exists train r,
           slice_m2_to (Z.of_nat t1) (series [0; 1; 2; 4]%R) = inr train
           /\ _get_metric_scale "rmse" train = inr r
           /\ shape r = []
           /\ forall b, valid [] b -> fl_nonneg (item r b).
Proof.
  apply (guarded_scale_is_finite "rmse" (series [0; 1; 2; 4]%R) [] [] 4 1).
  - reflexivity.
  - lia.
  - intros idx _. unfold series. cbn [item].
    destruct (hd 0 idx) as [|[|[|[|[|n]]]]]; cbn [nth];
      eexists; (split; [reflexivity | lra]).
  - constructor.
Defined.

(* ================================================================= *)
(** ** The entries the metric loop writes *)

Lemma dict_get_set_same (d : window) (k : string) (v : wval) :
  dict_get (dict_set d k v) k = inr v.
Proof.
  induction d as [|[k' v'] d IH]; cbn [dict_set dict_get].
  - rewrite String.eqb_refl. reflexivity.
  - destruct (String.eqb_spec k k') as [->|Hne]; cbn [dict_get].
    + rewrite String.eqb_refl. reflexivity.
    + destruct (String.eqb_spec k k'); [contradiction | exact IH].
Qed.

Lemma dict_get_set_other (d : window) (k k' : string) (v : wval) :
  k <> k' -> dict_get (dict_set d k v) k' = dict_get d k'.
Proof.
  intros Hne. induction d as [|[k0 v0] d IH]; cbn [dict_set dict_get].
  - destruct (String.eqb_spec k' k); [congruence | reflexivity].
  - destruct (String.eqb_spec k k0) as [->|Hk]; cbn [dict_get].
    + destruct (String.eqb_spec k' k0); [congruence | reflexivity].
    + destruct (String.eqb_spec k' k0); [reflexivity | exact IH].
Qed.

Lemma ws_key_inj (m m' : string) :
  ("ws_" ++ m)%string = ("ws_" ++ m')%string -> m = m'.
Proof. cbn. intros H. inversion H. reflexivity. Qed.

Lemma ws_metrics_entries (names : list string) (train weight : tensor fl) :
  NoDup names ->
  (forall m m', In m names -> In m' names -> m <> ("ws_" ++ m')%string) ->
  forall w w',
    ws_metrics names w train weight = inr w' ->
    (forall k, ~ In k (map (append "ws_") names) ->
       dict_get w' k = dict_get w k)
    /\ forall m, In m names ->
         exists v x,
           get_tensor w m = inr v
           /\ eval_weighted_scale m v train weight = inr x
           /\ dict_get w' ("ws_" ++ m) = inr (VFloat x).
Proof.
  induction names as [|m names IH]; intros Hnd Hraw w w' Hw.
  - cbn in Hw. inversion Hw. subst w'. split; [reflexivity|].
    intros m [].
  - cbn [ws_metrics] in Hw.
    destruct (get_tensor w m) as [e|v] eqn:Hv; [discriminate|].
    cbn [bind] in Hw.
    destruct (eval_weighted_scale m v train weight) as [e|x] eqn:Hx;
      [discriminate|].
    cbn [bind] in Hw.
    inversion Hnd as [|? ? Hnotin Hnd']; subst.
    destruct (IH Hnd'
                (fun a a' Ha Ha' =>
                   Hraw a a' (or_intror Ha) (or_intror Ha'))
                _ _ Hw) as [Hkeep Hnew].
    split.
    + intros k Hk. rewrite Hkeep.
      * apply dict_get_set_other. intros E. apply Hk. left. exact E.
      * intros Hin. apply Hk. right. exact Hin.
    + intros m' [<-|Hin].
      * exists v, x. split; [exact Hv|]. split; [exact Hx|].
        rewrite Hkeep; [apply dict_get_set_same|].
        intros Hin. apply in_map_iff in Hin.
        destruct Hin as (m' & E & Hm'). apply ws_key_inj in E.
        subst m'. contradiction.
      * destruct (Hnew m' Hin) as (v' & x' & Hv' & Hx' & Hg).
        exists v', x'. split; [|split; assumption].
        rewrite <- Hv'. unfold get_tensor.
        rewrite dict_get_set_other; [reflexivity|].
        intros E. apply (Hraw m' m); [right; exact Hin | left; reflexivity|].
        symmetry. exact E.
Qed.

(** X7.  For distinct metric names none of which is itself a [ws_] key of
    another, a successful pass of the metric loop over a window leaves
    every other key of the window as it was and stores, under
    [ws_<metric>], the weighted scaled value of the window's [<metric>]
    entry, for every metric. *)
Theorem ws_metrics_writes (names : list string) (train weight : tensor fl)
  (w w' : window) :
  NoDup names ->
  (forall m m', In m names -> In m' names -> m <> ("ws_" ++ m')%string) ->
  ws_metrics names w train weight = inr w' ->
  (forall k, ~ In k (map (append "ws_") names) ->
     dict_get w' k = dict_get w k)
  /\ forall m, In m names ->
       exists v x,
         get_tensor w m = inr v
         /\ eval_weighted_scale m v train weight = inr x
         /\ dict_get w' ("ws_" ++ m) = inr (VFloat x).
Proof.
  intros Hnd Hraw Hw.
  apply (ws_metrics_entries names train weight Hnd Hraw w w' Hw).
Qed.

Lemma ws_metrics_writes_witness :
  (forall k, ~ In k (map (append "ws_") ["mae"%string]) ->
     dict_get
       [("t1"%string, VInt 2);
        ("mae"%string, VTensor (mkT [] (fun _ => Fin 1)));
        ("ws_mae"%string, VFloat (Fin 1))] k
     = dict_get
         [("t1"%string, VInt 2);
          ("mae"%string, VTensor (mkT [] (fun _ => Fin 1)))] k)
  /\ forall m, In m ["mae"%string] ->
       exists v x,
         get_tensor
           [("t1"%string, VInt 2);
            ("mae"%string, VTensor (mkT [] (fun _ => Fin 1)))] m = inr v
         /\ eval_weighted_scale m v (series [1; 2]%R)
              (mkT [] (fun _ => Fin 1)) = inr x
         /\ dict_get
              [("t1"%string, VInt 2);
               ("mae"%string, VTensor (mkT [] (fun _ => Fin 1)));
               ("ws_mae"%string, VFloat (Fin 1))] ("ws_" ++ m)
            = inr (VFloat x).
Proof.
  apply (ws_metrics_writes ["mae"%string] (series [1; 2]%R)
           (mkT [] (fun _ => Fin 1))
           [("t1"%string, VInt 2);
            ("mae"%string, VTensor (mkT [] (fun _ => Fin 1)))]).
  - constructor; [intros [] | constructor].
  - intros m m' [<-|[]] [<-|[]]. discriminate.
  - cbn [ws_metrics get_tensor dict_get String.eqb Ascii.eqb Bool.eqb
         bind ret].
    rewrite eval_weighted_scale_example. reflexivity.
Defined.

(* ================================================================= *)
(** ** The default weights *)

Lemma shape_eqb_refl (s : list nat) : shape_eqb s s = true.
Proof.
  unfold shape_eqb. destruct (list_eq_dec Nat.eq_dec s s); [reflexivity|].
  contradiction.
Qed.

Lemma default_weights_item
  (crps_empirical : tensor fl -> tensor fl -> result (tensor fl))
  (sample_quantile : list fl -> fl -> fl) (quantiles : list R)
  (data : tensor fl) (kw : kwargs) (bs b0 : list nat) (T D : nat) :
  shape data = bs ++ [T; D] ->
  valid bs b0 -> 0 < T ->
  exists wn kw' log,
    m5_setup crps_empirical sample_quantile quantiles data None kw
    = inr (wn, kw', log)
    /\ forall b t, valid bs b -> t < T ->
         item wn (b ++ [t]) = Fin (1 / INR (numel bs)).
Proof.
  intros Hd Hb0 HT.
  assert (Hones : shape (new_ones (removelast (shape data))) = bs ++ [T])
    by (rewrite Hd, removelast_app2; reflexivity).
  destruct (normalize_weight_item data (new_ones (removelast (shape data)))
              bs b0 T D 0 Hd Hones Hb0 HT) as (wn & Hn & _ & _).
  destruct (required_train_window_max data bs b0 T D Hd Hb0)
    as (m & Hm & _).
  assert (Hitem : forall b t, valid bs b -> t < T ->
            item wn (b ++ [t]) = Fin (1 / INR (numel bs))).
  { intros b t Hb Ht.
    destruct (normalize_weight_item data
                (new_ones (removelast (shape data)))
                bs b T D t Hd Hones Hb Ht) as (wn' & Hn' & _ & Hi).
    rewrite Hn in Hn'. inversion Hn'. subst wn'.
    rewrite Hi by exact Hb. unfold new_ones. cbn [item].
    rewrite (fsum_Fin _ _ (fun _ => 1%R)) by reflexivity.
    rewrite rsum_const, Rmult_1_r. unfold fl_div.
    destruct (Req_dec_T (INR (numel bs)) 0) as [E|_]; [|reflexivity].
    apply (not_0_INR (numel bs)) in E; [contradiction|].
    eapply valid_numel. exact Hb. }
  unfold m5_setup. rewrite shape_eqb_refl. cbn [negb].
  rewrite Hn. cbn [bind]. rewrite Hm. cbn [bind].
  destruct (_ <? _)%Z; do 3 eexists; (split; [reflexivity | exact Hitem]).
Qed.

(** X8.  Called without weights on data of positive duration with at least
    one series, the setup of [m5_backtest] succeeds, and the normalized
    default weight of every series at every time step is 1 / N, where N is
    the number of series. *)
Theorem default_weights_uniform
  (crps_empirical : tensor fl -> tensor fl -> result (tensor fl))
  (sample_quantile : list fl -> fl -> fl) (quantiles : list R)
  (data : tensor fl) (kw : kwargs) (bs b0 : list nat) (T D : nat) :
  shape data = bs ++ [T; D] ->
  valid bs b0 -> 0 < T ->
  exists wn kw' log,
    m5_setup crps_empirical sample_quantile quantiles data None kw
    = inr (wn, kw', log)
    /\ forall b t, valid bs b -> t < T ->
         item wn (b ++ [t]) = Fin (1 / INR (numel bs)).
Proof. apply default_weights_item. Qed.

Lemma default_weights_uniform_witness :
  exists wn kw' log,
    m5_setup (fun _ t => ret t) (fun l _ => hd NaN l) [0.5%R]
      (mkT [2; 3; 1] (fun _ => Fin 1)) None (mkKw None None)
    = inr (wn, kw', log)
    /\ forall b t, valid [2] b -> t < 3 ->
         item wn (b ++ [t]) = Fin (1 / INR (numel [2])).
Proof.
  apply (default_weights_uniform (fun _ t => ret t) (fun l _ => hd NaN l)
           [0.5%R] (mkT [2; 3; 1] (fun _ => Fin 1)) (mkKw None None)
           [2] [0] 3 1).
  - reflexivity.
  - repeat constructor.
  - lia.
Defined.

(* ================================================================= *)
(** ** The rates of the uncertainty forecast *)

Lemma broadcast_shapes_rates (S N T : nat) :
  broadcast_shapes [S; 1; T] [N; 1] = Some [S; N; T].
Proof.
  unfold broadcast_shapes. cbn [rev app bcast_rev].
  destruct (Nat.eqb_spec T 1) as [->|HT];
    destruct (Nat.eqb_spec 1 N) as [<-|HN]; cbn; reflexivity.
Qed.

Lemma main_rates_item (samples proportion : tensor fl) (S N T : nat) :
  shape samples = [S; T] ->
  shape proportion = [N] ->
  exists rates,
    main_rates samples proportion = inr rates
    /\ shape rates = [S; N; T]
    /\ forall s i t, s < S -> i < N -> t < T ->
         item rates [s; i; t]
         = fl_mul (item samples [s; t]) (item proportion [i]).
Proof.
  intros Hs Hp. unfold main_rates, unsqueeze1. rewrite Hs.
  cbn [bind ret]. unfold tmap2, unsqueeze_last. cbn [shape].
  rewrite Hp. cbn [app]. rewrite broadcast_shapes_rates.
  eexists. split; [reflexivity|]. split; [reflexivity|].
  intros s i t Hs' Hi Ht. cbn [item].
  unfold bidx. cbn [length Nat.sub skipn combine map fst snd Nat.eqb].
  replace (if Nat.eqb S 1 then 0 else s) with s
    by (destruct (Nat.eqb_spec S 1); lia).
  replace (if Nat.eqb T 1 then 0 else t) with t
    by (destruct (Nat.eqb_spec T 1); lia).
  replace (if Nat.eqb N 1 then 0 else i) with i
    by (destruct (Nat.eqb_spec N 1); lia).
  reflexivity.
Qed.

Lemma fmean_Fin (n : nat) (f : nat -> fl) (g : nat -> R) :
  0 < n -> (forall k, k < n -> f k = Fin (g k)) ->
  fmean n f = Fin (rsum n g / INR n).
Proof.
  intros Hn H. unfold fmean, fl_of_nat. rewrite (fsum_Fin n f g H).
  unfold fl_div. destruct (Req_dec_T (INR n) 0) as [E|_]; [|reflexivity].
  apply (not_0_INR n) in E; [contradiction | lia].
Qed.

Lemma main_submit_item (sales samples : tensor fl) (N L S T : nat)
  (s : nat -> nat -> R) (q : nat -> nat -> R) :
  shape sales = [N; L] ->
  shape samples = [S; T] ->
  0 < S ->
  (forall i j, i < N -> j < L -> item sales [i; j] = Fin (s i j)) ->
  (forall k t, k < S -> t < T -> item samples [k; t] = Fin (q k t)) ->
  sales_grand_total N L s <> 0%R ->
  exists prediction rates,
    main_submit sales samples = inr (prediction, rates)
    /\ shape rates = [S; N; T]
    /\ (forall i t, i < N -> t < T ->
          item prediction [i; t]
          = Fin (sales_last28_sum L s i / sales_grand_total N L s
                 * (rsum S (fun k => q k t) / INR S)))
    /\ (forall k i t, k < S -> i < N -> t < T ->
          item rates [k; i; t]
          = Fin (q k t
                 * (sales_last28_sum L s i / sales_grand_total N L s))).
Proof.
  intros Hsa Hsm HS Hsi Hqi Hg. unfold main_submit, mean0.
  rewrite Hsm. cbn [bind ret].
  set (pred := mkT [T] _).
  destruct (top_down_item sales pred N L T s
              (fun t => rsum S (fun k => q k t) / INR S)%R Hsa eq_refl Hsi)
    as (proportion & prediction & -> & Hps & Hprs & Hprop & Hpred).
  { intros t Ht. unfold pred. cbn [item].
    apply fmean_Fin; [exact HS|]. intros k Hk. apply Hqi; assumption. }
  { exact Hg. }
  cbn [bind fst snd].
  destruct (main_rates_item samples proportion S N T Hsm Hps)
    as (rates & -> & Hrs & Hri).
  cbn [bind ret]. exists prediction, rates.
  split; [reflexivity|]. split; [exact Hrs|]. split.
  - intros i t Hi Ht. apply Hpred; assumption.
  - intros k i t Hk Hi Ht.
    rewrite Hri, Hqi, Hprop by assumption. reflexivity.
Qed.

(** X9.  In the submit branch of [main], for real-valued sales with a
    non-zero grand total over the trailing 28 periods and a non-empty set
    of real-valued aggregate samples: the rates
    [samples.unsqueeze(1) * proportion.unsqueeze(-1)] have one entry per
    sample, bottom-level series and time step; summed over the series they
    give back the aggregate sample, and averaged over the samples they give
    the point forecast [proportion.ger(samples.mean(0))]. *)
Theorem main_submit_rates (sales samples : tensor fl) (N L S T : nat)
  (s : nat -> nat -> R) (q : nat -> nat -> R) :
  shape sales = [N; L] ->
  shape samples = [S; T] ->
  0 < S ->
  (forall i j, i < N -> j < L -> item sales [i; j] = Fin (s i j)) ->
  (forall k t, k < S -> t < T -> item samples [k; t] = Fin (q k t)) ->
  sales_grand_total N L s <> 0%R ->
  exists prediction rates,
    main_submit sales samples = inr (prediction, rates)
    /\ shape rates = [S; N; T]
    /\ (forall k t, k < S -> t < T ->
          fsum N (fun i => item rates [k; i; t]) = item samples [k; t])
    /\ (forall i t, i < N -> t < T ->
          fmean S (fun k => item rates [k; i; t]) = item prediction [i; t]).
Proof.
  intros Hsa Hsm HS Hsi Hqi Hg.
  destruct (main_submit_item sales samples N L S T s q Hsa Hsm HS Hsi Hqi Hg)
    as (prediction & rates & Hm & Hrs & Hpred & Hrate).
  exists prediction, rates.
  split; [exact Hm|]. split; [exact Hrs|]. split.
  - intros k t Hk Ht.
    rewrite (fsum_Fin N _
               (fun i => q k t * (sales_last28_sum L s i
                                  / sales_grand_total N L s))%R)
      by (intros i Hi; apply Hrate; assumption).
    rewrite Hqi by assumption. f_equal.
    rewrite (bigsum_ext Rplus 0%R N _
               (fun i => sales_last28_sum L s i
                         * (/ sales_grand_total N L s * q k t))%R)
      by (intros; unfold Rdiv; ring).
    fold (rsum N (fun i => sales_last28_sum L s i
                           * (/ sales_grand_total N L s * q k t))%R).
    rewrite rsum_scale. fold (sales_grand_total N L s). field. exact Hg.
  - intros i t Hi Ht.
    rewrite (fmean_Fin S _
               (fun k => q k t * (sales_last28_sum L s i
                                  / sales_grand_total N L s))%R HS)
      by (intros k Hk; apply Hrate; assumption).
    rewrite Hpred by assumption. f_equal.
    rewrite rsum_scale. unfold Rdiv. ring.
Qed.

Lemma main_submit_rates_witness :
  exists prediction rates,
    main_submit
      (mkT [2; 1] (fun idx => match idx with 0 :: _ => Fin 1 | _ => Fin 3 end))
      (mkT [2; 1] (fun idx => match idx with 0 :: _ => Fin 90 | _ => Fin 110 end))
    = inr (prediction, rates)
    /\ shape rates = [2; 2; 1]
    /\ (forall k t, k < 2 -> t < 1 ->
          fsum 2 (fun i => item rates [k; i; t])
          = item (mkT [2; 1]
                    (fun idx => match idx with
                                | 0 :: _ => Fin 90
                                | _ => Fin 110
                                end)) [k; t])
    /\ (forall i t, i < 2 -> t < 1 ->
          fmean 2 (fun k => item rates [k; i; t]) = item prediction [i; t]).
Proof.
  apply (main_submit_rates _ _ 2 1 2 1
           (fun i _ => match i with 0 => 1 | _ => 3 end)%R
           (fun k _ => match k with 0 => 90 | _ => 110 end)%R).
  - reflexivity.
  - reflexivity.
  - lia.
  - intros i j _ _. destruct i; reflexivity.
  - intros k t _ _. destruct k; reflexivity.
  - unfold sales_grand_total, sales_last28_sum, rsum.
    cbn [bigsum Nat.min]. lra.
Defined.

(* ================================================================= *)
(** ** Rescaling the data *)

(** Case analysis on the signs that decide a product with an infinity. *)
Ltac fl_signs :=
  repeat (cbn [fl_mul fl_add fl_opp fl_sub fl_abs fl_div];
          unfold fl_mul_inf;
          match goal with
          | |- context [Rlt_dec ?a ?b] => destruct (Rlt_dec a b)
          | |- context [Req_dec_T ?a ?b] => destruct (Req_dec_T a b)
          end);
  cbn [fl_mul fl_add fl_opp fl_sub fl_abs fl_div];
  try reflexivity; try (exfalso; nra); try (f_equal; nra).

Lemma fl_scale_zero (k : R) : fl_mul (Fin k) (Fin 0) = Fin 0.
Proof. cbn. f_equal. lra. Qed.

Lemma fl_scale_opp (k : R) (y : fl) :
  (0 < k)%R -> fl_mul (Fin k) (fl_opp y) = fl_opp (fl_mul (Fin k) y).
Proof. intros Hk. destruct y; fl_signs. Qed.

Lemma fl_scale_sub (k : R) (x y : fl) :
  (0 < k)%R ->
  fl_mul (Fin k) (fl_sub x y)
  = fl_sub (fl_mul (Fin k) x) (fl_mul (Fin k) y).
Proof.
  intros Hk. unfold fl_sub.
  rewrite fl_scale_add, fl_scale_opp by exact Hk. reflexivity.
Qed.

Lemma fl_scale_abs (k : R) (y : fl) :
  (0 < k)%R -> fl_abs (fl_mul (Fin k) y) = fl_mul (Fin k) (fl_abs y).
Proof.
  intros Hk. destruct y as [a| | |]; fl_signs.
  f_equal. rewrite Rabs_mult, (Rabs_right k) by lra. reflexivity.
Qed.

Lemma fl_scale_eqb0 (k : R) (y : fl) :
  (0 < k)%R -> fl_eqb (fl_mul (Fin k) y) (Fin 0) = fl_eqb y (Fin 0).
Proof.
  intros Hk. destruct y as [a| | |]; cbn [fl_mul];
    rewrite ?fl_mul_inf_pos by exact Hk; try reflexivity.
  cbn [fl_eqb].
  destruct (Req_dec_T (k * a) 0), (Req_dec_T a 0); try reflexivity; nra.
Qed.

Lemma fl_mul_scale2 (k K : R) (x z : fl) :
  (0 < k)%R -> (0 < K)%R ->
  fl_mul (fl_mul (Fin k) x) (fl_mul (Fin K) z)
  = fl_mul (Fin (k * K)) (fl_mul x z).
Proof.
  intros Hk HK. assert (HkK : (0 < k * K)%R) by nra.
  destruct x as [a| | |], z as [c| | |]; fl_signs.
Qed.

Lemma fl_mul_scale_r (k : R) (x z : fl) :
  (0 < k)%R ->
  fl_mul x (fl_mul (Fin k) z) = fl_mul (Fin k) (fl_mul x z).
Proof.
  intros Hk. destruct x as [a| | |], z as [c| | |]; fl_signs.
Qed.

Lemma fl_pow_scale (k : R) (y : fl) (p : nat) :
  (0 < k)%R ->
  fl_pow (fl_mul (Fin k) y) p = fl_mul (Fin (k ^ p)) (fl_pow y p).
Proof.
  intros Hk. induction p as [|p IH]; cbn [fl_pow pow].
  - cbn. f_equal. lra.
  - rewrite IH. apply fl_mul_scale2; [exact Hk|].
    apply pow_lt. exact Hk.
Qed.

Lemma fl_div_scale_l (K c : R) (x : fl) :
  (0 < K)%R ->
  fl_div (fl_mul (Fin K) x) (Fin c) = fl_mul (Fin K) (fl_div x (Fin c)).
Proof.
  intros HK. destruct x as [a| | |]; fl_signs.
Qed.

Lemma fl_pow_half_scale (k : R) (y : fl) :
  (0 < k)%R ->
  fl_pow_half (fl_mul (Fin (k * k)) y) = fl_mul (Fin k) (fl_pow_half y).
Proof.
  intros Hk. assert (Hkk : (0 < k * k)%R) by nra.
  destruct y as [a| | |]; cbn [fl_mul];
    rewrite ?fl_mul_inf_pos by assumption; cbn [fl_pow_half fl_sqrt fl_mul];
    rewrite ?fl_mul_inf_pos by assumption; try reflexivity.
  destruct (Rlt_dec (k * k * a) 0), (Rlt_dec a 0); cbn [fl_mul];
    try reflexivity; try (exfalso; nra).
  f_equal. rewrite sqrt_mult by nra. rewrite sqrt_square by lra.
  reflexivity.
Qed.

Lemma metric_norm_cases (metric : string) :
  metric_norm metric = 1 \/ metric_norm metric = 2.
Proof. unfold metric_norm. destruct (String.eqb metric "rmse"); auto. Qed.

Lemma fl_pow_recip_scale (p : nat) (k : R) (y : fl) :
  (0 < k)%R -> p = 1 \/ p = 2 ->
  fl_pow_recip p (fl_mul (Fin (k ^ p)) y)
  = fl_mul (Fin k) (fl_pow_recip p y).
Proof.
  intros Hk [->| ->]; unfold fl_pow_recip; cbn [Nat.eqb pow].
  - rewrite Rmult_1_r. reflexivity.
  - rewrite Rmult_1_r. apply fl_pow_half_scale. exact Hk.
Qed.

Lemma cum_sum_scale (k : R) (x : tensor fl) (D : nat) (b : list nat)
  (t : nat) :
  (0 < k)%R ->
  cum_sum (tscale k x) D b t = fl_mul (Fin k) (cum_sum x D b t).
Proof.
  intros Hk. unfold cum_sum. rewrite <- fsum_scale by exact Hk.
  apply fsum_ext. intros t' _. unfold chan_sum.
  rewrite <- fsum_scale by exact Hk. reflexivity.
Qed.

Lemma active_count_scale (k : R) (x : tensor fl) (T D : nat)
  (b : list nat) :
  (0 < k)%R -> active_count (tscale k x) T D b = active_count x T D b.
Proof.
  intros Hk. unfold active_count. apply bigsum_ext. intros t _.
  rewrite cum_sum_scale, fl_scale_eqb0 by exact Hk. reflexivity.
Qed.

Lemma lag1_at_scale (k : R) (x : tensor fl) (b : list nat) (t d : nat) :
  (0 < k)%R ->
  lag1_at (tscale k x) b t d = fl_mul (Fin k) (lag1_at x b t d).
Proof.
  intros Hk. unfold lag1_at. rewrite fl_scale_sub by exact Hk.
  destruct t as [|t']; [|reflexivity].
  rewrite fl_scale_zero. reflexivity.
Qed.

Lemma scale_at_scale (p : nat) (k : R) (x : tensor fl) (T D : nat)
  (b : list nat) (s : nat) (a : Z) :
  (0 < k)%R -> p = 1 \/ p = 2 ->
  scale_at p (tscale k x) T D b s a
  = fl_mul (Fin k) (scale_at p x T D b s a).
Proof.
  intros Hk Hp. unfold scale_at.
  assert (HK : (0 < k ^ p)%R) by (apply pow_lt; exact Hk).
  rewrite <- fl_pow_recip_scale by assumption. f_equal.
  unfold fl_of_Z. rewrite <- fl_div_scale_l by exact HK. f_equal.
  unfold fmean, fl_of_nat. rewrite <- fl_div_scale_l by exact HK. f_equal.
  rewrite <- fsum_scale by exact HK. apply fsum_ext. intros d _.
  rewrite fl_scale_sub by exact HK.
  rewrite <- fsum_scale by exact HK. f_equal.
  - apply fsum_ext. intros t _.
    rewrite lag1_at_scale, fl_scale_abs, fl_pow_scale by exact Hk.
    reflexivity.
  - unfold tscale, tmap. cbn [item].
    rewrite fl_scale_abs, fl_pow_scale by exact Hk. reflexivity.
Qed.

Lemma get_metric_scale_tscale (metric : string) (k : R) (x : tensor fl)
  (bs b : list nat) (T D : nat) :
  (0 < k)%R ->
  shape x = bs ++ [T; D] ->
  (forall b', valid bs b' -> (1 <= active_count x T D b')%Z) ->
  valid bs b ->
  exists r r',
    _get_metric_scale metric x = inr r
    /\ _get_metric_scale metric (tscale k x) = inr r'
    /\ shape r = bs /\ shape r' = bs
    /\ item r' b = fl_mul (Fin k) (item r b).
Proof.
  intros Hk Hx Hac Hb.
  destruct (get_metric_scale_item metric x bs b T D Hx Hac Hb)
    as (r & Hr & Hrs & Hri).
  destruct (get_metric_scale_item metric (tscale k x) bs b T D)
    as (r' & Hr' & Hrs' & Hri').
  - exact Hx.
  - intros b' Hb'. rewrite active_count_scale by exact Hk.
    apply Hac. exact Hb'.
  - exact Hb.
  - exists r, r'. repeat split; try assumption.
    rewrite Hri', Hri, active_count_scale by exact Hk.
    apply scale_at_scale; [exact Hk | apply metric_norm_cases].
Qed.

(** X10.  Multiplying the training data by a positive constant multiplies
    the scale of every series by that constant, for both norms (the
    discarded leading steps are the same). *)
Theorem scale_is_homogeneous (metric : string) (k : R) (x : tensor fl)
  (bs b : list nat) (T D : nat) :
  (0 < k)%R ->
  shape x = bs ++ [T; D] ->
  (forall b', valid bs b' -> (1 <= active_count x T D b')%Z) ->
  valid bs b ->
  exists r r',
    _get_metric_scale metric x = inr r
    /\ _get_metric_scale metric (tscale k x) = inr r'
    /\ shape r = bs /\ shape r' = bs
    /\ item r' b = fl_mul (Fin k) (item r b).
Proof. apply get_metric_scale_tscale. Qed.

Lemma scale_is_homogeneous_witness :
  exists r r',
    _get_metric_scale "rmse" (series [1; 2; 4]%R) = inr r
    /\ _get_metric_scale "rmse" (tscale 10 (series [1; 2; 4]%R)) = inr r'
    /\ shape r = [] /\ shape r' = []
    /\ item r' [] = fl_mul (Fin 10) (item r []).
Proof.
  assert (Hac : active_count (series [1; 2; 4]%R) 3 1 [] = 3%Z) by fl_eval.
  apply (scale_is_homogeneous "rmse" 10 (series [1; 2; 4]%R) [] [] 3 1).
  - lra.
  - reflexivity.
  - intros b' Hb'. apply valid_nil_inv in Hb'. subst b'. rewrite Hac. lia.
  - constructor.
Defined.

Lemma eval_weighted_scale_tscale (metric : string) (k : R)
  (value x weight : tensor fl) (bs b0 : list nat) (T D : nat) :
  (0 < k)%R ->
  shape x = bs ++ [T; D] ->
  shape value = bs -> shape weight = bs ->
  (forall b, valid bs b -> (1 <= active_count x T D b)%Z) ->
  valid bs b0 ->
  exists v,
    eval_weighted_scale metric value x weight = inr v
    /\ eval_weighted_scale metric (tscale k value) (tscale k x) weight
       = inr v.
Proof.
  intros Hk Hx Hv Hw Hac Hb0.
  destruct (get_metric_scale_tscale metric k x bs b0 T D Hk Hx Hac Hb0)
    as (r & r' & Hr & Hr' & Hrs & Hrs' & _).
  assert (Hrr : forall b, valid bs b ->
            item r' b = fl_mul (Fin k) (item r b)).
  { intros b Hb.
    destruct (get_metric_scale_tscale metric k x bs b T D Hk Hx Hac Hb)
      as (r1 & r1' & Hr1 & Hr1' & _ & _ & Hi).
    rewrite Hr in Hr1. rewrite Hr' in Hr1'.
    inversion Hr1. inversion Hr1'. subst r1 r1'. exact Hi. }
  unfold eval_weighted_scale. rewrite Hr, Hr'. cbn [bind].
  destruct (tmap2_same_shape fl_mul weight value bs Hw Hv)
    as (wv & -> & Hwvs & Hwvi).
  destruct (tmap2_same_shape fl_mul weight (tscale k value) bs Hw Hv)
    as (wv' & -> & Hwvs' & Hwvi').
  cbn [bind].
  destruct (tmap2_same_shape fl_div wv r bs Hwvs Hrs)
    as (q & -> & Hqs & Hqi).
  destruct (tmap2_same_shape fl_div wv' r' bs Hwvs' Hrs')
    as (q' & -> & Hqs' & Hqi').
  cbn [bind]. eexists. split; [reflexivity|].
  unfold ret, sum_all. cbn [item]. rewrite Hqs, Hqs'. f_equal.
  apply fsum_ext. intros n Hn.
  assert (Hvn : valid bs (unravel bs n)) by (apply unravel_valid; exact Hn).
  rewrite Hqi', Hqi, Hwvi', Hwvi, Hrr by exact Hvn.
  unfold tscale, tmap. cbn [item].
  rewrite fl_mul_scale_r by exact Hk. apply fl_div_scale. exact Hk.
Qed.

(** X11.  The weighted scaled metric has no unit: multiplying both the
    metric values and the training data by the same positive constant
    leaves it unchanged. *)
Theorem weighted_scale_is_unit_free (metric : string) (k : R)
  (value x weight : tensor fl) (bs b0 : list nat) (T D : nat) :
  (0 < k)%R ->
  shape x = bs ++ [T; D] ->
  shape value = bs -> shape weight = bs ->
  (forall b, valid bs b -> (1 <= active_count x T D b)%Z) ->
  valid bs b0 ->
  exists v,
    eval_weighted_scale metric value x weight = inr v
    /\ eval_weighted_scale metric (tscale k value) (tscale k x) weight
       = inr v.
Proof. apply eval_weighted_scale_tscale. Qed.

Lemma weighted_scale_is_unit_free_witness :
  exists v,
    eval_weighted_scale "mae" (mkT [] (fun _ => Fin 1)) (series [1; 2]%R)
      (mkT [] (fun _ => Fin 1)) = inr v
    /\ eval_weighted_scale "mae" (tscale 10 (mkT [] (fun _ => Fin 1)))
         (tscale 10 (series [1; 2]%R)) (mkT [] (fun _ => Fin 1)) = inr v.
Proof.
  assert (Hac : active_count (series [1; 2]%R) 2 1 [] = 2%Z) by fl_eval.
  apply (weighted_scale_is_unit_free "mae" 10 _ _ _ [] [] 2 1).
  - lra.
  - reflexivity.
  - reflexivity.
  - reflexivity.
  - intros b Hb. apply valid_nil_inv in Hb. subst b. rewrite Hac. lia.
  - constructor.
Defined.

(* ================================================================= *)
(** ** Rescaling the ensemble and the truth *)

Lemma fl_leb_scale (k : R) (x y : fl) :
  (0 < k)%R ->
  fl_leb (fl_mul (Fin k) x) (fl_mul (Fin k) y) = fl_leb x y.
Proof.
  intros Hk. destruct x as [a| | |], y as [c| | |]; cbn [fl_mul];
    rewrite ?fl_mul_inf_pos by exact Hk; try reflexivity.
  cbn [fl_leb].
  destruct (Rle_dec (k * a) (k * c)), (Rle_dec a c); try reflexivity; nra.
Qed.

Lemma fl_is_nan_scale (k : R) (x : fl) :
  (0 < k)%R -> fl_is_nan (fl_mul (Fin k) x) = fl_is_nan x.
Proof.
  intros Hk. destruct x; cbn [fl_mul];
    rewrite ?fl_mul_inf_pos by exact Hk; reflexivity.
Qed.

Lemma fl_insert_scale (k : R) (x : fl) (l : list fl) :
  (0 < k)%R ->
  fl_insert (fl_mul (Fin k) x) (map (fl_mul (Fin k)) l)
  = map (fl_mul (Fin k)) (fl_insert x l).
Proof.
  intros Hk. induction l as [|y l IH]; [reflexivity|].
  cbn [map fl_insert]. rewrite fl_leb_scale by exact Hk.
  destruct (fl_leb x y); cbn [map]; [reflexivity|].
  rewrite IH. reflexivity.
Qed.

Lemma fl_sort_scale (k : R) (l : list fl) :
  (0 < k)%R ->
  fl_sort (map (fl_mul (Fin k)) l) = map (fl_mul (Fin k)) (fl_sort l).
Proof.
  intros Hk. induction l as [|x l IH]; [reflexivity|].
  cbn [map fl_sort]. rewrite IH. apply fl_insert_scale. exact Hk.
Qed.

Lemma lower_median_scale (k : R) (l : list fl) :
  (0 < k)%R ->
  lower_median (map (fl_mul (Fin k)) l)
  = fl_mul (Fin k) (lower_median l).
Proof.
  intros Hk. unfold lower_median.
  assert (Hn : existsb fl_is_nan (map (fl_mul (Fin k)) l)
               = existsb fl_is_nan l).
  { induction l as [|x l IH]; [reflexivity|].
    cbn [map existsb]. rewrite fl_is_nan_scale, IH by exact Hk.
    reflexivity. }
  rewrite Hn. destruct (existsb fl_is_nan l); [reflexivity|].
  rewrite fl_sort_scale, length_map by exact Hk.
  change NaN with (fl_mul (Fin k) NaN) at 1. apply map_nth.
Qed.

Lemma samples_scale (k : R) (pred : tensor fl) (idx : list nat) :
  samples (tscale k pred) idx = map (fl_mul (Fin k)) (samples pred idx).
Proof. unfold samples, tscale, tmap. cbn [shape item]. rewrite map_map. reflexivity. Qed.

Lemma mean_td_scale (K : R) (T D : nat) (f : nat -> nat -> fl) :
  (0 < K)%R ->
  mean_td T D (fun t d => fl_mul (Fin K) (f t d))
  = fl_mul (Fin K) (mean_td T D f).
Proof.
  intros HK. unfold mean_td, fl_of_nat.
  rewrite <- fl_div_scale_l by exact HK. f_equal.
  rewrite <- fsum_scale by exact HK. apply fsum_ext. intros t _.
  rewrite <- fsum_scale by exact HK. reflexivity.
Qed.

Lemma mean_td_ext (T D : nat) (f g : nat -> nat -> fl) :
  (forall t d, t < T -> d < D -> f t d = g t d) ->
  mean_td T D f = mean_td T D g.
Proof.
  intros H. unfold mean_td. f_equal.
  apply fsum_ext. intros t Ht. apply fsum_ext. intros d Hd.
  apply H; assumption.
Qed.

Lemma fl_sqrt_scale (k : R) (y : fl) :
  (0 < k)%R ->
  fl_sqrt (fl_mul (Fin (k * k)) y) = fl_mul (Fin k) (fl_sqrt y).
Proof.
  intros Hk. assert (Hkk : (0 < k * k)%R) by nra.
  destruct y as [a| | |]; cbn [fl_mul];
    rewrite ?fl_mul_inf_pos by assumption; cbn [fl_sqrt fl_mul];
    rewrite ?fl_mul_inf_pos by assumption; try reflexivity.
  destruct (Rlt_dec (k * k * a) 0), (Rlt_dec a 0); cbn [fl_mul];
    try reflexivity; try (exfalso; nra).
  f_equal. rewrite sqrt_mult by nra. rewrite sqrt_square by lra.
  reflexivity.
Qed.

Lemma fmean_scale (k : R) (n : nat) (f : nat -> fl) :
  (0 < k)%R ->
  fmean n (fun s => fl_mul (Fin k) (f s)) = fl_mul (Fin k) (fmean n f).
Proof.
  intros Hk. unfold fmean, fl_of_nat.
  rewrite <- fl_div_scale_l by exact Hk. f_equal.
  apply fsum_scale. exact Hk.
Qed.

Lemma mae_spec_scale (k : R) (T D : nat) (pred truth : tensor fl)
  (b : list nat) :
  (0 < k)%R ->
  mae_spec T D (tscale k pred) (tscale k truth) b
  = fl_mul (Fin k) (mae_spec T D pred truth b).
Proof.
  intros Hk. unfold mae_spec. rewrite <- mean_td_scale by exact Hk.
  apply mean_td_ext. intros t d _ _.
  rewrite samples_scale, lower_median_scale by exact Hk.
  unfold tscale at 1, tmap. cbn [item].
  rewrite <- fl_scale_sub, fl_scale_abs by exact Hk. reflexivity.
Qed.

Lemma rmse_spec_scale (k : R) (n T D : nat) (pred truth : tensor fl)
  (b : list nat) :
  (0 < k)%R ->
  rmse_spec n T D (tscale k pred) (tscale k truth) b
  = fl_mul (Fin k) (rmse_spec n T D pred truth b).
Proof.
  intros Hk. assert (Hkk : (0 < k * k)%R) by nra.
  unfold rmse_spec. rewrite <- fl_sqrt_scale by exact Hk. f_equal.
  rewrite <- mean_td_scale by exact Hkk.
  apply mean_td_ext. intros t d _ _. unfold sq_dev.
  unfold tscale, tmap. cbn [item].
  rewrite fmean_scale, <- fl_scale_sub by exact Hk.
  apply fl_mul_scale2; exact Hk.
Qed.

(** X12.  The MAE and the RMSE are homogeneous: multiplying the ensemble
    and the truth by the same positive constant multiplies both metrics by
    that constant in every batch element. *)
Theorem mae_rmse_homogeneous (k : R) (pred truth : tensor fl)
  (n T D : nat) (bs b : list nat) :
  (0 < k)%R ->
  shape pred = S n :: bs ++ [T; D] ->
  shape truth = bs ++ [T; D] ->
  valid bs b ->
  exists mae mae' rmse rmse',
    eval_mae pred truth = inr mae
    /\ eval_mae (tscale k pred) (tscale k truth) = inr mae'
    /\ eval_rmse pred truth = inr rmse
    /\ eval_rmse (tscale k pred) (tscale k truth) = inr rmse'
    /\ item mae' b = fl_mul (Fin k) (item mae b)
    /\ item rmse' b = fl_mul (Fin k) (item rmse b).
Proof.
  intros Hk Hp Ht Hb.
  destruct (eval_mae_item pred truth n T D bs b Hp Ht Hb)
    as (mae & Hmae & _ & Hmi).
  destruct (eval_mae_item (tscale k pred) (tscale k truth) n T D bs b
              Hp Ht Hb) as (mae' & Hmae' & _ & Hmi').
  destruct (eval_rmse_item pred truth (S n) T D bs b Hp Ht Hb)
    as (rmse & Hrmse & _ & Hri).
  destruct (eval_rmse_item (tscale k pred) (tscale k truth) (S n) T D bs b
              Hp Ht Hb) as (rmse' & Hrmse' & _ & Hri').
  exists mae, mae', rmse, rmse'. repeat split; try assumption.
  - rewrite Hmi', Hmi. fold (mae_spec T D pred truth b).
    fold (mae_spec T D (tscale k pred) (tscale k truth) b).
    apply mae_spec_scale. exact Hk.
  - rewrite Hri', Hri. apply rmse_spec_scale. exact Hk.
Qed.

Lemma mae_rmse_homogeneous_witness :
  exists mae mae' rmse rmse',
    eval_mae (mkT [1; 1; 1] (fun _ => Fin 3)) (mkT [1; 1] (fun _ => Fin 1))
    = inr mae
    /\ eval_mae (tscale 10 (mkT [1; 1; 1] (fun _ => Fin 3)))
         (tscale 10 (mkT [1; 1] (fun _ => Fin 1))) = inr mae'
    /\ eval_rmse (mkT [1; 1; 1] (fun _ => Fin 3))
         (mkT [1; 1] (fun _ => Fin 1)) = inr rmse
    /\ eval_rmse (tscale 10 (mkT [1; 1; 1] (fun _ => Fin 3)))
         (tscale 10 (mkT [1; 1] (fun _ => Fin 1))) = inr rmse'
    /\ item mae' [] = fl_mul (Fin 10) (item mae [])
    /\ item rmse' [] = fl_mul (Fin 10) (item rmse []).
Proof.
  apply (mae_rmse_homogeneous 10 _ _ 0 1 1 [] []).
  - lra.
  - reflexivity.
  - reflexivity.
  - constructor.
Defined.

(* ================================================================= *)
(** ** Reordering the ensemble *)

Lemma lsum_app (l l' : list fl) :
  lsum (l ++ l') = fl_add (lsum l) (lsum l').
Proof.
  unfold lsum. induction l as [|x l IH]; cbn [app fold_right].
  - rewrite fl_add_0_l. reflexivity.
  - rewrite IH. apply fl_add_assoc.
Qed.

Lemma fsum_lsum (n : nat) (f : nat -> fl) :
  fsum n f = lsum (map f (seq 0 n)).
Proof.
  induction n as [|n IH]; [reflexivity|].
  rewrite fsum_S, seq_S, map_app, lsum_app, IH. cbn [map lsum fold_right].
  rewrite fl_add_0_r. reflexivity.
Qed.

Lemma lsum_perm (l l' : list fl) :
  Permutation l l' -> lsum l = lsum l'.
Proof.
  unfold lsum. induction 1 as [|x l l' _ IH|x y l|l l' l'' _ IH1 _ IH2];
    cbn [fold_right].
  - reflexivity.
  - rewrite IH. reflexivity.
  - rewrite !fl_add_assoc, (fl_add_comm y x). reflexivity.
  - rewrite IH1. exact IH2.
Qed.

Lemma fsum_perm (sigma : nat -> nat) (n : nat) (f : nat -> fl) :
  Permutation (map sigma (seq 0 n)) (seq 0 n) ->
  fsum n (fun s => f (sigma s)) = fsum n f.
Proof.
  intros Hp. rewrite !fsum_lsum, <- (map_map sigma f).
  apply lsum_perm, Permutation_map, Hp.
Qed.

Lemma fl_leb_trans (x y z : fl) :
  fl_leb x y = true -> fl_leb y z = true -> fl_leb x z = true.
Proof.
  destruct x as [a| | |], y as [c| | |], z as [e| | |]; cbn [fl_leb];
    try discriminate; try reflexivity.
  destruct (Rle_dec a c), (Rle_dec c e), (Rle_dec a e);
    try discriminate; try reflexivity; lra.
Qed.

Lemma fl_leb_antisym (x y : fl) :
  fl_leb x y = true -> fl_leb y x = true -> x = y.
Proof.
  destruct x as [a| | |], y as [c| | |]; cbn [fl_leb];
    try discriminate; try reflexivity.
  destruct (Rle_dec a c), (Rle_dec c a); try discriminate.
  intros _ _. f_equal. lra.
Qed.

Lemma fl_leb_total (x y : fl) :
  fl_is_nan x = false -> fl_is_nan y = false ->
  fl_leb x y = true \/ fl_leb y x = true.
Proof.
  destruct x as [a| | |], y as [c| | |]; cbn [fl_leb fl_is_nan];
    try discriminate; auto.
  destruct (Rle_dec a c), (Rle_dec c a); auto. lra.
Qed.

Lemma fl_insert_comm (x y : fl) (l : list fl) :
  fl_is_nan x = false -> fl_is_nan y = false ->
  fl_insert x (fl_insert y l) = fl_insert y (fl_insert x l).
Proof.
  intros Hx Hy. induction l as [|z l IH].
  - cbn [fl_insert].
    destruct (fl_leb x y) eqn:Exy, (fl_leb y x) eqn:Eyx; try reflexivity.
    + rewrite (fl_leb_antisym x y Exy Eyx). reflexivity.
    + destruct (fl_leb_total x y Hx Hy); congruence.
  - cbn [fl_insert].
    destruct (fl_leb y z) eqn:Eyz, (fl_leb x z) eqn:Exz; cbn [fl_insert];
      rewrite ?Eyz, ?Exz.
    + destruct (fl_leb x y) eqn:Exy, (fl_leb y x) eqn:Eyx; try reflexivity.
      * rewrite (fl_leb_antisym x y Exy Eyx). reflexivity.
      * destruct (fl_leb_total x y Hx Hy); congruence.
    + destruct (fl_leb x y) eqn:Exy; [|reflexivity].
      rewrite (fl_leb_trans x y z Exy Eyz) in Exz. discriminate.
    + destruct (fl_leb y x) eqn:Eyx; [|reflexivity].
      rewrite (fl_leb_trans y x z Eyx Exz) in Eyz. discriminate.
    + rewrite IH. reflexivity.
Qed.

Lemma fl_sort_perm (l l' : list fl) :
  Permutation l l' ->
  Forall (fun x => fl_is_nan x = false) l ->
  fl_sort l = fl_sort l'.
Proof.
  induction 1 as [|x l l' _ IH|x y l|l l' l'' H1 IH1 _ IH2]; intros Hn.
  - reflexivity.
  - cbn [fl_sort]. rewrite IH; [reflexivity|]. inversion Hn; assumption.
  - cbn [fl_sort]. inversion Hn as [|? ? Hy Hn']. inversion Hn' as [|? ? Hx _].
    apply fl_insert_comm; assumption.
  - rewrite IH1 by exact Hn. apply IH2.
    apply (Permutation_Forall H1). exact Hn.
Qed.

Lemma existsb_perm {A : Type} (p : A -> bool) (l l' : list A) :
  Permutation l l' -> existsb p l = existsb p l'.
Proof.
  induction 1 as [|x l l' _ IH|x y l|l l' l'' _ IH1 _ IH2];
    cbn [existsb].
  - reflexivity.
  - rewrite IH. reflexivity.
  - destruct (p x), (p y); reflexivity.
  - rewrite IH1. exact IH2.
Qed.

Lemma lower_median_perm (l l' : list fl) :
  Permutation l l' -> lower_median l = lower_median l'.
Proof.
  intros Hp. unfold lower_median.
  rewrite <- (existsb_perm fl_is_nan l l' Hp).
  destruct (existsb fl_is_nan l) eqn:En; [reflexivity|].
  rewrite <- (Permutation_length Hp).
  rewrite (fl_sort_perm l l' Hp); [reflexivity|].
  apply Forall_forall. intros x Hx.
  destruct (fl_is_nan x) eqn:Ex; [|reflexivity].
  assert (existsb fl_is_nan l = true)
    by (apply existsb_exists; exists x; split; assumption).
  congruence.
Qed.

Lemma samples_permute0 (sigma : nat -> nat) (pred : tensor fl)
  (idx : list nat) :
  samples (permute0 sigma pred) idx
  = map (fun s => item pred (s :: idx))
      (map sigma (seq 0 (hd 0 (shape pred)))).
Proof. unfold samples, permute0. cbn [shape item]. rewrite map_map. reflexivity. Qed.

Lemma eval_mae_rmse_permute0 (sigma : nat -> nat) (pred truth : tensor fl)
  (n T D : nat) (bs b : list nat) :
  Permutation (map sigma (seq 0 (S n))) (seq 0 (S n)) ->
  shape pred = S n :: bs ++ [T; D] ->
  shape truth = bs ++ [T; D] ->
  valid bs b ->
  exists mae mae' rmse rmse',
    eval_mae pred truth = inr mae
    /\ eval_mae (permute0 sigma pred) truth = inr mae'
    /\ eval_rmse pred truth = inr rmse
    /\ eval_rmse (permute0 sigma pred) truth = inr rmse'
    /\ item mae' b = item mae b
    /\ item rmse' b = item rmse b.
Proof.
  intros Hs Hp Ht Hb.
  destruct (eval_mae_item pred truth n T D bs b Hp Ht Hb)
    as (mae & Hmae & _ & Hmi).
  destruct (eval_mae_item (permute0 sigma pred) truth n T D bs b
              Hp Ht Hb) as (mae' & Hmae' & _ & Hmi').
  destruct (eval_rmse_item pred truth (S n) T D bs b Hp Ht Hb)
    as (rmse & Hrmse & _ & Hri).
  destruct (eval_rmse_item (permute0 sigma pred) truth (S n) T D bs b
              Hp Ht Hb) as (rmse' & Hrmse' & _ & Hri').
  exists mae, mae', rmse, rmse'. repeat split; try assumption.
  - rewrite Hmi', Hmi. apply mean_td_ext. intros t d _ _.
    do 2 f_equal. apply lower_median_perm.
    rewrite samples_permute0. unfold samples. rewrite Hp. cbn [hd].
    apply Permutation_map. exact Hs.
  - rewrite Hri', Hri. unfold rmse_spec. f_equal.
    apply mean_td_ext. intros t d _ _. unfold sq_dev.
    assert (E : fmean (S n)
                  (fun s => item (permute0 sigma pred) (s :: b ++ [t; d]))
                = fmean (S n) (fun s => item pred (s :: b ++ [t; d]))).
    { unfold fmean. f_equal.
      apply (fsum_perm sigma (S n)
               (fun s => item pred (s :: b ++ [t; d]))). exact Hs. }
    rewrite E. reflexivity.
Qed.

(** X13.  The order of the ensemble members does not matter: reordering
    the samples along axis 0 by any permutation of their indices leaves
    the MAE and the RMSE of every batch element unchanged. *)
Theorem ensemble_order_irrelevant (sigma : nat -> nat)
  (pred truth : tensor fl) (n T D : nat) (bs b : list nat) :
  Permutation (map sigma (seq 0 (S n))) (seq 0 (S n)) ->
  shape pred = S n :: bs ++ [T; D] ->
  shape truth = bs ++ [T; D] ->
  valid bs b ->
  exists mae mae' rmse rmse',
    eval_mae pred truth = inr mae
    /\ eval_mae (permute0 sigma pred) truth = inr mae'
    /\ eval_rmse pred truth = inr rmse
    /\ eval_rmse (permute0 sigma pred) truth = inr rmse'
    /\ item mae' b = item mae b
    /\ item rmse' b = item rmse b.
Proof. apply eval_mae_rmse_permute0. Qed.

Lemma ensemble_order_irrelevant_witness :
  exists mae mae' rmse rmse',
    eval_mae (mkT [2; 1; 1] (fun idx => Fin (INR (hd 0 idx))))
      (mkT [1; 1] (fun _ => Fin 1)) = inr mae
    /\ eval_mae
         (permute0 (fun s => 1 - s)
            (mkT [2; 1; 1] (fun idx => Fin (INR (hd 0 idx)))))
         (mkT [1; 1] (fun _ => Fin 1)) = inr mae'
    /\ eval_rmse (mkT [2; 1; 1] (fun idx => Fin (INR (hd 0 idx))))
         (mkT [1; 1] (fun _ => Fin 1)) = inr rmse
    /\ eval_rmse
         (permute0 (fun s => 1 - s)
            (mkT [2; 1; 1] (fun idx => Fin (INR (hd 0 idx)))))
         (mkT [1; 1] (fun _ => Fin 1)) = inr rmse'
    /\ item mae' [] = item mae []
    /\ item rmse' [] = item rmse [].
Proof.
  apply (ensemble_order_irrelevant (fun s => 1 - s) _ _ 1 1 1 [] []).
  - cbn [seq map Nat.sub]. apply perm_swap.
  - reflexivity.
  - reflexivity.
  - constructor.
Defined.

(* ================================================================= *)
(** ** Missing values and empty axes *)

Lemma fl_div_zero_zero : fl_div (Fin 0) (Fin 0) = NaN.
Proof.
  unfold fl_div. destruct (Req_dec_T 0 0) as [_|H]; [|contradiction].
  unfold fl_mul_inf. destruct (Rlt_dec 0 0); [lra | reflexivity].
Qed.

Lemma mean_td_has_nan (T D t d : nat) (f : nat -> nat -> fl) :
  t < T -> d < D -> f t d = NaN -> mean_td T D f = NaN.
Proof.
  intros Ht Hd Hf. unfold mean_td.
  rewrite (fsum_nan T t); [reflexivity | exact Ht |].
  apply (fsum_nan D d); assumption.
Qed.

Lemma mean_td_empty (T D : nat) (f : nat -> nat -> fl) :
  T * D = 0 -> mean_td T D f = NaN.
Proof.
  intros H. unfold mean_td, fl_of_nat. rewrite H.
  assert (E : fsum T (fun t => fsum D (fun d => f t d)) = Fin 0).
  { destruct T as [|T]; [reflexivity|].
    assert (D = 0) by lia. subst D. apply fsum_zero. }
  rewrite E. apply fl_div_zero_zero.
Qed.

Lemma mean_td_all_nan (T D : nat) (f : nat -> nat -> fl) :
  (forall t d, t < T -> d < D -> f t d = NaN) -> mean_td T D f = NaN.
Proof.
  intros H. destruct T as [|T]; [apply mean_td_empty; reflexivity|].
  destruct D as [|D]; [apply mean_td_empty; lia|].
  apply (mean_td_has_nan (S T) (S D) 0 0); [lia | lia | apply H; lia].
Qed.

Lemma fl_sub_nan_r (x : fl) : fl_sub x NaN = NaN.
Proof. unfold fl_sub. cbn [fl_opp]. apply fl_add_nan_r. Qed.

Lemma lower_median_nan (l : list fl) :
  In NaN l -> lower_median l = NaN.
Proof.
  intros H. unfold lower_median.
  assert (E : existsb fl_is_nan l = true)
    by (apply existsb_exists; exists NaN; split; [exact H | reflexivity]).
  rewrite E. reflexivity.
Qed.

Lemma fmean_nan (n k : nat) (f : nat -> fl) :
  k < n -> f k = NaN -> fmean n f = NaN.
Proof.
  intros Hk Hf. unfold fmean. rewrite (fsum_nan n k f Hk Hf). reflexivity.
Qed.

Lemma eval_mae_rmse_nan (pred truth : tensor fl) (n T D : nat)
  (bs b : list nat) (t d : nat) :
  shape pred = S n :: bs ++ [T; D] ->
  shape truth = bs ++ [T; D] ->
  valid bs b -> t < T -> d < D ->
  item truth (b ++ [t; d]) = NaN
  \/ (exists s, s < S n /\ item pred (s :: b ++ [t; d]) = NaN) ->
  exists mae rmse,
    eval_mae pred truth = inr mae
    /\ eval_rmse pred truth = inr rmse
    /\ item mae b = NaN
    /\ item rmse b = NaN.
Proof.
  intros Hp Htr Hb Ht Hd Hn.
  destruct (eval_mae_item pred truth n T D bs b Hp Htr Hb)
    as (mae & Hmae & _ & Hmi).
  destruct (eval_rmse_item pred truth (S n) T D bs b Hp Htr Hb)
    as (rmse & Hrmse & _ & Hri).
  exists mae, rmse. split; [exact Hmae|]. split; [exact Hrmse|]. split.
  - rewrite Hmi. apply (mean_td_has_nan T D t d); [exact Ht | exact Hd |].
    destruct Hn as [Hn | (s & Hs & Hn)].
    + rewrite Hn, fl_sub_nan_r. reflexivity.
    + rewrite lower_median_nan; [reflexivity|].
      unfold samples. rewrite Hp. cbn [hd]. rewrite <- Hn.
      apply (in_map (fun s0 => item pred (s0 :: b ++ [t; d]))).
      apply in_seq. lia.
  - rewrite Hri. unfold rmse_spec.
    rewrite (mean_td_has_nan T D t d); [reflexivity | exact Ht | exact Hd |].
    unfold sq_dev. destruct Hn as [Hn | (s & Hs & Hn)].
    + rewrite Hn, fl_sub_nan_r. reflexivity.
    + rewrite (fmean_nan (S n) s _ Hs Hn). reflexivity.
Qed.

Lemma eval_mae_rmse_no_samples (pred truth : tensor fl) (T D : nat)
  (bs b : list nat) :
  shape pred = 0 :: bs ++ [T; D] ->
  shape truth = bs ++ [T; D] ->
  valid bs b ->
  eval_mae pred truth = inl EmptyReduceError
  /\ exists rmse,
       eval_rmse pred truth = inr rmse
       /\ shape rmse = bs
       /\ item rmse b = NaN.
Proof.
  intros Hp Htr Hb. split.
  - unfold eval_mae, median0. rewrite Hp. reflexivity.
  - destruct (eval_rmse_item pred truth 0 T D bs b Hp Htr Hb)
      as (rmse & Hrmse & Hrs & Hri).
    exists rmse. split; [exact Hrmse|]. split; [exact Hrs|].
    rewrite Hri. unfold rmse_spec.
    rewrite mean_td_all_nan; [reflexivity|].
    intros t d _ _. unfold sq_dev, fmean, fl_of_nat.
    cbn [fsum bigsum INR]. rewrite fl_div_zero_zero. reflexivity.
Qed.

Lemma eval_mae_rmse_no_horizon (pred truth : tensor fl) (n T D : nat)
  (bs b : list nat) :
  shape pred = S n :: bs ++ [T; D] ->
  shape truth = bs ++ [T; D] ->
  valid bs b -> T * D = 0 ->
  exists mae rmse,
    eval_mae pred truth = inr mae
    /\ eval_rmse pred truth = inr rmse
    /\ item mae b = NaN
    /\ item rmse b = NaN.
Proof.
  intros Hp Htr Hb H0.
  destruct (eval_mae_item pred truth n T D bs b Hp Htr Hb)
    as (mae & Hmae & _ & Hmi).
  destruct (eval_rmse_item pred truth (S n) T D bs b Hp Htr Hb)
    as (rmse & Hrmse & _ & Hri).
  exists mae, rmse. split; [exact Hmae|]. split; [exact Hrmse|]. split.
  - rewrite Hmi. apply mean_td_empty. exact H0.
  - rewrite Hri. unfold rmse_spec.
    rewrite mean_td_empty by exact H0. reflexivity.
Qed.

(** X14.  A missing value propagates: if the truth, or any member of the
    ensemble, is NaN at one time step and channel of a batch element, then
    both the MAE and the RMSE of that batch element are NaN. *)
Theorem nan_propagates_to_metrics (pred truth : tensor fl) (n T D : nat)
  (bs b : list nat) (t d : nat) :
  shape pred = S n :: bs ++ [T; D] ->
  shape truth = bs ++ [T; D] ->
  valid bs b -> t < T -> d < D ->
  item truth (b ++ [t; d]) = NaN
  \/ (exists s, s < S n /\ item pred (s :: b ++ [t; d]) = NaN) ->
  exists mae rmse,
    eval_mae pred truth = inr mae
    /\ eval_rmse pred truth = inr rmse
    /\ item mae b = NaN
    /\ item rmse b = NaN.
Proof. apply eval_mae_rmse_nan. Qed.

Lemma nan_propagates_to_metrics_witness :
  exists mae rmse,
    eval_mae (mkT [1; 2; 1] (fun _ => Fin 3))
      (mkT [2; 1] (fun idx => match idx with 0 :: _ => Fin 1 | _ => NaN end))
    = inr mae
    /\ eval_rmse (mkT [1; 2; 1] (fun _ => Fin 3))
         (mkT [2; 1]
            (fun idx => match idx with 0 :: _ => Fin 1 | _ => NaN end))
       = inr rmse
    /\ item mae [] = NaN
    /\ item rmse [] = NaN.
Proof.
  apply (nan_propagates_to_metrics _ _ 0 2 1 [] [] 1 0).
  - reflexivity.
  - reflexivity.
  - constructor.
  - lia.
  - lia.
  - left. reflexivity.
Defined.

(** X15.  An ensemble with no members: [eval_mae] raises, because the
    median of an empty axis is rejected, while [eval_rmse] returns NaN for
    every batch element, the mean of an empty axis. *)
Theorem empty_ensemble (pred truth : tensor fl) (T D : nat)
  (bs b : list nat) :
  shape pred = 0 :: bs ++ [T; D] ->
  shape truth = bs ++ [T; D] ->
  valid bs b ->
  eval_mae pred truth = inl EmptyReduceError
  /\ exists rmse,
       eval_rmse pred truth = inr rmse
       /\ shape rmse = bs
       /\ item rmse b = NaN.
Proof. apply eval_mae_rmse_no_samples. Qed.

Lemma empty_ensemble_witness :
  eval_mae (mkT [0; 1; 1] (fun _ => Fin 3)) (mkT [1; 1] (fun _ => Fin 1))
  = inl EmptyReduceError
  /\ exists rmse,
       eval_rmse (mkT [0; 1; 1] (fun _ => Fin 3))
         (mkT [1; 1] (fun _ => Fin 1)) = inr rmse
       /\ shape rmse = []
       /\ item rmse [] = NaN.
Proof.
  apply (empty_ensemble _ _ 1 1 [] []).
  - reflexivity.
  - reflexivity.
  - constructor.
Defined.

(** X16.  An empty forecast horizon (no time steps, or no channels) is not
    an error: the MAE and the RMSE are computed and are NaN for every batch
    element. *)
Theorem empty_horizon_gives_nan (pred truth : tensor fl) (n T D : nat)
  (bs b : list nat) :
  shape pred = S n :: bs ++ [T; D] ->
  shape truth = bs ++ [T; D] ->
  valid bs b -> T * D = 0 ->
  exists mae rmse,
    eval_mae pred truth = inr mae
    /\ eval_rmse pred truth = inr rmse
    /\ item mae b = NaN
    /\ item rmse b = NaN.
Proof. apply eval_mae_rmse_no_horizon. Qed.

Lemma empty_horizon_gives_nan_witness :
  exists mae rmse,
    eval_mae (mkT [1; 0; 1] (fun _ => Fin 3)) (mkT [0; 1] (fun _ => Fin 1))
    = inr mae
    /\ eval_rmse (mkT [1; 0; 1] (fun _ => Fin 3))
         (mkT [0; 1] (fun _ => Fin 1)) = inr rmse
    /\ item mae [] = NaN
    /\ item rmse [] = NaN.
Proof.
  apply (empty_horizon_gives_nan _ _ 0 0 1 [] []).
  - reflexivity.
  - reflexivity.
  - constructor.
  - reflexivity.
Defined.

(* ================================================================= *)
(** ** Top-down disaggregation without sales *)

Lemma top_down_shares (sales pred : tensor fl) (N L T : nat)
  (s : nat -> nat -> R) :
  shape sales = [N; L] ->
  shape pred = [T] ->
  (forall i j, i < N -> j < L -> L - 28 <= j ->
     item sales [i; j] = Fin (s i j)) ->
  exists proportion prediction,
    main_top_down sales pred = inr (proportion, prediction)
    /\ shape proportion = [N]
    /\ shape prediction = [N; T]
    /\ (forall i, i < N ->
          item proportion [i]
          = fl_div (Fin (sales_last28_sum L s i))
              (Fin (sales_grand_total N L s)))
    /\ (forall i t, i < N -> t < T ->
          item prediction [i; t]
          = fl_mul (item proportion [i]) (item pred [t])).
Proof.
  intros Hs Hp Hsi.
  unfold main_top_down, slice_last_cols. rewrite Hs. cbn [bind ret].
  set (m := Nat.min 28 L).
  set (sl := mkT [N; m] _).
  assert (Hsl : forall i j, i < N -> j < m ->
                  item sl [i; j] = Fin (s i (j + (L - m)))).
  { intros i j Hi Hj. unfold sl. cbn [item].
    apply Hsi; [exact Hi | unfold m in *; lia | unfold m in *; lia]. }
  assert (Hrow : forall i, i < N ->
                   item (sum_last false sl) [i]
                   = Fin (sales_last28_sum L s i)).
  { intros i Hi. unfold sum_last, reduce_last, sl. cbn [shape item dimm1 last].
    apply fsum_Fin. intros k Hk. apply (Hsl i k Hi Hk). }
  assert (Htot : item (sum_all sl) [] = Fin (sales_grand_total N L s)).
  { unfold sum_all. cbn [item]. change (shape sl) with [N; m].
    cbn [numel fold_right unravel]. rewrite Nat.mul_1_r.
    rewrite (fsum_ext _ _ (fun k => item sl [k / m; k mod m]))
      by (intros k _; rewrite Nat.div_1_r; reflexivity).
    rewrite (fsum_flatten N m (fun i j => item sl [i; j])).
    apply fsum_Fin. intros i Hi.
    apply fsum_Fin. intros j Hj. apply Hsl; assumption. }
  unfold tmap2. change (shape (sum_last false sl)) with [N].
  change (shape (sum_all sl)) with (@nil nat).
  cbn [broadcast_shapes rev app bcast_rev option_map bind ret].
  set (proportion := mkT [N] _).
  assert (Hprop : forall i, i < N ->
            item proportion [i]
            = fl_div (Fin (sales_last28_sum L s i))
                (Fin (sales_grand_total N L s))).
  { intros i Hi. unfold proportion. cbn [item].
    rewrite (bidx_valid [N] [i]) by (repeat constructor; exact Hi).
    change (bidx [] [i]) with (@nil nat).
    rewrite Hrow, Htot by exact Hi. reflexivity. }
  unfold ger. change (shape proportion) with [N]. rewrite Hp.
  cbn [bind ret].
  eexists. eexists. split; [reflexivity|].
  split; [reflexivity|]. split; [reflexivity|].
  split; [exact Hprop|].
  intros i t Hi Ht. reflexivity.
Qed.

Lemma top_down_no_sales (sales pred : tensor fl) (N L T : nat) :
  shape sales = [N; L] ->
  shape pred = [T] ->
  (forall i j, i < N -> j < L -> L - 28 <= j ->
     item sales [i; j] = Fin 0) ->
  exists proportion prediction,
    main_top_down sales pred = inr (proportion, prediction)
    /\ shape prediction = [N; T]
    /\ (forall i, i < N -> item proportion [i] = NaN)
    /\ (forall i t, i < N -> t < T -> item prediction [i; t] = NaN).
Proof.
  intros Hs Hp H0.
  destruct (top_down_shares sales pred N L T (fun _ _ => 0%R) Hs Hp H0)
    as (proportion & prediction & Htd & _ & Hsh & Hprop & Hpred).
  assert (Hrow : forall i, sales_last28_sum L (fun _ _ => 0%R) i = 0%R).
  { intros i. unfold sales_last28_sum. rewrite rsum_const. lra. }
  assert (Htot : sales_grand_total N L (fun _ _ => 0%R) = 0%R).
  { unfold sales_grand_total.
    rewrite (functional_extensionality _ (fun _ => 0%R) Hrow).
    rewrite rsum_const. lra. }
  assert (Hnan : forall i, i < N -> item proportion [i] = NaN).
  { intros i Hi. rewrite Hprop, Hrow, Htot by exact Hi.
    apply fl_div_zero_zero. }
  exists proportion, prediction.
  split; [exact Htd|]. split; [exact Hsh|]. split; [exact Hnan|].
  intros i t Hi Ht. rewrite Hpred, Hnan by assumption. reflexivity.
Qed.

(** X17.  If no bottom-level series sold anything in the trailing 28
    periods, the top-down step does not fail: it divides zero by zero, so
    every proportion and every disaggregated forecast is NaN, whatever the
    aggregate forecast is. *)
Theorem top_down_without_sales (sales pred : tensor fl) (N L T : nat) :
  shape sales = [N; L] ->
  shape pred = [T] ->
  (forall i j, i < N -> j < L -> L - 28 <= j ->
     item sales [i; j] = Fin 0) ->
  exists proportion prediction,
    main_top_down sales pred = inr (proportion, prediction)
    /\ shape prediction = [N; T]
    /\ (forall i, i < N -> item proportion [i] = NaN)
    /\ (forall i t, i < N -> t < T -> item prediction [i; t] = NaN).
Proof. apply top_down_no_sales. Qed.

Lemma top_down_without_sales_witness :
  exists proportion prediction,
    main_top_down (mkT [2; 1] (fun _ => Fin 0)) (mkT [1] (fun _ => Fin 100))
    = inr (proportion, prediction)
    /\ shape prediction = [2; 1]
    /\ (forall i, i < 2 -> item proportion [i] = NaN)
    /\ (forall i t, i < 2 -> t < 1 -> item prediction [i; t] = NaN).
Proof.
  apply (top_down_without_sales _ _ 2 1 1).
  - reflexivity.
  - reflexivity.
  - intros. reflexivity.
Defined.

(* ================================================================= *)
(** ** The sign of the metrics without the conditions *)

Lemma fl_nonneg_nan : ~ fl_nonneg NaN.
Proof. intros (r & H & _). discriminate H. Qed.

Lemma pinball_term_nan (q : R) : pinball_term q NaN = NaN.
Proof. reflexivity. Qed.

Lemma pl_spec_nan (sample_quantile : list fl -> fl -> fl) (q : R)
  (T D t d : nat) (pred truth : tensor fl) (b : list nat) :
  t < T -> d < D ->
  item truth (b ++ [t; d]) = NaN ->
  pl_spec sample_quantile [q] T D pred truth b = NaN.
Proof.
  intros Ht Hd Hn. unfold pl_spec.
  apply (mean_td_has_nan T D t d); [exact Ht | exact Hd |].
  apply (fmean_nan 1 0); [cbn [length]; lia |].
  rewrite Hn, fl_sub_nan_r. apply pinball_term_nan.
Qed.

(** C10 as first stated, for every ensemble and truth of matching shape,
    does not hold.  With a NaN in the truth (one series, two steps, the
    second missing) the three metrics return NaN; with a horizon of no
    steps the MAE and the RMSE return NaN; and with an ensemble of no
    members [eval_mae] returns nothing at all. *)
Lemma metrics_not_always_nonneg :
  (exists mae rmse pl,
     eval_mae (mkT [1; 2; 1] (fun _ => Fin 3))
       (mkT [2; 1] (fun idx => match idx with 0 :: _ => Fin 1 | _ => NaN end))
     = inr mae
     /\ eval_rmse (mkT [1; 2; 1] (fun _ => Fin 3))
          (mkT [2; 1]
             (fun idx => match idx with 0 :: _ => Fin 1 | _ => NaN end))
        = inr rmse
     /\ eval_pl (fun l _ => hd NaN l) [0.5%R]
          (mkT [1; 2; 1] (fun _ => Fin 3))
          (mkT [2; 1]
             (fun idx => match idx with 0 :: _ => Fin 1 | _ => NaN end))
        = inr pl
     /\ ~ fl_nonneg (item mae [])
     /\ ~ fl_nonneg (item rmse [])
     /\ ~ fl_nonneg (item pl []))
  /\ (exists mae rmse,
        eval_mae (mkT [1; 0; 1] (fun _ => Fin 3))
          (mkT [0; 1] (fun _ => Fin 1)) = inr mae
        /\ eval_rmse (mkT [1; 0; 1] (fun _ => Fin 3))
             (mkT [0; 1] (fun _ => Fin 1)) = inr rmse
        /\ ~ fl_nonneg (item mae [])
        /\ ~ fl_nonneg (item rmse []))
  /\ eval_mae (mkT [0; 1; 1] (fun _ => Fin 3)) (mkT [1; 1] (fun _ => Fin 1))
     = inl EmptyReduceError.
Proof.
  split; [|split].
  - set (pred := mkT [1; 2; 1] (fun _ => Fin 3)).
    set (truth := mkT [2; 1] _).
    destruct (eval_mae_rmse_nan pred truth 0 2 1 [] [] 1 0)
      as (mae & rmse & Hmae & Hrmse & Hm & Hr);
      [reflexivity | reflexivity | constructor | lia | lia
      | left; reflexivity |].
    destruct (eval_pl_item (fun l _ => hd NaN l) [0.5%R] pred truth
                0 2 1 [] []) as (pl & Hpl & _ & Hp);
      [reflexivity | reflexivity | constructor |].
    exists mae, rmse, pl.
    split; [exact Hmae|]. split; [exact Hrmse|]. split; [exact Hpl|].
    rewrite Hm, Hr, Hp.
    rewrite (pl_spec_nan _ _ 2 1 1 0) by (try lia; reflexivity).
    repeat split; apply fl_nonneg_nan.
  - destruct (eval_mae_rmse_no_horizon (mkT [1; 0; 1] (fun _ => Fin 3))
                (mkT [0; 1] (fun _ => Fin 1)) 0 0 1 [] [])
      as (mae & rmse & Hmae & Hrmse & Hm & Hr);
      [reflexivity | reflexivity | constructor | reflexivity |].
    exists mae, rmse.
    split; [exact Hmae|]. split; [exact Hrmse|].
    rewrite Hm, Hr. split; apply fl_nonneg_nan.
  - reflexivity.
Qed.

(* ================================================================= *)
(** ** A scored window under rescaled weights *)

(** The weighted scaled metric of a single series: weight times value over
    scale. *)
Lemma eval_weighted_scale_scalar_value (metric : string)
  (value x weight r : tensor fl) :
  _get_metric_scale metric x = inr r ->
  shape r = [] -> shape value = [] -> shape weight = [] ->
  eval_weighted_scale metric value x weight
  = inr (fl_div (fl_mul (item weight []) (item value [])) (item r [])).
Proof.
  intros Hr Hrs Hvs Hws. unfold eval_weighted_scale.
  rewrite Hr. cbn [bind].
  destruct (tmap2_same_shape fl_mul weight value [] Hws Hvs)
    as (wv & -> & Hwvs & Hwvi).
  cbn [bind].
  destruct (tmap2_same_shape fl_div wv r [] Hwvs Hrs)
    as (q & -> & Hqs & Hqi).
  cbn [bind]. unfold ret, sum_all. cbn [item]. rewrite Hqs.
  cbn [numel fold_right unravel]. unfold fsum. cbn [bigsum].
  rewrite Hqi, Hwvi by constructor. rewrite fl_add_0_l. reflexivity.
Qed.

(** The univariate series 1, 3, 4 with the weights 1, 2, 3 and one window
    with [t1 = 2], every metric of which is 1: the training slice 1, 3 has
    scale 2 under both norms and the normalized weight is 1, so every
    [ws_<metric>] is 1/2. *)
Lemma m5_backtest_scored_window :
  exists w' log,
    m5_backtest (fun _ _ => inl DimError) (fun l _ => hd NaN l) [0.5%R]
      (fun _ _ => inr [example_window 2]) (series [1; 3; 4]%R)
      (Some (tensor_of_list [Fin 1; Fin 2; Fin 3])) (mkKw None None)
    = inr ([w'], log)
    /\ dict_get w' "ws_mae" = inr (VFloat (Fin (1 / 2)))
    /\ dict_get w' "ws_rmse" = inr (VFloat (Fin (1 / 2)))
    /\ dict_get w' "ws_crps" = inr (VFloat (Fin (1 / 2)))
    /\ dict_get w' "ws_pl" = inr (VFloat (Fin (1 / 2))).
Proof.
  set (data := series [1; 3; 4]%R).
  set (weight := tensor_of_list [Fin 1; Fin 2; Fin 3]).
  destruct (required_train_window_max data [] [] 3 1)
    as (m & Hm & _); [reflexivity | constructor |].
  destruct (normalize_weight_item data weight [] [] 3 1 1)
    as (wn & Hwn & Hwns & Hwni);
    [reflexivity | reflexivity | constructor | lia |].
  assert (Hw1 : item wn [1] = Fin 1).
  { change [1] with ([] ++ [1]).
    rewrite (Hwni [] (Forall2_nil _)). unfold weight, tensor_of_list.
    cbn [numel fold_right fsum bigsum unravel app item hd nth].
    fl_eval. }
  set (train := mkT [2; 1] (item data)).
  assert (Hsl : slice_m2_to 2 data = inr train) by reflexivity.
  set (w1 := mkT [] (fun idx => item wn (1 :: idx))).
  assert (Hi : index0 (2 - 1) wn = inr w1).
  { unfold index0. rewrite Hwns. reflexivity. }
  assert (Hac : active_count train 2 1 [] = 2%Z).
  { unfold train, data. fl_eval. }
  assert (Hews : forall metric,
            eval_weighted_scale metric (mkT [] (fun _ => Fin 1)) train w1
            = inr (Fin (1 / 2))).
  { intros metric.
    destruct (get_metric_scale_item metric train [] [] 2 1)
      as (r & Hr & Hrs & Hri).
    - reflexivity.
    - intros b' Hb'. apply valid_nil_inv in Hb'. subst b'.
      rewrite Hac. lia.
    - constructor.
    - rewrite (eval_weighted_scale_scalar_value metric
                 (mkT [] (fun _ => Fin 1)) train w1 r Hr Hrs
                 eq_refl eq_refl).
      assert (H2 : item r [] = Fin 2).
      { rewrite Hri, Hac. change (Z.to_nat (Z.of_nat 2 - 2)) with 0.
        unfold metric_norm, train, data.
        destruct (String.eqb metric "rmse").
        - fl_eval. f_equal.
          replace (sqrt _) with (sqrt (2 * 2)) by (f_equal; lra).
          apply sqrt_square. lra.
        - fl_eval. }
      rewrite H2. unfold w1. cbn [item]. rewrite Hw1. fl_eval.
      do 2 f_equal. lra. }
  assert (Hmet : exists w',
            ws_metrics ["mae"; "rmse"; "crps"; "pl"]%string
              (example_window 2) train w1 = inr w'
            /\ dict_get w' "ws_mae" = inr (VFloat (Fin (1 / 2)))
            /\ dict_get w' "ws_rmse" = inr (VFloat (Fin (1 / 2)))
            /\ dict_get w' "ws_crps" = inr (VFloat (Fin (1 / 2)))
            /\ dict_get w' "ws_pl" = inr (VFloat (Fin (1 / 2)))).
  { unfold example_window. cbn [ws_metrics get_tensor dict_get String.eqb
      Ascii.eqb Bool.eqb bind ret].
    rewrite (Hews "mae"%string).
    cbn [bind dict_set String.eqb Ascii.eqb Bool.eqb append get_tensor
         dict_get ret].
    rewrite (Hews "rmse"%string).
    cbn [bind dict_set String.eqb Ascii.eqb Bool.eqb append get_tensor
         dict_get ret].
    rewrite (Hews "crps"%string).
    cbn [bind dict_set String.eqb Ascii.eqb Bool.eqb append get_tensor
         dict_get ret].
    rewrite (Hews "pl"%string).
    cbn [bind dict_set String.eqb Ascii.eqb Bool.eqb append get_tensor
         dict_get ret].
    eexists. split; [reflexivity|]. repeat split. }
  destruct Hmet as (w' & Hmet & Hmae & Hrmse & Hcrps & Hpl).
  assert (Hloop : ws_windows ["mae"; "rmse"; "crps"; "pl"]%string data
                    [example_window 2] wn = inr [w']).
  { cbn [ws_windows]. change (get_int (example_window 2) "t1") with
      (@inr error Z 2%Z). cbn [bind]. rewrite Hsl. cbn [bind].
    rewrite Hi. cbn [bind]. rewrite Hmet. reflexivity. }
  unfold m5_backtest, m5_setup, shape_eqb.
  change (shape weight) with [3]. change (shape data) with [3; 1].
  cbn [removelast].
  destruct (list_eq_dec Nat.eq_dec [3] [3]) as [_|Hne];
    [|exfalso; apply Hne; reflexivity].
  cbn [negb]. rewrite Hwn. cbn [bind].
  change (shape data) with [3; 1] in Hm. rewrite Hm.
  cbn [bind kw_metrics kw_min_train_window].
  destruct (1 <? m)%Z.
  - cbn [bind ret kw_metrics DEFAULT_METRICS map fst].
    rewrite Hloop. cbn [bind ret].
    exists w'. eexists. split; [reflexivity|].
    repeat split; assumption.
  - cbn [bind ret kw_metrics DEFAULT_METRICS map fst].
    rewrite Hloop. cbn [bind ret].
    exists w'. eexists. split; [reflexivity|].
    repeat split; assumption.
Qed.

(** An instance with a scored window: on the series 1, 3, 4 with one
    window, the weights 2, 4, 6 give the same result as the weights
    1, 2, 3, and that result holds the value 1/2 for every
    [ws_<metric>]. *)
Lemma m5_backtest_weight_scale_witness :
  m5_backtest (fun _ _ => inl DimError) (fun l _ => hd NaN l) [0.5%R]
    (fun _ _ => inr [example_window 2]) (series [1; 3; 4]%R)
    (Some (tscale 2 (tensor_of_list [Fin 1; Fin 2; Fin 3])))
    (mkKw None None)
  = m5_backtest (fun _ _ => inl DimError) (fun l _ => hd NaN l) [0.5%R]
      (fun _ _ => inr [example_window 2]) (series [1; 3; 4]%R)
      (Some (tensor_of_list [Fin 1; Fin 2; Fin 3])) (mkKw None None)
  /\ exists w' log,
       m5_backtest (fun _ _ => inl DimError) (fun l _ => hd NaN l) [0.5%R]
         (fun _ _ => inr [example_window 2]) (series [1; 3; 4]%R)
         (Some (tensor_of_list [Fin 1; Fin 2; Fin 3])) (mkKw None None)
       = inr ([w'], log)
       /\ dict_get w' "ws_mae" = inr (VFloat (Fin (1 / 2)))
       /\ dict_get w' "ws_rmse" = inr (VFloat (Fin (1 / 2)))
       /\ dict_get w' "ws_crps" = inr (VFloat (Fin (1 / 2)))
       /\ dict_get w' "ws_pl" = inr (VFloat (Fin (1 / 2))).
Proof.
  split.
  - apply m5_backtest_weight_scale. lra.
  - exact m5_backtest_scored_window.
Defined.
